(** * Scene graph, light registry and basic render pipeline

    A shallow embedding of [Scene.ts], [lighting/LightManager.ts] and the
    basic render pipeline, together with the properties their
    specification states about them.

    JavaScript objects live in stores indexed by references (natural
    numbers), so that two array slots holding the same object really alias.
    Numbers are IEEE-754 binary64 values ([spec_float]); the array
    indices and counters that the code computes itself are integers
    ([Z]), with [-1] where the code uses it as the "no index" value.  The
    index that a caller hands to [addRootEntity], and with it the sibling
    index of an entity, is any number: an integer or another binary64
    value ([Index.t]). *)

From Stdlib Require Import ZArith Lia Bool Ascii.
From Stdlib Require Import Floats.SpecFloat.
From stdpp Require Import base tactics option list strings pretty gmap.

Local Open Scope Z_scope.

(* ================================================================== *)
(** * Part I: the model *)
(* ================================================================== *)

(** ** JavaScript numbers *)

Module JS.

(** A JavaScript [number] is a binary64 floating-point value. *)
Definition number : Type := spec_float.

Definition prec : Z := 53.
Definition emax : Z := 1024.

(** [Number.NEGATIVE_INFINITY] *)
Definition NEGATIVE_INFINITY : number := S754_infinity true.

(** [a < b]: false as soon as one side is NaN. *)
Definition lt (a b : number) : bool := SFltb a b.

Definition mul (a b : number) : number := SFmul prec emax a b.
Definition add (a b : number) : number := SFadd prec emax a b.
Definition sub (a b : number) : number := SFsub prec emax a b.
Definition div (a b : number) : number := SFdiv prec emax a b.

Definition isNaN (a : number) : bool :=
  match a with S754_nan => true | _ => false end.

(** The number denoted by the integer literal [z]. *)
Definition ofZ (z : Z) : number := binary_normalize prec emax z 0 false.

End JS.

(** ** [DisorderedArray] *)

Module DisorderedArray.

Section Ops.
Context {T : Type}.

(** Modelled from the spec: the class [DisorderedArray] is imported by
    [LightManager.ts] but is not among the sources.  The container is
    the sequence of its live slots: [add] is "add-to-end", and
    [deleteByIndex] is the swap-remove of section 4.2: "the last
    element is swapped into the freed slot", the moved element being
    returned so that the caller can update its index, and nothing
    being returned ("no swap needed") when the last slot itself is
    removed. *)
Definition length (a : list T) : Z := Z.of_nat (List.length a).

Definition add (x : T) (a : list T) : list T := a ++ [x].

Definition get (i : Z) (a : list T) : option T :=
  if decide (0 <= i) then a !! Z.to_nat i else None.

Definition set (i : Z) (x : T) (a : list T) : list T :=
  if decide (0 <= i) then <[Z.to_nat i := x]> a else a.

Definition deleteByIndex (index : Z) (a : list T) : list T * option T :=
  let lastIndex := length a - 1 in
  if decide (index = lastIndex) then
    (take (Nat.pred (List.length a)) a, None)
  else
    match last a with
    | Some e => (take (Nat.pred (List.length a)) (set index e a), Some e)
    | None => (a, None)
    end.
End Ops.

End DisorderedArray.

(** ** Shader data *)

Module ShaderData.

(** Modelled from the spec: [ShaderData] and [ShaderMacroCollection] are
    not among the sources; a shader-data block supports "macro
    enable/disable by name(+value)", and is modelled by the finite map
    from the names of the enabled macros to their values (the empty
    string for a macro enabled without a value). *)
Definition t : Type := gmap string string.

Definition enableMacro (name : string) (value : option string) (d : t) : t :=
  <[name := default EmptyString value]> d.

Definition disableMacro (name : string) (d : t) : t := delete name d.

(** Modelled from the spec: "macro union", the merge of two macro sets. *)
Definition unionCollection (left right : t) : t := left ∪ right.

End ShaderData.

(** [n.toString()] for a count. *)
Definition Number_toString (n : Z) : string := pretty n.

(** ** Lights and the light manager ([lighting/LightManager.ts]) *)

(** Modelled from the spec: the enumeration [ShadowType] is declared outside
    the sources; the code only distinguishes [ShadowType.None] from the
    shadow-casting kinds. *)
Inductive ShadowType : Type :=
| ShadowType_None
| ShadowType_Hard
| ShadowType_SoftLow
| ShadowType_SoftHigh.

#[global] Instance ShadowType_eq_dec : EqDecision ShadowType.
Proof. solve_decision. Defined.

(** Modelled from the spec: [type.toString()], the decimal numeral of the
    member, numbered in the order above. *)
Definition ShadowType_toString (type : ShadowType) : string :=
  match type with
  | ShadowType_None => "0"
  | ShadowType_Hard => "1"
  | ShadowType_SoftLow => "2"
  | ShadowType_SoftHigh => "3"
  end.

(** The fields of a light object that the sources read or write.
    [color_getBrightness] stands for the value of
    [light.color.getBrightness()] (the math library is not among the
    sources). *)
Record Light : Type := mkLight {
  _lightIndex : Z;
  shadowType : ShadowType;
  intensity : JS.number;
  color_getBrightness : JS.number
}.

Definition LightRef : Type := nat.

(** A store of light objects of one class. *)
Definition LightStore : Type := LightRef -> Light.

Definition set_lightIndex (i : Z) (l : Light) : Light :=
  {| _lightIndex := i; shadowType := shadowType l;
     intensity := intensity l; color_getBrightness := color_getBrightness l |}.

Definition store_lightIndex (r : LightRef) (i : Z) (h : LightStore) : LightStore :=
  fun x => if decide (x = r) then set_lightIndex i (h x) else h x.

Definition castsShadow (l : Light) : bool :=
  bool_decide (shadowType l <> ShadowType_None).

Module LightManager.

(** The three containers of the manager. *)
Record t : Type := mk {
  _spotLights : list LightRef;
  _pointLights : list LightRef;
  _directLights : list LightRef
}.

(** The manager together with the light objects it refers to; each class
    of light has its own objects. *)
Record State : Type := mkState {
  manager : t;
  spotLight : LightStore;
  pointLight : LightStore;
  directLight : LightStore
}.

(** The body shared by [_attachSpotLight], [_attachPointLight] and
    [_attachDirectLight]:
    [light._lightIndex = lights.length; lights.add(light)]. *)
Definition attach (light : LightRef) (c : list LightRef * LightStore)
  : list LightRef * LightStore :=
  let '(lights, h) := c in
  let h := store_lightIndex light (DisorderedArray.length lights) h in
  (DisorderedArray.add light lights, h).

(** The body shared by the three [_detach*Light] methods:
    [replaced = lights.deleteByIndex(light._lightIndex);
     replaced && (replaced._lightIndex = light._lightIndex);
     light._lightIndex = -1]. *)
Definition detach (light : LightRef) (c : list LightRef * LightStore)
  : list LightRef * LightStore :=
  let '(lights, h) := c in
  let '(lights, replaced) :=
    DisorderedArray.deleteByIndex (_lightIndex (h light)) lights in
  let h :=
    match replaced with
    | Some r => store_lightIndex r (_lightIndex (h light)) h
    | None => h
    end in
  (lights, store_lightIndex light (-1) h).

Definition _attachSpotLight (light : LightRef) (s : State) : State :=
  let '(c, h) := attach light (_spotLights (manager s), spotLight s) in
  mkState (mk c (_pointLights (manager s)) (_directLights (manager s)))
          h (pointLight s) (directLight s).

Definition _detachSpotLight (light : LightRef) (s : State) : State :=
  let '(c, h) := detach light (_spotLights (manager s), spotLight s) in
  mkState (mk c (_pointLights (manager s)) (_directLights (manager s)))
          h (pointLight s) (directLight s).

Definition _attachPointLight (light : LightRef) (s : State) : State :=
  let '(c, h) := attach light (_pointLights (manager s), pointLight s) in
  mkState (mk (_spotLights (manager s)) c (_directLights (manager s)))
          (spotLight s) h (directLight s).

Definition _detachPointLight (light : LightRef) (s : State) : State :=
  let '(c, h) := detach light (_pointLights (manager s), pointLight s) in
  mkState (mk (_spotLights (manager s)) c (_directLights (manager s)))
          (spotLight s) h (directLight s).

Definition _attachDirectLight (light : LightRef) (s : State) : State :=
  let '(c, h) := attach light (_directLights (manager s), directLight s) in
  mkState (mk (_spotLights (manager s)) (_pointLights (manager s)) c)
          (spotLight s) (pointLight s) h.

Definition _detachDirectLight (light : LightRef) (s : State) : State :=
  let '(c, h) := detach light (_directLights (manager s), directLight s) in
  mkState (mk (_spotLights (manager s)) (_pointLights (manager s)) c)
          (spotLight s) (pointLight s) h.

(** One call on the registry, and a sequence of calls. *)
Inductive Call : Type :=
| AttachSpot (light : LightRef)
| DetachSpot (light : LightRef)
| AttachPoint (light : LightRef)
| DetachPoint (light : LightRef)
| AttachDirect (light : LightRef)
| DetachDirect (light : LightRef).

Definition call (c : Call) (s : State) : State :=
  match c with
  | AttachSpot l => _attachSpotLight l s
  | DetachSpot l => _detachSpotLight l s
  | AttachPoint l => _attachPointLight l s
  | DetachPoint l => _detachPointLight l s
  | AttachDirect l => _attachDirectLight l s
  | DetachDirect l => _detachDirectLight l s
  end.

Fixpoint calls (cs : list Call) (s : State) : State :=
  match cs with
  | [] => s
  | c :: cs => calls cs (call c s)
  end.

(** The loop of [_getSunLightIndex], from index [i] on; [lights] are the
    slots not visited yet. *)
Fixpoint sunLightLoop (h : LightStore) (lights : list LightRef) (i : Z)
    (sunLightIndex : Z) (maxIntensity : JS.number) (hasShadowLight : bool) : Z :=
  match lights with
  | [] => sunLightIndex
  | r :: rest =>
      let directLight := h r in
      let reset := castsShadow directLight && negb hasShadowLight in
      let maxIntensity := if reset then JS.NEGATIVE_INFINITY else maxIntensity in
      let hasShadowLight := if reset then true else hasShadowLight in
      let intensity :=
        JS.mul (intensity directLight) (color_getBrightness directLight) in
      let better :=
        if hasShadowLight
        then castsShadow directLight && JS.lt maxIntensity intensity
        else JS.lt maxIntensity intensity in
      sunLightLoop h rest (i + 1)
        (if better then i else sunLightIndex)
        (if better then intensity else maxIntensity)
        hasShadowLight
  end.

(** [_updateShaderData(shaderData)].  The calls [light._appendData(i)]
    and the static [_updateShaderData] of the three light classes fill
    and upload the packed per-light data; they touch neither the macros
    nor the light objects modelled here. *)
Definition _updateShaderData (s : State) (shaderData : ShaderData.t) : ShaderData.t :=
  let spotLightCount := DisorderedArray.length (_spotLights (manager s)) in
  let pointLightCount := DisorderedArray.length (_pointLights (manager s)) in
  let directLightCount := DisorderedArray.length (_directLights (manager s)) in
  let shaderData :=
    if decide (directLightCount <> 0)
    then ShaderData.enableMacro "O3_DIRECT_LIGHT_COUNT"
           (Some (Number_toString directLightCount)) shaderData
    else ShaderData.disableMacro "O3_DIRECT_LIGHT_COUNT" shaderData in
  let shaderData :=
    if decide (pointLightCount <> 0)
    then ShaderData.enableMacro "O3_POINT_LIGHT_COUNT"
           (Some (Number_toString pointLightCount)) shaderData
    else ShaderData.disableMacro "O3_POINT_LIGHT_COUNT" shaderData in
  if decide (spotLightCount <> 0)
  then ShaderData.enableMacro "O3_SPOT_LIGHT_COUNT"
         (Some (Number_toString spotLightCount)) shaderData
  else ShaderData.disableMacro "O3_SPOT_LIGHT_COUNT" shaderData.

Definition _getSunLightIndex (s : State) : Z :=
  sunLightLoop (directLight s) (_directLights (manager s)) 0
    (-1) JS.NEGATIVE_INFINITY false.

(** What the properties below speak about. *)

(** Every light of the container stores its own position. *)
Definition indexed (lights : list LightRef) (h : LightStore) : Prop :=
  forall (i : nat) (r : LightRef),
    lights !! i = Some r -> _lightIndex (h r) = Z.of_nat i.

(** Every light outside the container stores [-1]. *)
Definition detached (lights : list LightRef) (h : LightStore) : Prop :=
  forall r : LightRef, r ∉ lights -> _lightIndex (h r) = -1.

Definition consistent (s : State) : Prop :=
  (indexed (_spotLights (manager s)) (spotLight s) /\
   detached (_spotLights (manager s)) (spotLight s)) /\
  (indexed (_pointLights (manager s)) (pointLight s) /\
   detached (_pointLights (manager s)) (pointLight s)) /\
  (indexed (_directLights (manager s)) (directLight s) /\
   detached (_directLights (manager s)) (directLight s)).

(** The calling discipline of the light components: a light is attached
    only while it is outside its container and detached only while it is
    inside. *)
Definition callable (c : Call) (s : State) : Prop :=
  match c with
  | AttachSpot l => l ∉ _spotLights (manager s)
  | DetachSpot l => l ∈ _spotLights (manager s)
  | AttachPoint l => l ∉ _pointLights (manager s)
  | DetachPoint l => l ∈ _pointLights (manager s)
  | AttachDirect l => l ∉ _directLights (manager s)
  | DetachDirect l => l ∈ _directLights (manager s)
  end.

Fixpoint disciplined (cs : list Call) (s : State) : Prop :=
  match cs with
  | [] => True
  | c :: cs => callable c s /\ disciplined cs (call c s)
  end.

(** The product compared by [_getSunLightIndex]. *)
Definition brightness (l : Light) : JS.number :=
  JS.mul (intensity l) (color_getBrightness l).

(** The dominance tier that wins: the shadow-casting lights if there is
    one, all directional lights otherwise. *)
Definition anyShadow (h : LightStore) (lights : list LightRef) : bool :=
  existsb (fun r => castsShadow (h r)) lights.

Definition inTier (h : LightStore) (lights : list LightRef) (r : LightRef) : bool :=
  if anyShadow h lights then castsShadow (h r) else true.

(** The state of the loop of [_getSunLightIndex] after the slots [seen],
    for the lights selected by [P]: nothing seen so far competes with a
    value above -Infinity ... *)
Definition noCandidate (h : LightStore) (P : LightRef -> bool)
    (seen : list LightRef) (m : JS.number) : Prop :=
  m = JS.NEGATIVE_INFINITY /\
  forall (j : nat) (r : LightRef),
    seen !! j = Some r -> P r = true ->
    JS.lt JS.NEGATIVE_INFINITY (brightness (h r)) = false.

(** ... or slot [k] holds the earliest competing light of maximal
    value [m]. *)
Definition champion (h : LightStore) (P : LightRef -> bool)
    (seen : list LightRef) (k : Z) (m : JS.number) : Prop :=
  exists (n : nat) (r : LightRef),
    k = Z.of_nat n /\ seen !! n = Some r /\ P r = true /\ m = brightness (h r) /\
    (forall (j : nat) (r' : LightRef),
        seen !! j = Some r' -> P r' = true -> JS.lt m (brightness (h r')) = false) /\
    (forall (j : nat) (r' : LightRef),
        seen !! j = Some r' -> P r' = true -> (j < n)%nat ->
        JS.lt (brightness (h r')) m = true).

(** Two registry states with the same containers and the same light
    objects. *)
Definition sameRegistry (s s' : State) : Prop :=
  manager s' = manager s /\
  (forall r, spotLight s' r = spotLight s r) /\
  (forall r, pointLight s' r = pointLight s r) /\
  (forall r, directLight s' r = directLight s r).

(** A registry without lights, whose light objects are all detached. *)
Definition freshLight : Light :=
  mkLight (-1) ShadowType_None (JS.ofZ 1) (JS.ofZ 1).

Definition fresh : State :=
  mkState (mk [] [] []) (fun _ => freshLight) (fun _ => freshLight)
          (fun _ => freshLight).

(** Two directional lights: a bright one without shadows in slot 0 and
    a dim shadow-casting one in slot 1. *)
Definition twoLights (shadowIntensity : JS.number) : State :=
  mkState (mk [] [] [0; 1]%nat) (fun _ => freshLight) (fun _ => freshLight)
    (fun r =>
       match r with
       | O => mkLight 0 ShadowType_None (JS.ofZ 100) (JS.ofZ 1)
       | S O => mkLight 1 ShadowType_Hard shadowIntensity (JS.ofZ 1)
       | _ => freshLight
       end).

End LightManager.

(** ** JavaScript arrays *)

Module JSArray.

Section Ops.
Context {A : Type}.

Definition length (l : list A) : Z := Z.of_nat (List.length l).

(** [l[i]]: [None] stands for [undefined]. *)
Definition get (i : Z) (l : list A) : option A :=
  if decide (0 <= i) then l !! Z.to_nat i else None.

Definition push (x : A) (l : list A) : list A := l ++ [x].

(** [l.splice(start, deleteCount, ...items)], as ECMAScript defines it:
    a negative [start] counts from the end, and both [start] and
    [deleteCount] are clamped to the array. *)
Definition splice (start deleteCount : Z) (items : list A) (l : list A) : list A :=
  let len := length l in
  let actualStart :=
    if decide (start < 0) then Z.max (len + start) 0 else Z.min start len in
  let actualDeleteCount := Z.min (Z.max deleteCount 0) (len - actualStart) in
  take (Z.to_nat actualStart) l ++ items ++
  drop (Z.to_nat (actualStart + actualDeleteCount)) l.

(** [l.indexOf(x)], with [-1] when [x] is absent. *)
Definition indexOf `{EqDecision A} (x : A) (l : list A) : Z :=
  match list_find (fun y => y = x) l with
  | Some (i, _) => Z.of_nat i
  | None => -1
  end.
End Ops.

End JSArray.

(** ** Numbers used as positions *)

Module Index.

(** A number that the code uses as a position in an array.  Positions
    are integers far below [2^53], where the arithmetic of binary64 is
    the arithmetic of integers: a number that is an integer is [int z]
    and is computed with in [Z].  Any other number that a caller may
    pass (a fraction, [NaN], an infinity) is [float x], the binary64
    value itself, and is computed with in binary64. *)
Inductive t : Type :=
| int (z : Z)
| float (x : JS.number).

(** The magnitude [m * 2^e], cut to an integer, and its sign. *)
Definition truncated (m : positive) (e : Z) : Z :=
  if decide (0 <= e) then Z.pos m * 2 ^ e else Z.pos m / 2 ^ (- e).

Definition signed (negative : bool) (z : Z) : Z := if negative then - z else z.

(** The integer that a binary64 value is, when it is one. *)
Definition integer (x : JS.number) : option Z :=
  match x with
  | S754_zero _ => Some 0
  | S754_finite negative m e =>
      if decide (0 <= e \/ Z.pos m mod 2 ^ (- e) = 0)
      then Some (signed negative (truncated m e))
      else None
  | S754_infinity _ | S754_nan => None
  end.

Definition ofNumber (x : JS.number) : t :=
  match integer x with Some z => int z | None => float x end.

Definition toNumber (a : t) : JS.number :=
  match a with int z => JS.ofZ z | float x => x end.

Definition toInteger (a : t) : option Z :=
  match a with int z => Some z | float x => integer x end.

(** [a < b] *)
Definition lt (a b : t) : bool :=
  match toInteger a, toInteger b with
  | Some a, Some b => bool_decide (a < b)
  | _, _ => JS.lt (toNumber a) (toNumber b)
  end.

(** [a + d], for [a++], [a--] and [a + 1]. *)
Definition add (a : t) (d : Z) : t :=
  match toInteger a with
  | Some z => int (z + d)
  | None => ofNumber (JS.add (toNumber a) (JS.ofZ d))
  end.

(** [ToIntegerOrInfinity(a)], which [splice] applies to its [start]. *)
Inductive IntegerOrInfinity : Type :=
| finite (z : Z)
| infinity (negative : bool).

Definition toIntegerOrInfinity (a : t) : IntegerOrInfinity :=
  match a with
  | int z => finite z
  | float (S754_finite negative m e) => finite (signed negative (truncated m e))
  | float (S754_infinity negative) => infinity negative
  | float (S754_zero _) | float S754_nan => finite 0
  end.

Section Arrays.
Context {A : Type}.

(** [l[a]]: only a number that is an integer from 0 on names a slot. *)
Definition get (a : t) (l : list A) : option A :=
  match toInteger a with
  | Some z => JSArray.get z l
  | None => None
  end.

(** [l.splice(start, deleteCount, ...items)] *)
Definition splice (start : t) (deleteCount : Z) (items : list A) (l : list A)
  : list A :=
  match toIntegerOrInfinity start with
  | finite z => JSArray.splice z deleteCount items l
  | infinity true => JSArray.splice 0 deleteCount items l
  | infinity false => JSArray.splice (JSArray.length l) deleteCount items l
  end.
End Arrays.

End Index.

(** [s.split(sep)] for a one-character separator. *)
Fixpoint String_split (sep : ascii) (s : string) : list string :=
  match s with
  | EmptyString => [EmptyString]
  | String c s' =>
      if decide (c = sep) then EmptyString :: String_split sep s'
      else
        match String_split sep s' with
        | [] => [String c EmptyString]
        | x :: xs => String c x :: xs
        end
  end.

(** [Boolean(s)] for a string: the empty string is falsy. *)
Definition String_truthy (s : string) : bool :=
  match s with EmptyString => false | _ => true end.

(** ** Entities *)

Definition EntityRef : Type := nat.
Definition SceneRef : Type := nat.

Module Entity.

(** The fields of an entity object that the scene reads or writes,
    together with the parent and children links of the hierarchy.  A
    [name] may be [undefined] ([None]): [createRootEntity(name?)] hands
    its optional argument on. *)
Record t : Type := mk {
  name : option string;
  _isRoot : bool;
  _scene : option SceneRef;
  _siblingIndex : Index.t;
  _parent : option EntityRef;
  _children : list EntityRef;
  _isActive : bool;
  _isActiveInHierarchy : bool
}.

Definition set_isRoot (b : bool) (e : t) : t :=
  mk (name e) b (_scene e) (_siblingIndex e) (_parent e) (_children e)
     (_isActive e) (_isActiveInHierarchy e).

Definition set_scene (s : option SceneRef) (e : t) : t :=
  mk (name e) (_isRoot e) s (_siblingIndex e) (_parent e) (_children e)
     (_isActive e) (_isActiveInHierarchy e).

Definition set_siblingIndex (i : Index.t) (e : t) : t :=
  mk (name e) (_isRoot e) (_scene e) i (_parent e) (_children e)
     (_isActive e) (_isActiveInHierarchy e).

Definition set_parent (p : option EntityRef) (e : t) : t :=
  mk (name e) (_isRoot e) (_scene e) (_siblingIndex e) p (_children e)
     (_isActive e) (_isActiveInHierarchy e).

Definition set_children (c : list EntityRef) (e : t) : t :=
  mk (name e) (_isRoot e) (_scene e) (_siblingIndex e) (_parent e) c
     (_isActive e) (_isActiveInHierarchy e).

Definition set_isActiveInHierarchy (b : bool) (e : t) : t :=
  mk (name e) (_isRoot e) (_scene e) (_siblingIndex e) (_parent e) (_children e)
     (_isActive e) b.

End Entity.

(** The entity objects. *)
Definition EntityStore : Type := EntityRef -> Entity.t.

Definition update (r : EntityRef) (f : Entity.t -> Entity.t) (h : EntityStore)
  : EntityStore :=
  fun x => if decide (x = r) then f (h x) else h x.

(** Modelled from the spec: [Entity.ts] is not among the sources; the
    entity is an "external collaborator, interface only".  These are the
    methods of [Entity] that [Scene.ts] calls, and the scene is verified
    over every implementation of them that behaves as follows on the
    fields the scene depends on.
    - [_removeFromParent] detaches the entity "from any existing parent":
      afterwards it has no parent; entities without a parent are not
      touched; an entity that loses its parent ends with sibling index
      [-1]; no root flag, owning scene or name changes.
    - [_traverseSetOwnerScene] "recursively reassigns the owning-scene
      reference for the entity and all its descendants", hence of no other
      entity without a parent, and changes nothing else.
    - [_processActive] and [_processInActive] only change activity state.
    - [_findChildByName] looks a child up by name. *)
Class EntityMethods : Type := {
  _removeFromParent : EntityRef -> EntityStore -> EntityStore;
  _traverseSetOwnerScene : EntityRef -> option SceneRef -> EntityStore -> EntityStore;
  _processActive : EntityRef -> EntityStore -> EntityStore;
  _processInActive : EntityRef -> EntityStore -> EntityStore;
  _findChildByName : EntityStore -> EntityRef -> string -> option EntityRef;

  removeFromParent_keeps : forall e h x,
    Entity.name (_removeFromParent e h x) = Entity.name (h x) /\
    Entity._isRoot (_removeFromParent e h x) = Entity._isRoot (h x) /\
    Entity._scene (_removeFromParent e h x) = Entity._scene (h x);
  removeFromParent_frame : forall e h x,
    Entity._parent (h x) = None ->
    Entity._parent (_removeFromParent e h x) = None /\
    Entity._siblingIndex (_removeFromParent e h x) = Entity._siblingIndex (h x);
  removeFromParent_detaches : forall e h,
    Entity._parent (_removeFromParent e h e) = None;
  removeFromParent_index : forall e h x,
    Entity._parent (h x) <> None ->
    Entity._parent (_removeFromParent e h x) = None ->
    Entity._siblingIndex (_removeFromParent e h x) = Index.int (-1);

  traverseSetOwnerScene_keeps : forall e s h x,
    Entity.name (_traverseSetOwnerScene e s h x) = Entity.name (h x) /\
    Entity._isRoot (_traverseSetOwnerScene e s h x) = Entity._isRoot (h x) /\
    Entity._siblingIndex (_traverseSetOwnerScene e s h x) = Entity._siblingIndex (h x) /\
    Entity._parent (_traverseSetOwnerScene e s h x) = Entity._parent (h x);
  traverseSetOwnerScene_sets : forall e s h,
    Entity._scene (_traverseSetOwnerScene e s h e) = s;
  traverseSetOwnerScene_frame : forall e s h x,
    x <> e -> Entity._parent (h x) = None ->
    Entity._scene (_traverseSetOwnerScene e s h x) = Entity._scene (h x);

  processActive_keeps : forall e h x,
    Entity.name (_processActive e h x) = Entity.name (h x) /\
    Entity._isRoot (_processActive e h x) = Entity._isRoot (h x) /\
    Entity._scene (_processActive e h x) = Entity._scene (h x) /\
    Entity._siblingIndex (_processActive e h x) = Entity._siblingIndex (h x) /\
    Entity._parent (_processActive e h x) = Entity._parent (h x);
  processInActive_keeps : forall e h x,
    Entity.name (_processInActive e h x) = Entity.name (h x) /\
    Entity._isRoot (_processInActive e h x) = Entity._isRoot (h x) /\
    Entity._scene (_processInActive e h x) = Entity._scene (h x) /\
    Entity._siblingIndex (_processInActive e h x) = Entity._siblingIndex (h x) /\
    Entity._parent (_processInActive e h x) = Entity._parent (h x)
}.

(** ** Scenes ([Scene.ts]) *)

Module Scene.

Record t : Type := mk {
  _rootEntities : list EntityRef;
  _isActiveInEngine : bool;
  castShadows : bool;
  _sunLight : option LightRef;
  shaderData : ShaderData.t;
  _globalShaderMacro : ShaderData.t
}.

Definition set_rootEntities (l : list EntityRef) (s : t) : t :=
  mk l (_isActiveInEngine s) (castShadows s) (_sunLight s) (shaderData s)
     (_globalShaderMacro s).

(** What a call can throw. *)
Inductive Error : Type :=
| OutOfBounds (index : Index.t) (rootEntityCount : Z)
    (* `The index ${index} is out of child list bounds ${rootEntityCount}` *)
| TypeError.
    (* a property of [undefined] was read *)

Inductive Completion (A : Type) : Type :=
| Return (a : A)
| Throw (e : Error).
Arguments Return {A} a.
Arguments Throw {A} e.

(** The entity objects and the scene objects. *)
Record World : Type := mkWorld {
  entities : EntityStore;
  scenes : SceneRef -> t
}.

(** Computations on the world that may throw; what was written before a
    [throw] stays written. *)
Definition M (A : Type) : Type := World -> World * Completion A.

Definition ret {A : Type} (a : A) : M A := fun w => (w, Return a).

Definition bind {A B : Type} (m : M A) (k : A -> M B) : M B :=
  fun w =>
    match m w with
    | (w', Return a) => k a w'
    | (w', Throw e) => (w', Throw e)
    end.

Definition throw {A : Type} (e : Error) : M A := fun w => (w, Throw e).

Definition gets {A : Type} (f : World -> A) : M A := fun w => (w, Return (f w)).

Definition modify (f : World -> World) : M unit := fun w => (f w, Return tt).

Declare Scope scene_scope.
Delimit Scope scene_scope with scene.
Notation "'let*' x ':=' m 'in' k" := (bind m (fun x => k))
  (at level 10, x name, m at level 100, k at level 200) : scene_scope.
Notation "m ';;' k" := (bind m (fun _ => k))
  (at level 100, k at level 200, right associativity) : scene_scope.

Definition when (b : bool) (m : M unit) : M unit := if b then m else ret tt.

(** [for (; i < n; i++) body(i)].  The loops of this file run over the
    slots of an array and throw as soon as [i] is no slot of it, so that
    they end within as many rounds as the array has slots: [fuel], one
    more than that, is never used up. *)
Fixpoint for_loop (fuel : nat) (i : Index.t) (n : Z) (body : Index.t -> M unit)
  : M unit :=
  match fuel with
  | O => ret tt
  | S fuel =>
      if Index.lt i (Index.int n)
      then bind (body i) (fun _ => for_loop fuel (Index.add i 1) n body)
      else ret tt
  end.

Definition entity (r : EntityRef) (w : World) : Entity.t := entities w r.

Definition rootEntities (this : SceneRef) (w : World) : list EntityRef :=
  _rootEntities (scenes w this).

Definition modify_entity (r : EntityRef) (f : Entity.t -> Entity.t) : M unit :=
  modify (fun w => mkWorld (update r f (entities w)) (scenes w)).

Definition modify_entities (f : EntityStore -> EntityStore) : M unit :=
  modify (fun w => mkWorld (f (entities w)) (scenes w)).

Definition modify_rootEntities (this : SceneRef)
    (f : list EntityRef -> list EntityRef) : M unit :=
  modify (fun w =>
    let updated := set_rootEntities (f (_rootEntities (scenes w this))) (scenes w this) in
    mkWorld (entities w)
      (fun s => if decide (s = this) then updated else scenes w s)).

(** [e._siblingIndex++] and [e._siblingIndex--] *)
Definition shift (d : Z) (e : Entity.t) : Entity.t :=
  Entity.set_siblingIndex (Index.add (Entity._siblingIndex e) d) e.

(** [rootEntities[i]._siblingIndex += d]; reading a property of
    [rootEntities[i]] throws when the slot is [undefined]. *)
Definition shiftSiblingIndex (rootEntities : list EntityRef) (d : Z) (i : Index.t)
  : M unit :=
  match Index.get i rootEntities with
  | Some r => modify_entity r (shift d)
  | None => throw TypeError
  end.

Local Open Scope scene_scope.

Section Methods.
Context `{EntityMethods}.

Definition _removeFromEntityList (this : SceneRef) (entity_ : EntityRef) : M unit :=
  let* index := gets (fun w => Entity._siblingIndex (entity entity_ w)) in
  modify_rootEntities this (Index.splice index 1 []) ;;
  let* rootEntities_ := gets (rootEntities this) in
  for_loop (S (List.length rootEntities_)) index (JSArray.length rootEntities_)
    (shiftSiblingIndex rootEntities_ (-1)) ;;
  modify_entity entity_ (Entity.set_siblingIndex (Index.int (-1))).

(** [index] is [None] for [undefined], and any number otherwise. *)
Definition _addToRootEntityList (this : SceneRef) (index : option Index.t)
    (rootEntity : EntityRef) : M unit :=
  let* rootEntityCount := gets (fun w => JSArray.length (rootEntities this w)) in
  match index with
  | None =>
      modify_entity rootEntity (Entity.set_siblingIndex (Index.int rootEntityCount)) ;;
      modify_rootEntities this (JSArray.push rootEntity)
  | Some index =>
      if Index.lt index (Index.int 0) || Index.lt (Index.int rootEntityCount) index
      then throw (OutOfBounds index rootEntityCount)
      else
        modify_entity rootEntity (Entity.set_siblingIndex index) ;;
        modify_rootEntities this (Index.splice index 0 [rootEntity]) ;;
        let* rootEntities_ := gets (rootEntities this) in
        for_loop (S (List.length rootEntities_)) (Index.add index 1)
          (rootEntityCount + 1) (shiftSiblingIndex rootEntities_ 1)
  end.

(** [addRootEntity(entity)] is [addRootEntity this None entity], and
    [addRootEntity(index, entity)] is [addRootEntity this (Some index)
    entity]. *)
Definition addRootEntity (this : SceneRef) (index : option Index.t)
    (entity_ : EntityRef) : M unit :=
  let* isRoot := gets (fun w => Entity._isRoot (entity entity_ w)) in
  (* let entity become root *)
  when (negb isRoot)
    (modify_entity entity_ (Entity.set_isRoot true) ;;
     modify_entities (_removeFromParent entity_)) ;;
  (* add or remove from scene's rootEntities *)
  let* oldScene := gets (fun w => Entity._scene (entity entity_ w)) in
  (if decide (oldScene <> Some this) then
     match oldScene with
     | Some old => when isRoot (_removeFromEntityList old entity_)
     | None => ret tt
     end ;;
     _addToRootEntityList this index entity_ ;;
     modify_entities (_traverseSetOwnerScene entity_ (Some this))
   else
     when (negb isRoot) (_addToRootEntityList this index entity_)) ;;
  (* process entity active/inActive *)
  let* isActiveInEngine := gets (fun w => _isActiveInEngine (scenes w this)) in
  let* e := gets (entity entity_) in
  if isActiveInEngine then
    when (negb (Entity._isActiveInHierarchy e) && Entity._isActive e)
      (modify_entities (_processActive entity_))
  else
    when (Entity._isActiveInHierarchy e)
      (modify_entities (_processInActive entity_)).

Definition removeRootEntity (this : SceneRef) (entity_ : EntityRef) : M unit :=
  let* e := gets (entity entity_) in
  when (Entity._isRoot e && bool_decide (Entity._scene e = Some this))
    (_removeFromEntityList this entity_ ;;
     modify_entity entity_ (Entity.set_isRoot false) ;;
     let* isActiveInEngine := gets (fun w => _isActiveInEngine (scenes w this)) in
     let* e := gets (entity entity_) in
     when (isActiveInEngine && Entity._isActiveInHierarchy e)
       (modify_entities (_processInActive entity_)) ;;
     modify_entities (_traverseSetOwnerScene entity_ None)).

(** [getRootEntity(index)] *)
Definition getRootEntity (this : SceneRef) (index : Index.t) (w : World)
  : option EntityRef :=
  Index.get index (rootEntities this w).

(** The inner loop of [findEntityByPath], over [splits[j]], [j >= 1]. *)
Fixpoint findEntityByPath_walk (h : EntityStore) (findEntity : EntityRef)
    (splits : list string) : option EntityRef :=
  match splits with
  | [] => Some findEntity
  | split :: splits =>
      match _findChildByName h findEntity split with
      | Some child => findEntityByPath_walk h child splits
      | None => None
      end
  end.

(** The outer loop of [findEntityByPath], over the root entities not
    visited yet.  [splits[0]] is [undefined] when there is no segment;
    [!=] is the loose inequality, under which an [undefined] name
    equals [undefined] and no string does. *)
Fixpoint findEntityByPath_roots (h : EntityStore) (roots : list EntityRef)
    (splits : list string) : option EntityRef :=
  match roots with
  | [] => None
  | findEntity :: roots =>
      if decide (Entity.name (h findEntity) <> splits !! 0%nat)
      then findEntityByPath_roots h roots splits
      else findEntityByPath_walk h findEntity (drop 1 splits)
  end.

Definition findEntityByPath (this : SceneRef) (path : string) (w : World)
  : option EntityRef :=
  let splits := List.filter String_truthy (String_split "/"%char path) in
  findEntityByPath_roots (entities w) (rootEntities this w) splits.

(** [findEntityByPath] as section 4.1 of the specification words it.
    The path is split on [/]: its pieces hold no [/] and, joined by
    [/], they give the path back.  The empty pieces are discarded.
    The first segment is matched against the names of the root
    entities in forward index order; each remaining segment is
    resolved as the name of a child; the result is none as soon as a
    segment fails to resolve. *)
Definition split_on (separator : ascii) (path : string) (pieces : list string)
  : Prop :=
  pieces <> [] /\
  (forall piece, piece ∈ pieces -> separator ∉ String.list_ascii_of_string piece) /\
  String.concat (String separator EmptyString) pieces = path.

Definition discard_empty (pieces : list string) : list string :=
  List.filter (fun piece => bool_decide (piece <> EmptyString)) pieces.

Definition findEntityByPath_spec (this : SceneRef) (segments : list string)
    (w : World) : option EntityRef :=
  match segments with
  | [] => None
  | first :: remaining =>
      match list_find (fun r => Entity.name (entity r w) = Some first)
                      (rootEntities this w) with
      | None => None
      | Some (_, root) =>
          foldl (fun found segment =>
                   match found with
                   | Some parent => _findChildByName (entities w) parent segment
                   | None => None
                   end)
                (Some root) remaining
      end
  end.

(** The first step of [addRootEntity]: the entity becomes a root. *)
Definition promoted (e : EntityRef) (w : World) : World :=
  if Entity._isRoot (entity e w) then w
  else mkWorld (_removeFromParent e (update e (Entity.set_isRoot true) (entities w)))
               (scenes w).

(** One call of the public root-entity interface, and a sequence of
    calls; a caller may catch what a call throws and go on. *)
Inductive Call : Type :=
| AddRootEntity (this : SceneRef) (index : option Index.t) (entity_ : EntityRef)
| RemoveRootEntity (this : SceneRef) (entity_ : EntityRef).

Definition call (c : Call) : M unit :=
  match c with
  | AddRootEntity this index e => addRootEntity this index e
  | RemoveRootEntity this e => removeRootEntity this e
  end.

Fixpoint calls (cs : list Call) (w : World) : World :=
  match cs with
  | [] => w
  | c :: cs => calls cs (call c w).1
  end.

(** A call whose index, if it has one, is an integer. *)
Definition integral (c : Call) : Prop :=
  match c with
  | AddRootEntity _ (Some (Index.float _)) _ => False
  | _ => True
  end.

End Methods.

(** [_updateShaderData()], for the scene object [this]; [lights] is the
    light manager of the engine with its light objects, and
    [engineMacros] is [engine._macroCollection]. *)
Definition _updateShaderData (lights : LightManager.State)
    (engineMacros : ShaderData.t) (this : t) : t :=
  let shaderData_ := LightManager._updateShaderData lights (shaderData this) in
  let sunLightIndex := LightManager._getSunLightIndex lights in
  let sunLight :=
    if decide (sunLightIndex <> -1)
    then DisorderedArray.get sunLightIndex
           (LightManager._directLights (LightManager.manager lights))
    else _sunLight this in
  let shadowType_ :=
    (fun r => shadowType (LightManager.directLight lights r)) <$> sunLight in
  let shaderData_ :=
    match shadowType_ with
    | Some type =>
        if castShadows this && bool_decide (type <> ShadowType_None) then
          ShaderData.enableMacro "SHADOW_MODE" (Some (ShadowType_toString type))
            (ShaderData.enableMacro "CASCADED_SHADOW_MAP" None shaderData_)
        else ShaderData.disableMacro "CASCADED_SHADOW_MAP" shaderData_
    | None => ShaderData.disableMacro "CASCADED_SHADOW_MAP" shaderData_
    end in
  (* union scene and camera macro. *)
  mk (_rootEntities this) (_isActiveInEngine this) (castShadows this) sunLight
     shaderData_ (ShaderData.unionCollection engineMacros shaderData_).

(** What the properties below speak about. *)

(** [post m w Q]: running [m] from [w] ends in a world and a completion
    that satisfy [Q]. *)
Definition post {A : Type} (m : M A) (w : World)
    (Q : World -> Completion A -> Prop) : Prop :=
  Q (m w).1 (m w).2.

(** The scene objects after the root list of [this] has become [l]. *)
Definition with_rootEntities (this : SceneRef) (l : list EntityRef) (w : World)
  : SceneRef -> t :=
  fun s => if decide (s = this)
           then set_rootEntities l (scenes w this)
           else scenes w s.

(** The world after [e] has been put in slot [k] of the root list of
    [this]. *)
Definition inserted (this : SceneRef) (k : nat) (e : EntityRef) (w : World)
  : World :=
  let l := rootEntities this w in
  mkWorld
    (fold_left (fun h r => update r (shift 1) h) (drop k l)
       (update e (Entity.set_siblingIndex (Index.int (Z.of_nat k))) (entities w)))
    (with_rootEntities this (take k l ++ e :: drop k l) w).

(** The entity [x] has the same name, root flag, owning scene and parent
    in [w] and in [w']. *)
Definition same_fields (w w' : World) (x : EntityRef) : Prop :=
  Entity.name (entity x w') = Entity.name (entity x w) /\
  Entity._isRoot (entity x w') = Entity._isRoot (entity x w) /\
  Entity._scene (entity x w') = Entity._scene (entity x w) /\
  Entity._parent (entity x w') = Entity._parent (entity x w).


(** Every entity of a root list stores its position, is flagged as a
    root and has no parent. *)
Definition indexed_roots (w : World) : Prop :=
  forall (sc : SceneRef) (i : nat) (e : EntityRef),
    rootEntities sc w !! i = Some e ->
    Entity._siblingIndex (entity e w) = Index.int (Z.of_nat i) /\
    Entity._isRoot (entity e w) = true /\
    Entity._parent (entity e w) = None.

(** Every entity of a root list belongs to the scene of that list. *)
Definition owned_roots (w : World) : Prop :=
  forall (sc : SceneRef) (i : nat) (e : EntityRef),
    rootEntities sc w !! i = Some e -> Entity._scene (entity e w) = Some sc.

(** A root has no parent, and an entity without a parent has a sibling
    index that is a position or [-1]. *)
Definition links_ok (w : World) : Prop :=
  (forall e, Entity._isRoot (entity e w) = true -> Entity._parent (entity e w) = None) /\
  (forall e, Entity._parent (entity e w) = None ->
             exists z, Entity._siblingIndex (entity e w) = Index.int z /\ -1 <= z).

Definition well_formed (w : World) : Prop :=
  indexed_roots w /\ owned_roots w /\ links_ok w.

End Scene.

(** ** A simple implementation of the entity methods *)

Module SimpleEntity.

(** Modelled from the spec: [Entity.ts] is not among the sources.
    [addRootEntity] promotes an entity "detaching [it] from any existing
    parent first", "recursively reassigns the owning-scene reference for
    the entity and all its descendants", and activation "propagates
    activate/deactivate recursively"; [findEntityByPath] "walks children
    by name".  Hierarchies are explored down to a fixed depth, along the
    children whose parent link points back. *)

Definition _removeFromParent (e : EntityRef) (h : EntityStore) : EntityStore :=
  match Entity._parent (h e) with
  | None => h
  | Some p =>
      update e
        (fun x => Entity.set_siblingIndex (Index.int (-1)) (Entity.set_parent None x))
        (update p
           (fun x =>
              Entity.set_children
                (List.filter (fun c => bool_decide (c <> e)) (Entity._children x)) x)
           h)
  end.

(** Apply [f] to [e] and, recursively, to its children that satisfy
    [follow]. *)
Fixpoint traverse (depth : nat) (f : Entity.t -> Entity.t)
    (follow : Entity.t -> bool) (e : EntityRef) (h : EntityStore) : EntityStore :=
  let h := update e f h in
  match depth with
  | O => h
  | S depth =>
      fold_left
        (fun h c =>
           if bool_decide (Entity._parent (h c) = Some e) && follow (h c)
           then traverse depth f follow c h
           else h)
        (Entity._children (h e)) h
  end.

Definition _traverseSetOwnerScene (depth : nat) (e : EntityRef)
    (s : option SceneRef) : EntityStore -> EntityStore :=
  traverse depth (Entity.set_scene s) (fun _ => true) e.

Definition _processActive (depth : nat) (e : EntityRef)
  : EntityStore -> EntityStore :=
  traverse depth (Entity.set_isActiveInHierarchy true) Entity._isActive e.

Definition _processInActive (depth : nat) (e : EntityRef)
  : EntityStore -> EntityStore :=
  traverse depth (Entity.set_isActiveInHierarchy false)
           Entity._isActiveInHierarchy e.

Definition _findChildByName (h : EntityStore) (root : EntityRef) (name : string)
  : option EntityRef :=
  snd <$> list_find (fun c => Entity.name (h c) = Some name)
            (Entity._children (h root)).

End SimpleEntity.

(** A world for examples: the hierarchy [A] / [B] / [C] (entities 0, 1
    and 2), not yet in any scene, a few loose entities, and scenes without
    root entities. *)
Module Sample.

Definition loose (name : option string) : Entity.t :=
  Entity.mk name false None (Index.int (-1)) None [] true false.

Definition entities : EntityStore :=
  fun r =>
    match r with
    | 0%nat => Entity.mk (Some "A") false None (Index.int (-1)) None [1%nat] true false
    | 1%nat => Entity.mk (Some "B") false None (Index.int 0) (Some 0%nat) [2%nat] true false
    | 2%nat => Entity.mk (Some "C") false None (Index.int 0) (Some 1%nat) [] true false
    | 3%nat => loose (Some "D")
    | 4%nat => loose (Some "E")
    | _ => loose None
    end.

Definition world : Scene.World :=
  Scene.mkWorld entities (fun _ => Scene.mk [] false true None ∅ ∅).

(** A scene whose cached sun light is the directional light 1, and a
    light manager that no longer holds any directional light. *)
Definition scene : Scene.t := Scene.mk [] false true (Some 1%nat) ∅ ∅.

Definition noDirectLights : LightManager.State :=
  LightManager.mkState (LightManager.mk [] [] [])
    (fun _ => LightManager.freshLight) (fun _ => LightManager.freshLight)
    (LightManager.directLight (LightManager.twoLights (JS.ofZ 1))).

End Sample.

(** ** Vectors *)

Module Vector3.

(** Modelled from the spec: the math library is an external collaborator
    providing "vectors, distance/dot-product operations"; these are the
    usual formulas, evaluated in binary64 from left to right. *)
Record t : Type := mk { x : JS.number; y : JS.number; z : JS.number }.

Definition add (left right : t) : t :=
  mk (JS.add (x left) (x right)) (JS.add (y left) (y right))
     (JS.add (z left) (z right)).

Definition subtract (left right : t) : t :=
  mk (JS.sub (x left) (x right)) (JS.sub (y left) (y right))
     (JS.sub (z left) (z right)).

Definition scale (a : t) (s : JS.number) : t :=
  mk (JS.mul (x a) s) (JS.mul (y a) s) (JS.mul (z a) s).

Definition dot (left right : t) : JS.number :=
  JS.add (JS.add (JS.mul (x left) (x right)) (JS.mul (y left) (y right)))
         (JS.mul (z left) (z right)).

Definition distanceSquared (a b : t) : JS.number :=
  let dx := JS.sub (x b) (x a) in
  let dy := JS.sub (y b) (y a) in
  let dz := JS.sub (z b) (z a) in
  JS.add (JS.add (JS.mul dx dx) (JS.mul dy dy)) (JS.mul dz dz).

Definition ofZ (a b c : Z) : t := mk (JS.ofZ a) (JS.ofZ b) (JS.ofZ c).

End Vector3.

Module BoundingBox.

Record t : Type := mk { min : Vector3.t; max : Vector3.t }.

(** Modelled from the spec: the "bounds center", the midpoint of the two
    corners. *)
Definition getCenter (b : t) : Vector3.t :=
  Vector3.scale (Vector3.add (min b) (max b)) (JS.div (JS.ofZ 1) (JS.ofZ 2)).

End BoundingBox.

(** ** Render passes, cameras and the basic render pipeline *)

Definition PassRef : Type := nat.
Definition RenderTargetRef : Type := nat.
Definition MaterialRef : Type := nat.
Definition TextureRef : Type := nat.

Record Color : Type := mkColor {
  color_r : JS.number; color_g : JS.number; color_b : JS.number; color_a : JS.number
}.

(** Modelled from the spec: the enumeration [CameraClearFlags] is declared
    outside the sources; clear flags are bit masks, [None] being the empty
    mask and [Color] one bit of it. *)
Definition CameraClearFlags_None : Z := 0.
Definition CameraClearFlags_Color : Z := 1.

(** Modelled from the spec: the background is a solid color, a sky or a
    fullscreen texture. *)
Inductive BackgroundMode : Type :=
| BackgroundMode_SolidColor
| BackgroundMode_Sky
| BackgroundMode_Texture.

Record Background : Type := mkBackground {
  mode : BackgroundMode;
  solidColor : Color;
  texture : option TextureRef
}.

Module RenderPass.

(** Modelled from the spec: [RenderPass.ts] is not among the sources.  A
    pass has a "name (non-unique), integer priority (...), optional
    render target, optional replacement material, optional layer mask,
    enabled flag, optional override-render callback", and the optional
    clear flags and clear color that the pipeline reads. *)
Record t : Type := mk {
  name : string;
  priority : Z;
  renderTarget : option RenderTargetRef;
  replaceMaterial : option MaterialRef;
  mask : option Z;
  enabled : bool;
  clearFlags : option Z;
  clearColor : option Color;
  renderOverride : bool
}.

End RenderPass.

Module Camera.

(** The properties of the camera, of its entity's transform and of its
    scene that the pipeline reads.  The frustum is represented by its
    box-intersection test. *)
Record t : Type := mk {
  renderTarget : option RenderTargetRef;
  viewport : Z * Z * Z * Z;
  clearFlags : Z;
  cullingMask : Z;
  enableFrustumCulling : bool;
  _frustum_intersectsBox : BoundingBox.t -> bool;
  isOrthographic : bool;
  entity_transform_worldPosition : Vector3.t;
  entity_transform_getWorldForward : Vector3.t;
  scene_background : Background
}.

End Camera.

Module Renderer.

Record t : Type := mk {
  _entity_layer : Z;
  bounds : BoundingBox.t;
  isCulled : bool;
  _distanceForSort : JS.number
}.

End Renderer.

Module BasicRenderPipeline.

(** The three render queues of the pipeline. *)
Inductive Queue : Type := _opaqueQueue | _alphaTestQueue | _transparentQueue.

(** What the pipeline asks of its collaborators, in the order of the
    calls: the hooks of a pass, the hardware renderer, the render target,
    the queues, the background and the renderers. *)
Inductive Event : Type :=
| preRender (pass : PassRef) (camera : Camera.t) (opaque alphaTest transparent : Queue)
| postRender (pass : PassRef) (camera : Camera.t) (opaque alphaTest transparent : Queue)
| render (pass : PassRef) (camera : Camera.t) (opaque alphaTest transparent : Queue)
| activeRenderTarget (renderTarget : option RenderTargetRef)
    (viewport : Z * Z * Z * Z) (mipLevel : option Z)
| _setRenderTargetInfo (renderTarget : RenderTargetRef)
    (cubeFace : option Z) (mipLevel : option Z)
| clearRenderTarget (clearFlags : Z) (color : Color)
| queue_render (queue : Queue) (camera : Camera.t)
    (replaceMaterial : option MaterialRef) (mask : option Z)
| sky_render
| _drawBackgroundTexture
| _blitRenderTarget (renderTarget : RenderTargetRef)
| generateMipmaps (renderTarget : RenderTargetRef)
| renderer_updateShaderData (index : nat)
| renderer_render (index : nat)
| renderer_unionMacros (index : nat).

(** The pass objects. *)
Definition PassStore : Type := PassRef -> RenderPass.t.

Record t : Type := mk {
  _defaultPass : PassRef;
  _renderPassArray : list PassRef
}.

(** The loop of [getRenderPass], over the passes not visited yet. *)
Fixpoint getRenderPass_loop (passes : PassStore) (name : string)
    (array : list PassRef) : option PassRef :=
  match array with
  | [] => None
  | pass :: array =>
      if decide (RenderPass.name (passes pass) = name) then Some pass
      else getRenderPass_loop passes name array
  end.

Definition getRenderPass (passes : PassStore) (name : string) (this : t)
  : option PassRef :=
  getRenderPass_loop passes name (_renderPassArray this).

(** [removeRenderPass(nameOrPass)]: a name ([inl]) or a pass object
    ([inr]). *)
Definition removeRenderPass (passes : PassStore) (nameOrPass : string + PassRef)
    (this : t) : t :=
  let pass :=
    match nameOrPass with
    | inl name => getRenderPass passes name this
    | inr pass => Some pass
    end in
  match pass with
  | Some pass =>
      let idx := JSArray.indexOf pass (_renderPassArray this) in
      mk (_defaultPass this) (JSArray.splice idx 1 [] (_renderPassArray this))
  | None => this
  end.

(** [a || b] on two object references that may be absent. *)
Definition or_else {A : Type} (a b : option A) : option A :=
  match a with Some _ => a | None => b end.

(** [a ?? b] *)
Definition nullish {A : Type} (a : option A) (b : A) : A :=
  match a with Some a => a | None => b end.

(** [target?.method()] *)
Definition optionally {A : Type} (target : option A) (f : A -> Event) : list Event :=
  match target with Some t => [f t] | None => [] end.

Definition _drawRenderPass (passes : PassStore) (pass : PassRef) (camera : Camera.t)
    (cubeFace mipLevel : option Z) : list Event :=
  let p := passes pass in
  [preRender pass camera _opaqueQueue _alphaTestQueue _transparentQueue] ++
  (if RenderPass.enabled p then
     let background := Camera.scene_background camera in
     let renderTarget := or_else (Camera.renderTarget camera) (RenderPass.renderTarget p) in
     let clearFlags := nullish (RenderPass.clearFlags p) (Camera.clearFlags camera) in
     let color := nullish (RenderPass.clearColor p) (solidColor background) in
     [activeRenderTarget renderTarget (Camera.viewport camera) mipLevel] ++
     optionally renderTarget (fun t => _setRenderTargetInfo t cubeFace mipLevel) ++
     (if decide (clearFlags <> CameraClearFlags_None)
      then [clearRenderTarget clearFlags color] else []) ++
     (if RenderPass.renderOverride p then
        [render pass camera _opaqueQueue _alphaTestQueue _transparentQueue]
      else
        [queue_render _opaqueQueue camera (RenderPass.replaceMaterial p) (RenderPass.mask p);
         queue_render _alphaTestQueue camera (RenderPass.replaceMaterial p) (RenderPass.mask p)] ++
        (if decide (Z.land (Camera.clearFlags camera) CameraClearFlags_Color <> 0) then
           match mode background with
           | BackgroundMode_Sky => [sky_render]
           | BackgroundMode_Texture =>
               match texture background with
               | Some _ => [_drawBackgroundTexture]
               | None => []
               end
           | BackgroundMode_SolidColor => []
           end
         else []) ++
        [queue_render _transparentQueue camera (RenderPass.replaceMaterial p) (RenderPass.mask p)]) ++
     optionally renderTarget _blitRenderTarget ++
     optionally renderTarget generateMipmaps
   else []) ++
  [postRender pass camera _opaqueQueue _alphaTestQueue _transparentQueue].

(** The body of the loop of [_callRender] for the renderer in slot
    [index]. *)
Definition _callRender_visit (camera : Camera.t) (index : nat) (renderer : Renderer.t)
  : Renderer.t * list Event :=
  (* filter by camera culling mask. *)
  if decide (Z.land (Camera.cullingMask camera) (Renderer._entity_layer renderer) = 0)
  then (renderer, [])
  else
    (* filter by camera frustum. *)
    let isCulled :=
      if Camera.enableFrustumCulling camera
      then negb (Camera._frustum_intersectsBox camera (Renderer.bounds renderer))
      else Renderer.isCulled renderer in
    if Camera.enableFrustumCulling camera && isCulled then
      (Renderer.mk (Renderer._entity_layer renderer) (Renderer.bounds renderer)
                   isCulled (Renderer._distanceForSort renderer), [])
    else
      let position := Camera.entity_transform_worldPosition camera in
      let center := BoundingBox.getCenter (Renderer.bounds renderer) in
      let distanceForSort :=
        if Camera.isOrthographic camera then
          let forward := Camera.entity_transform_getWorldForward camera in
          let center := Vector3.subtract center position in
          Vector3.dot center forward
        else Vector3.distanceSquared center position in
      (Renderer.mk (Renderer._entity_layer renderer) (Renderer.bounds renderer)
                   isCulled distanceForSort,
       [renderer_updateShaderData index; renderer_render index;
        renderer_unionMacros index]).

(** The loop of [_callRender] runs from the last slot down to slot 0;
    [elements] are the slots from [index] on. *)
Fixpoint _callRender_loop (camera : Camera.t) (index : nat) (elements : list Renderer.t)
  : list Renderer.t * list Event :=
  match elements with
  | [] => ([], [])
  | renderer :: elements =>
      let '(elements, before) := _callRender_loop camera (S index) elements in
      let '(renderer, events) := _callRender_visit camera index renderer in
      (renderer :: elements, before ++ events)
  end.

Definition _callRender (camera : Camera.t) (renderers : list Renderer.t)
  : list Renderer.t * list Event :=
  _callRender_loop camera 0 renderers.

(** What the properties below speak about. *)

Definition isBinding (e : Event) : bool :=
  match e with activeRenderTarget _ _ _ => true | _ => false end.

Definition isClearing (e : Event) : bool :=
  match e with clearRenderTarget _ _ => true | _ => false end.

(** The two sort keys. *)
Definition orthographicKey (camera : Camera.t) (renderer : Renderer.t) : JS.number :=
  Vector3.dot
    (Vector3.subtract (BoundingBox.getCenter (Renderer.bounds renderer))
                      (Camera.entity_transform_worldPosition camera))
    (Camera.entity_transform_getWorldForward camera).

Definition perspectiveKey (camera : Camera.t) (renderer : Renderer.t) : JS.number :=
  Vector3.distanceSquared (BoundingBox.getCenter (Renderer.bounds renderer))
                          (Camera.entity_transform_worldPosition camera).

(** A renderer is kept by the culling-mask and frustum checks. *)
Definition kept (camera : Camera.t) (renderer : Renderer.t) : Prop :=
  Z.land (Camera.cullingMask camera) (Renderer._entity_layer renderer) <> 0 /\
  (Camera.enableFrustumCulling camera = true ->
   Camera._frustum_intersectsBox camera (Renderer.bounds renderer) = true).

End BasicRenderPipeline.

(** Cameras, passes and renderers for examples. *)
Module SamplePipeline.

Definition black : Color := mkColor (JS.ofZ 0) (JS.ofZ 0) (JS.ofZ 0) (JS.ofZ 1).
Definition white : Color := mkColor (JS.ofZ 1) (JS.ofZ 1) (JS.ofZ 1) (JS.ofZ 1).

(** A camera at the origin looking along [z], which renders into the
    render target 1 when [target] is set. *)
Definition camera (target orthographic : bool) : Camera.t :=
  Camera.mk (if target then Some 1%nat else None) (0, 0, 1, 1) 7 1 true
    (fun _ => true) orthographic (Vector3.ofZ 0 0 0) (Vector3.ofZ 0 0 1)
    (mkBackground BackgroundMode_SolidColor black None).

(** Pass 0 is the default pass; pass 1 has its own render target 2, clear
    flags and clear color; pass 2 is disabled; pass 3 is in no pipeline. *)
Definition passes : BasicRenderPipeline.PassStore :=
  fun pass =>
    match pass with
    | 1%nat =>
        RenderPass.mk "offscreen" 10 (Some 2%nat) None None true (Some 1)
                      (Some white) false
    | 2%nat => RenderPass.mk "disabled" 20 None None None false None None false
    | 3%nat => RenderPass.mk "stray" 0 None None None true None None false
    | _ => RenderPass.mk "default" 0 None None (Some 0) true None None false
    end.

Definition pipeline : BasicRenderPipeline.t :=
  BasicRenderPipeline.mk 0%nat [0; 1; 2]%nat.

(** A renderer whose bounds are centred 5 behind the camera. *)
Definition behind : Renderer.t :=
  Renderer.mk 1 (BoundingBox.mk (Vector3.ofZ (-1) (-1) (-6)) (Vector3.ofZ 1 1 (-4)))
              false (JS.ofZ 0).

End SamplePipeline.

(** ** More of [Scene.ts] *)

Definition CameraRef : Type := nat.

Module SceneMore.

(** [rootEntitiesCount] *)
Definition rootEntitiesCount (this : SceneRef) (w : Scene.World) : Z :=
  JSArray.length (Scene.rootEntities this w).

(** The first loop of [findEntityByName], from the last root entity down
    to the first: [children] are the root entities not visited yet, last
    one first. *)
Fixpoint findEntityByName_named (h : EntityStore) (name : string)
    (children : list EntityRef) : option EntityRef :=
  match children with
  | [] => None
  | child :: children =>
      if decide (Entity.name (h child) = Some name) then Some child
      else findEntityByName_named h name children
  end.

(** The second loop of [findEntityByName], in the same order.
    [findByName] is the method [Entity.findByName], which is not among
    the sources. *)
Fixpoint findEntityByName_inside
    (findByName : EntityStore -> EntityRef -> string -> option EntityRef)
    (h : EntityStore) (name : string) (children : list EntityRef)
  : option EntityRef :=
  match children with
  | [] => None
  | child :: children =>
      match findByName h child name with
      | Some entity => Some entity
      | None => findEntityByName_inside findByName h name children
      end
  end.

Definition findEntityByName
    (findByName : EntityStore -> EntityRef -> string -> option EntityRef)
    (this : SceneRef) (name : string) (w : Scene.World) : option EntityRef :=
  let children := rev (Scene.rootEntities this w) in
  match findEntityByName_named (Scene.entities w) name children with
  | Some child => Some child
  | None => findEntityByName_inside findByName (Scene.entities w) name children
  end.

(** [_attachRenderCamera(camera)], on the array [_activeCameras]; the
    second component is what is logged. *)
Definition _attachRenderCamera (camera : CameraRef) (_activeCameras : list CameraRef)
  : list CameraRef * list string :=
  let index := JSArray.indexOf camera _activeCameras in
  if decide (index = -1) then (JSArray.push camera _activeCameras, [])
  else (_activeCameras, ["Camera already attached."]).

(** [_detachRenderCamera(camera)] *)
Definition _detachRenderCamera (camera : CameraRef) (_activeCameras : list CameraRef)
  : list CameraRef :=
  let index := JSArray.indexOf camera _activeCameras in
  if decide (index <> -1) then JSArray.splice index 1 [] _activeCameras
  else _activeCameras.

(** One call on the active cameras of a scene. *)
Inductive CameraCall : Type :=
| AttachRenderCamera (camera : CameraRef)
| DetachRenderCamera (camera : CameraRef).

Definition cameraCall (c : CameraCall) (_activeCameras : list CameraRef)
  : list CameraRef :=
  match c with
  | AttachRenderCamera camera => (_attachRenderCamera camera _activeCameras).1
  | DetachRenderCamera camera => _detachRenderCamera camera _activeCameras
  end.

(** No entity differs between [w] and [w'] in its name, root flag,
    owning scene, parent or sibling index. *)
Definition same_links (w w' : Scene.World) : Prop :=
  forall x, Scene.same_fields w w' x /\
            Entity._siblingIndex (Scene.entity x w')
            = Entity._siblingIndex (Scene.entity x w).

(** The active cameras after a series of calls, first call first. *)
Definition cameraCalls (cs : list CameraCall) (_activeCameras : list CameraRef)
  : list CameraRef :=
  fold_left (fun cameras c => cameraCall c cameras) cs _activeCameras.

(** The setter of [shadowCascades], on the fields [_shadowCascades] and
    [shaderData] of the scene.  Modelled from the spec: the enumeration
    [ShadowCascadesMode] is declared outside the sources; a "cascade
    mode" is a numeric enumeration, and [value.toString()] is the decimal
    numeral of its value. *)
Definition set_shadowCascades (value : Z) (this : Z * ShaderData.t)
  : Z * ShaderData.t :=
  let '(_shadowCascades, shaderData) := this in
  if decide (_shadowCascades <> value) then
    (value, ShaderData.enableMacro "CASCADED_COUNT" (Some (Number_toString value))
              shaderData)
  else this.

(** What the constructor does with the two fields: [_shadowCascades] has
    its initial value and
    [shaderData.enableMacro("CASCADED_COUNT", this.shadowCascades.toString())]. *)
Definition constructed (initial : Z) (shaderData : ShaderData.t) : Z * ShaderData.t :=
  (initial,
   ShaderData.enableMacro "CASCADED_COUNT" (Some (Number_toString initial)) shaderData).

(** The two fields after the constructor and a series of assignments to
    [shadowCascades], first one first. *)
Definition assigned (values : list Z) (this : Z * ShaderData.t) : Z * ShaderData.t :=
  fold_left (fun this value => set_shadowCascades value this) values this.

Definition set_isActiveInEngine (b : bool) (s : Scene.t) : Scene.t :=
  Scene.mk (Scene._rootEntities s) b (Scene.castShadows s) (Scene._sunLight s)
           (Scene.shaderData s) (Scene._globalShaderMacro s).

Section Activation.
Context `{EntityMethods}.

(** The loop of [Scene._processActive], from the last root entity down
    to the first. *)
Fixpoint _processActive_loop (active : bool) (rootEntities : list EntityRef)
    (h : EntityStore) : EntityStore :=
  match rootEntities with
  | [] => h
  | entity :: rootEntities =>
      let h :=
        if Entity._isActive (h entity) then
          if active then _processActive entity h else _processInActive entity h
        else h in
      _processActive_loop active rootEntities h
  end.

(** [Scene._processActive(active)] *)
Definition _processActive (this : SceneRef) (active : bool) (w : Scene.World)
  : Scene.World :=
  let activated := set_isActiveInEngine active (Scene.scenes w this) in
  Scene.mkWorld
    (_processActive_loop active (rev (Scene.rootEntities this w)) (Scene.entities w))
    (fun s => if decide (s = this) then activated else Scene.scenes w s).

End Activation.

End SceneMore.

(** ** More of the basic render pipeline *)

Module PipelineMore.

Import BasicRenderPipeline.

Section Sort.
Context {A : Type} (compare : A -> A -> Z).

(** [array.sort(compare)].  ECMAScript asks the sort to be stable, and
    for a comparator that is the difference of two integer keys the
    sorted array is then determined: it is what insertion from the
    right produces, an element going before the first one of the
    sorted rest that it does not exceed. *)
Fixpoint Array_sort_insert (x : A) (sorted : list A) : list A :=
  match sorted with
  | [] => [x]
  | y :: rest =>
      if decide (compare x y <= 0) then x :: sorted
      else y :: Array_sort_insert x rest
  end.

Definition Array_sort (array : list A) : list A :=
  foldr Array_sort_insert [] array.
End Sort.

(** The comparator of [addRenderPass]. *)
Definition byPriority (passes : PassStore) (p1 p2 : PassRef) : Z :=
  RenderPass.priority (passes p1) - RenderPass.priority (passes p2).

(** [addRenderPass(nameOrPass, ...)]; [pass] is the pass object that is
    pushed: the one given or, for a name, the new pass made from the
    arguments. *)
Definition addRenderPass (passes : PassStore) (pass : PassRef) (this : t) : t :=
  mk (_defaultPass this)
     (Array_sort (byPriority passes) (JSArray.push pass (_renderPassArray this))).

(** The pass array after the constructor, which adds the default pass to
    the empty array, and a series of calls of [addRenderPass], first one
    first. *)
Definition constructed (passes : PassStore) (defaultPass : PassRef) : t :=
  addRenderPass passes defaultPass (mk defaultPass []).

Definition added (passes : PassStore) (added : list PassRef) (this : t) : t :=
  fold_left (fun this pass => addRenderPass passes pass this) added this.

(** The two comparators of the render queues. *)
Inductive Comparator : Type := _compareFromNearToFar | _compareFromFarToNear.

(** What [render] asks of its collaborators besides the events of
    [_callRender] and [_drawRenderPass]. *)
Inductive FrameEvent : Type :=
| spriteMaskManager_clear
| cascadedShadowCaster_render
| queue_clear (queue : Queue)
| allSpriteMasks_reset
| applyViewProjectMatrix
| queue_sort (queue : Queue) (compare : Comparator)
| during (e : Event).

(** [scene.castShadows && scene._sunLight?.shadowType !== ShadowType.None]:
    without a sun light the left side of [!==] is [undefined]. *)
Definition castsShadows (lights : LightStore) (scene : Scene.t) : bool :=
  Scene.castShadows scene &&
  match Scene._sunLight scene with
  | Some light => bool_decide (shadowType (lights light) <> ShadowType_None)
  | None => true
  end.

(** [render(context, cubeFace, mipLevel)]: [_camera] is the camera of the
    pipeline, [scene] its scene, [context_camera] the camera of the
    render context and [renderers] the renderers of the engine. *)
Definition render (passes : PassStore) (lights : LightStore) (scene : Scene.t)
    (_camera context_camera : Camera.t) (renderers : list Renderer.t)
    (cubeFace mipLevel : option Z) (this : t) : list Renderer.t * list FrameEvent :=
  let called := _callRender context_camera renderers in
  (called.1,
   [spriteMaskManager_clear] ++
   (if castsShadows lights scene then [cascadedShadowCaster_render] else []) ++
   [queue_clear _opaqueQueue; queue_clear _alphaTestQueue;
    queue_clear _transparentQueue; allSpriteMasks_reset; applyViewProjectMatrix] ++
   (during <$> called.2) ++
   [queue_sort _opaqueQueue _compareFromNearToFar;
    queue_sort _alphaTestQueue _compareFromNearToFar;
    queue_sort _transparentQueue _compareFromFarToNear] ++
   flat_map
     (fun pass => during <$> _drawRenderPass passes pass _camera cubeFace mipLevel)
     (_renderPassArray this)).

(** [a === b] on numbers. *)
Definition strictEquals (a b : JS.number) : bool := SFeqb a b.

(** Modelled from the spec: the enumeration [BackgroundTextureFillMode]
    is declared outside the sources; the background texture is "resized
    to canvas when the fill mode requires it", and the code only
    distinguishes [Fill] from the other modes. *)
Inductive BackgroundTextureFillMode : Type :=
| AspectFitWidth
| AspectFitHeight
| Fill.

#[global] Instance BackgroundTextureFillMode_eq_dec :
  EqDecision BackgroundTextureFillMode.
Proof. solve_decision. Defined.

(** What [_drawBackgroundTexture] asks of the background, of the shader
    program and of the hardware renderer. *)
Inductive BackgroundEvent : Type :=
| _resizeBackgroundTexture
| program_bind
| program_uploadAll
| program_uploadUnGroupTextures
| renderState_apply
| drawPrimitive.

(** [_drawBackgroundTexture(engine, background)], on the field
    [_lastCanvasSize]; [canvas] is the width and the height of the
    canvas.  Modelled from the spec: [Vector2] belongs to the math
    library, which provides "vectors"; it holds two numbers, which [set]
    assigns. *)
Definition _drawBackgroundTexture (canvas : JS.number * JS.number)
    (_textureFillMode : BackgroundTextureFillMode)
    (_lastCanvasSize : JS.number * JS.number)
  : (JS.number * JS.number) * list BackgroundEvent :=
  let resize :=
    (negb (strictEquals _lastCanvasSize.1 canvas.1) ||
     negb (strictEquals _lastCanvasSize.2 canvas.2)) &&
    bool_decide (_textureFillMode <> Fill) in
  (if resize then canvas else _lastCanvasSize,
   (if resize then [_resizeBackgroundTexture] else []) ++
   [program_bind; program_uploadAll; program_uploadUnGroupTextures;
    renderState_apply; drawPrimitive]).

(** What the properties below speak about. *)

Definition isHook (e : FrameEvent) : bool :=
  match e with
  | during (preRender _ _ _ _ _) | during (postRender _ _ _ _ _) => true
  | _ => false
  end.

Definition isBackground (e : Event) : bool :=
  match e with
  | sky_render | BasicRenderPipeline._drawBackgroundTexture => true
  | _ => false
  end.

Definition isRendererRender (e : Event) : option nat :=
  match e with renderer_render index => Some index | _ => None end.

(** The culling-mask and frustum checks of [_callRender], as the code
    evaluates them. *)
Definition keptb (camera : Camera.t) (renderer : Renderer.t) : bool :=
  bool_decide (Z.land (Camera.cullingMask camera) (Renderer._entity_layer renderer) <> 0)
  && (negb (Camera.enableFrustumCulling camera)
      || Camera._frustum_intersectsBox camera (Renderer.bounds renderer)).

(** The passes of an array are in ascending order of priority. *)
Definition ascending (passes : PassStore) (array : list PassRef) : Prop :=
  forall (i j : nat) (p q : PassRef),
    (i < j)%nat -> array !! i = Some p -> array !! j = Some q ->
    RenderPass.priority (passes p) <= RenderPass.priority (passes q).

End PipelineMore.

(** ** [AnimationFloatCurve] *)

Module AnimationFloatCurve.

Definition _lerpValue (srcValue destValue crossWeight : JS.number) : JS.number :=
  JS.add srcValue (JS.mul (JS.sub destValue srcValue) crossWeight).

Definition _additiveValue (value weight scource : JS.number) : JS.number :=
  JS.add scource (JS.mul value weight).

Definition _subtractValue (src base : JS.number) : JS.number := JS.sub src base.

Definition _getZeroValue : JS.number := JS.ofZ 0.

Definition _copyValue (source : JS.number) : JS.number := source.

(** [Number.isFinite(x)] *)
Definition Number_isFinite (x : JS.number) : bool :=
  match x with
  | S754_zero _ | S754_finite _ _ _ => true
  | S754_infinity _ | S754_nan => false
  end.

(** [Number.MAX_VALUE] *)
Definition MAX_VALUE : JS.number := S754_finite false (2 ^ 53 - 1) 971.

End AnimationFloatCurve.
(* ================================================================== *)
(** * Part II: properties *)
(* ================================================================== *)

(** ** The light registry *)

Section Registry.
Import LightManager.

Implicit Types (lights : list LightRef) (h : LightStore) (r light : LightRef).

Lemma store_lightIndex_same r i h :
  _lightIndex (store_lightIndex r i h r) = i.
Proof. unfold store_lightIndex. by rewrite decide_True. Qed.

Lemma store_lightIndex_other r r' i h :
  r' <> r -> store_lightIndex r i h r' = h r'.
Proof. intros Hne. unfold store_lightIndex. by rewrite decide_False. Qed.

Lemma indexed_NoDup lights h : indexed lights h -> NoDup lights.
Proof.
  intros Hidx. apply NoDup_alt. intros i j r Hi Hj.
  apply Hidx in Hi, Hj. lia.
Qed.

Lemma attach_consistent light lights h :
  indexed lights h -> detached lights h -> light ∉ lights ->
  indexed (attach light (lights, h)).1 (attach light (lights, h)).2 /\
  detached (attach light (lights, h)).1 (attach light (lights, h)).2.
Proof.
  intros Hidx Hdet Hfresh. cbn. unfold DisorderedArray.add, DisorderedArray.length.
  split.
  - intros i r Hi. apply lookup_app_Some in Hi as [Hi | [Hlen Hi]].
    + rewrite store_lightIndex_other; [by apply Hidx |].
      intros ->. apply Hfresh. by eapply list_elem_of_lookup_2.
    + apply list_lookup_singleton_Some in Hi as [Hi ->].
      rewrite store_lightIndex_same. lia.
  - intros r Hr. rewrite not_elem_of_app, list_elem_of_singleton in Hr.
    destruct Hr as [Hr Hne]. rewrite store_lightIndex_other by done. by apply Hdet.
Qed.

Lemma detach_consistent light lights h :
  indexed lights h -> detached lights h -> light ∈ lights ->
  indexed (detach light (lights, h)).1 (detach light (lights, h)).2 /\
  detached (detach light (lights, h)).1 (detach light (lights, h)).2.
Proof.
  intros Hidx Hdet Hin.
  pose proof (indexed_NoDup _ _ Hidx) as Hnd.
  apply list_elem_of_lookup in Hin as [k Hk].
  pose proof (Hidx _ _ Hk) as Hik.
  pose proof (lookup_lt_Some _ _ _ Hk) as Hlt.
  unfold detach, DisorderedArray.deleteByIndex, DisorderedArray.length.
  rewrite Hik. case_decide as Hlast.
  - (* the last slot is removed: nothing moves *)
    cbn. split.
    + intros i r Hi. apply lookup_take_Some in Hi as [Hi Hlti].
      rewrite store_lightIndex_other; [by apply Hidx |].
      intros ->. pose proof (NoDup_lookup _ _ _ _ Hnd Hi Hk). lia.
    + intros r Hr. destruct (decide (r = light)) as [-> | Hne].
      * apply store_lightIndex_same.
      * rewrite store_lightIndex_other by done. apply Hdet.
        intros [j Hj]%list_elem_of_lookup. apply Hr.
        apply list_elem_of_lookup. exists j. apply lookup_take_Some. split; [done |].
        pose proof (lookup_lt_Some _ _ _ Hj).
        assert (j <> k) by (intros ->; congruence). lia.
  - (* the last light moves into the freed slot *)
    rewrite last_lookup.
    destruct (lights !! Nat.pred (List.length lights)) as [e |] eqn:He;
      [| apply lookup_ge_None in He; lia].
    assert (Hek : e <> light).
    { intros ->. pose proof (NoDup_lookup _ _ _ _ Hnd He Hk). lia. }
    cbn. unfold DisorderedArray.set. rewrite decide_True by lia. rewrite Nat2Z.id.
    split.
    + intros i r Hi. apply lookup_take_Some in Hi as [Hi Hlti].
      destruct (decide (i = k)) as [-> | Hne].
      * rewrite list_lookup_insert_eq in Hi by done. simplify_eq.
        rewrite store_lightIndex_other by done. apply store_lightIndex_same.
      * rewrite list_lookup_insert_ne in Hi by done.
        assert (r <> light).
        { intros ->. pose proof (NoDup_lookup _ _ _ _ Hnd Hi Hk). lia. }
        assert (r <> e).
        { intros ->. pose proof (NoDup_lookup _ _ _ _ Hnd Hi He). lia. }
        rewrite !store_lightIndex_other by done. by apply Hidx.
    + intros r Hr. destruct (decide (r = light)) as [-> | Hne].
      * apply store_lightIndex_same.
      * rewrite store_lightIndex_other by done.
        destruct (decide (r = e)) as [-> | Hne'].
        { exfalso. apply Hr. apply list_elem_of_lookup. exists k.
          apply lookup_take_Some. split; [| lia].
          by rewrite list_lookup_insert_eq. }
        rewrite store_lightIndex_other by done. apply Hdet.
        intros [j Hj]%list_elem_of_lookup. apply Hr.
        apply list_elem_of_lookup. exists j. apply lookup_take_Some.
        assert (j <> k) by (intros ->; congruence).
        rewrite list_lookup_insert_ne by done. split; [done |].
        pose proof (lookup_lt_Some _ _ _ Hj).
        assert (j <> Nat.pred (List.length lights)) by (intros ->; congruence). lia.
Qed.

Lemma call_consistent c s :
  consistent s -> callable c s -> consistent (call c s).
Proof.
  intros [[Hs1 Hs2] [[Hp1 Hp2] [Hd1 Hd2]]] Hc.
  destruct c as [l | l | l | l | l | l]; cbn in Hc; unfold consistent, call.
  - pose proof (attach_consistent l _ _ Hs1 Hs2 Hc) as H.
    unfold _attachSpotLight. destruct attach. cbn in *. tauto.
  - pose proof (detach_consistent l _ _ Hs1 Hs2 Hc) as H.
    unfold _detachSpotLight. destruct detach. cbn in *. tauto.
  - pose proof (attach_consistent l _ _ Hp1 Hp2 Hc) as H.
    unfold _attachPointLight. destruct attach. cbn in *. tauto.
  - pose proof (detach_consistent l _ _ Hp1 Hp2 Hc) as H.
    unfold _detachPointLight. destruct detach. cbn in *. tauto.
  - pose proof (attach_consistent l _ _ Hd1 Hd2 Hc) as H.
    unfold _attachDirectLight. destruct attach. cbn in *. tauto.
  - pose proof (detach_consistent l _ _ Hd1 Hd2 Hc) as H.
    unfold _detachDirectLight. destruct detach. cbn in *. tauto.
Qed.

End Registry.

Section RegistryCalls.
Import LightManager.

Lemma disciplined_take (n : nat) (cs : list Call) (s : State) :
  disciplined cs s -> disciplined (take n cs) s.
Proof.
  revert n s. induction cs as [| c cs IH]; intros [| n] s; cbn; try tauto.
  intros [Hc Hcs]. split; [done | by apply IH].
Qed.

Lemma calls_consistent (cs : list Call) (s : State) :
  consistent s -> disciplined cs s -> consistent (calls cs s).
Proof.
  revert s. induction cs as [| c cs IH]; intros s Hs Hd; cbn in *; [done |].
  destruct Hd as [Hc Hd]. apply IH; [by apply call_consistent | done].
Qed.

Lemma fresh_consistent : consistent fresh.
Proof.
  repeat split; try (intros i r Hi; cbn in Hi; by rewrite lookup_nil in Hi);
    intros r _; reflexivity.
Qed.

(** C6 (as amended).  Whenever the calls follow the discipline of the
    light components (a light is attached only while it is outside its
    container, detached only while it is inside), then after each call
    of the sequence, in each of the three containers, every light of
    the container stores its position and every light outside of it
    stores [-1]; in particular a light that has just been detached
    stores [-1]. *)
Theorem light_indices_follow_positions (s : State) (cs : list Call) (n : nat) :
  consistent s ->
  disciplined cs s ->
  consistent (calls (take n cs) s).
Proof.
  intros Hs Hd. apply calls_consistent; [done |]. by apply disciplined_take.
Qed.

Lemma light_indices_follow_positions_witness :
  consistent
    (calls (take 5 [AttachDirect 0; AttachDirect 1; AttachSpot 0;
                    DetachDirect 0; AttachPoint 7; DetachDirect 1])%nat fresh).
Proof.
  apply light_indices_follow_positions.
  - apply fresh_consistent.
  - cbn. repeat split; by apply (bool_decide_unpack _).
Defined.

(** C6 as stated fails for an arbitrary sequence of calls: attaching the
    directional light [0] twice leaves it in slot [0] with stored
    index [1]. *)
Lemma double_attach_breaks_positions :
  consistent fresh /\
  ~ consistent (calls [AttachDirect 0; AttachDirect 0]%nat fresh).
Proof.
  split; [apply fresh_consistent |].
  intros (_ & _ & Hidx & _). specialize (Hidx 0%nat 0%nat eq_refl).
  vm_compute in Hidx. discriminate.
Qed.

End RegistryCalls.

(** ** Order facts about JavaScript's [<] *)

Section NumberOrder.

Ltac compare_cases :=
  repeat match goal with
  | H : context [Pos.compare_cont Eq ?x ?y] |- _ =>
      change (Pos.compare_cont Eq x y) with (Pos.compare x y) in H
  | |- context [Pos.compare_cont Eq ?x ?y] =>
      change (Pos.compare_cont Eq x y) with (Pos.compare x y)
  end;
  repeat match goal with
  | H : context [Z.compare ?x ?y] |- _ =>
      destruct (Z.compare_spec x y); simpl in H
  | |- context [Z.compare ?x ?y] =>
      destruct (Z.compare_spec x y); simpl
  | H : context [Pos.compare ?x ?y] |- _ =>
      destruct (Pos.compare_spec x y); simpl in H
  | |- context [Pos.compare ?x ?y] =>
      destruct (Pos.compare_spec x y); simpl
  end; subst; try congruence; try lia.

Lemma lt_irrefl (a : JS.number) : JS.lt a a = false.
Proof.
  unfold JS.lt, SFltb, SFcompare.
  destruct a as [[] | [] | | [] m e]; simpl; try reflexivity; compare_cases.
Qed.

Lemma lt_trans (a b c : JS.number) :
  JS.lt a b = true -> JS.lt b c = true -> JS.lt a c = true.
Proof.
  unfold JS.lt, SFltb, SFcompare.
  destruct a as [[] | [] | | [] ma ea], b as [[] | [] | | [] mb eb],
           c as [[] | [] | | [] mc ec];
    simpl; try congruence; intros H1 H2; compare_cases.
Qed.

(** For numbers other than NaN, "not below" is a total preorder. *)
Lemma lt_above (a b c : JS.number) :
  JS.isNaN b = false ->
  JS.lt a b = false -> JS.lt a c = true -> JS.lt b c = true.
Proof.
  unfold JS.lt, SFltb, SFcompare.
  destruct a as [[] | [] | | [] ma ea], b as [[] | [] | | [] mb eb],
           c as [[] | [] | | [] mc ec];
    simpl; try congruence; intros _ H1 H2; compare_cases.
Qed.

End NumberOrder.

(** ** The choice of the sun light *)

Section SunLight.
Import LightManager.

Variable h : LightStore.

(** [P] selects the lights that compete. *)
Variable P : LightRef -> bool.

Local Abbreviation value r := (brightness (h r)).
Local Abbreviation noCandidate := (LightManager.noCandidate h P).
Local Abbreviation champion := (LightManager.champion h P).

Lemma champion_step (seen : list LightRef) (r : LightRef) (k : Z) (m : JS.number) :
  (forall x, x ∈ seen -> P x = true -> JS.isNaN (value x) = false) ->
  noCandidate seen m \/ champion seen k m ->
  let better := P r && JS.lt m (value r) in
  noCandidate (seen ++ [r]) (if better then value r else m) \/
  champion (seen ++ [r]) (if better then Z.of_nat (List.length seen) else k)
           (if better then value r else m).
Proof.
  intros Hnan Hinv better. subst better.
  destruct (P r) eqn:HP; cbn [andb].
  2:{ (* [r] does not compete *)
    destruct Hinv as [[Hm Hno] | (n & r0 & Hk & Hn & HP0 & Hm & Hmax & Hfirst)].
    - left. split; [done |]. intros j r' Hj HP'.
      apply lookup_app_Some in Hj as [Hj | [_ Hj]]; [by eapply Hno |].
      apply list_lookup_singleton_Some in Hj as [_ ->]. congruence.
    - right. exists n, r0. repeat split; try done.
      + by apply lookup_app_l_Some.
      + intros j r' Hj HP'.
        apply lookup_app_Some in Hj as [Hj | [_ Hj]]; [by eapply Hmax |].
        apply list_lookup_singleton_Some in Hj as [_ ->]. congruence.
      + intros j r' Hj HP' Hlt.
        apply lookup_app_Some in Hj as [Hj | [Hge Hj]]; [by eapply Hfirst |].
        apply lookup_lt_Some in Hn. lia. }
  destruct (JS.lt m (value r)) eqn:Hlt.
  - (* [r] becomes the champion *)
    right. exists (List.length seen), r. repeat split; try done.
    + rewrite lookup_app_r by lia. by rewrite Nat.sub_diag.
    + intros j r' Hj HP'.
      apply lookup_app_Some in Hj as [Hj | [_ Hj]].
      * destruct (JS.lt (value r) (value r')) eqn:Hlt'; [| done].
        pose proof (lt_trans _ _ _ Hlt Hlt') as Hbad.
        destruct Hinv as [[-> Hno] | (n & r0 & _ & _ & _ & -> & Hmax & _)].
        -- by rewrite (Hno _ _ Hj HP') in Hbad.
        -- by rewrite (Hmax _ _ Hj HP') in Hbad.
      * apply list_lookup_singleton_Some in Hj as [_ ->]. apply lt_irrefl.
    + intros j r' Hj HP' Hjlt.
      apply lookup_app_Some in Hj as [Hj | [Hge _]]; [| lia].
      assert (r' ∈ seen) as Hin by by eapply list_elem_of_lookup_2.
      apply (lt_above m); [by apply Hnan | | done].
      destruct Hinv as [[-> Hno] | (n & r0 & _ & _ & _ & -> & Hmax & _)].
      -- by eapply Hno.
      -- by eapply Hmax.
  - (* the champion stays *)
    destruct Hinv as [[Hm Hno] | (n & r0 & Hk & Hn & HP0 & Hm & Hmax & Hfirst)].
    + left. split; [done |]. intros j r' Hj HP'.
      apply lookup_app_Some in Hj as [Hj | [_ Hj]]; [by eapply Hno |].
      apply list_lookup_singleton_Some in Hj as [_ ->]. by rewrite <- Hm.
    + right. exists n, r0. repeat split; try done.
      * by apply lookup_app_l_Some.
      * intros j r' Hj HP'.
        apply lookup_app_Some in Hj as [Hj | [_ Hj]]; [by eapply Hmax |].
        apply list_lookup_singleton_Some in Hj as [_ ->]. exact Hlt.
      * intros j r' Hj HP' Hjlt.
        apply lookup_app_Some in Hj as [Hj | [Hge Hj]]; [by eapply Hfirst |].
        apply lookup_lt_Some in Hn. lia.
Qed.

(** The loop of [_getSunLightIndex] once its mode is settled: either a
    shadow-casting light has been met ([hasShadowLight]) and [P] selects
    the shadow-casting lights, or none remains to be met and [P] selects
    every light. *)
Lemma sunLightLoop_scan (rest seen : list LightRef) (k : Z) (m : JS.number)
    (hasShadowLight : bool) :
  (forall x, x ∈ rest ->
     if hasShadowLight then P x = castsShadow (h x)
     else castsShadow (h x) = false /\ P x = true) ->
  (forall x, x ∈ seen ++ rest -> P x = true -> JS.isNaN (value x) = false) ->
  noCandidate seen m \/ champion seen k m ->
  exists m',
    noCandidate (seen ++ rest) m' \/
    champion (seen ++ rest)
      (sunLightLoop h rest (Z.of_nat (List.length seen)) k m hasShadowLight) m'.
Proof.
  revert seen k m.
  induction rest as [| r rest IH]; intros seen k m Hmode Hnan Hinv.
  - exists m. by rewrite app_nil_r.
  - cbn [sunLightLoop].
    assert (castsShadow (h r) && negb hasShadowLight = false) as ->.
    { specialize (Hmode r (list_elem_of_here _ _)).
      destruct hasShadowLight; [apply andb_false_r |].
      destruct Hmode as [-> _]. done. }
    assert ((if hasShadowLight
             then castsShadow (h r) && JS.lt m (value r)
             else JS.lt m (value r)) = P r && JS.lt m (value r)) as Hbetter.
    { specialize (Hmode r (list_elem_of_here _ _)).
      destruct hasShadowLight; [by rewrite Hmode |].
      destruct Hmode as [_ ->]. done. }
    fold (brightness (h r)). fold (value r). rewrite Hbetter.
    assert (Z.of_nat (List.length seen) + 1 = Z.of_nat (List.length (seen ++ [r])))
      as -> by (rewrite length_app; cbn; lia).
    replace (seen ++ r :: rest) with ((seen ++ [r]) ++ rest)
      by (by rewrite <- app_assoc).
    apply IH.
    + intros x Hx. apply Hmode. by apply list_elem_of_further.
    + intros x Hx. apply Hnan. by rewrite <- app_assoc in Hx.
    + apply champion_step; [| done].
      intros x Hx. apply Hnan. apply elem_of_app. by left.
Qed.

End SunLight.

Section SunLightIndex.
Import LightManager.

Lemma sunLightLoop_skip (h : LightStore) (pre : list LightRef) :
  (forall x, x ∈ pre -> castsShadow (h x) = false) ->
  forall (i k : Z) (m : JS.number),
  exists (k' : Z) (m' : JS.number),
    forall rest : list LightRef,
      sunLightLoop h (pre ++ rest) i k m false =
      sunLightLoop h rest (i + Z.of_nat (List.length pre)) k' m' false.
Proof.
  induction pre as [| r pre IH]; intros Hpre i k m.
  - exists k, m. intros rest. cbn. f_equal. lia.
  - assert (castsShadow (h r) = false) as Hr by apply Hpre, list_elem_of_here.
    cbn [sunLightLoop app]. rewrite Hr. cbn [andb].
    edestruct (IH (fun x Hx => Hpre x (list_elem_of_further _ _ _ Hx)) (i + 1))
      as (k' & m' & Heq).
    exists k', m'. intros rest. rewrite Heq. f_equal. cbn [List.length]. lia.
Qed.

Lemma sunLightLoop_first_shadow (h : LightStore) (r : LightRef)
    (rest : list LightRef) (i k : Z) (m : JS.number) :
  castsShadow (h r) = true ->
  sunLightLoop h (r :: rest) i k m false =
  sunLightLoop h (r :: rest) i k JS.NEGATIVE_INFINITY true.
Proof. intros Hr. cbn [sunLightLoop]. rewrite Hr. reflexivity. Qed.

Lemma anyShadow_split (h : LightStore) (lights : list LightRef) :
  anyShadow h lights = true ->
  exists pre r post,
    lights = pre ++ r :: post /\
    (forall x, x ∈ pre -> castsShadow (h x) = false) /\
    castsShadow (h r) = true.
Proof.
  induction lights as [| r lights IH]; cbn; [done |].
  destruct (castsShadow (h r)) eqn:Hr; cbn.
  - intros _. exists [], r, lights. repeat split; [| done].
    intros x Hx. by apply not_elem_of_nil in Hx.
  - intros (pre & r' & post & -> & Hpre & Hr')%IH.
    exists (r :: pre), r', post. repeat split; [| done].
    intros x [-> | Hx]%elem_of_cons; [done | by apply Hpre].
Qed.

Lemma anyShadow_false (h : LightStore) (lights : list LightRef) :
  anyShadow h lights = false ->
  forall x, x ∈ lights -> castsShadow (h x) = false.
Proof.
  induction lights as [| r lights IH]; cbn.
  - intros _ x Hx. by apply not_elem_of_nil in Hx.
  - intros [Hr Hrest]%orb_false_elim x [-> | Hx]%elem_of_cons; [done |].
    by apply IH.
Qed.

(** The loop ends on the earliest maximal light of the winning tier, or
    has met no light of that tier with a value above -Infinity. *)
Lemma sunLightLoop_tier (s : State) :
  let lights := _directLights (manager s) in
  let h := directLight s in
  (forall r, r ∈ lights -> inTier h lights r = true ->
             JS.isNaN (brightness (h r)) = false) ->
  exists m,
    noCandidate h (inTier h lights) lights m \/
    champion h (inTier h lights) lights (_getSunLightIndex s) m.
Proof.
  intros lights h Hnan. unfold _getSunLightIndex. fold lights h.
  unfold inTier in *. destruct (anyShadow h lights) eqn:Hany.
  - destruct (anyShadow_split _ _ Hany) as (pre & r & post & Hsplit & Hpre & Hr).
    destruct (sunLightLoop_skip h pre Hpre 0 (-1) JS.NEGATIVE_INFINITY)
      as (k' & m' & Heq).
    rewrite Hsplit in *. rewrite Heq, sunLightLoop_first_shadow by done.
    rewrite Z.add_0_l.
    apply (sunLightLoop_scan h (fun x => castsShadow (h x))); [done | done |].
    left. split; [done |]. intros j x Hj Hx.
    rewrite Hpre in Hx; [done | by eapply list_elem_of_lookup_2].
  - apply (sunLightLoop_scan h (fun _ => true) lights [] (-1)); [| done |].
    + intros x Hx. split; [by eapply anyShadow_false | done].
    + left. split; [done |]. intros j x Hj. by rewrite lookup_nil in Hj.
Qed.

(** C1 (as amended).  [_getSunLightIndex] returns [-1] when there is no
    directional light.  The winning tier being the shadow-casting lights
    if there is one and all directional lights otherwise: when no light
    of the winning tier has a NaN product [intensity * brightness] and
    one of them has a product above -Infinity, the result is the index
    of a light of the winning tier (hence of a shadow-casting light as
    soon as one exists, whatever the other lights' intensities), no
    light of the tier has a greater product, and every light of the tier
    in an earlier slot has a strictly smaller one. *)
Theorem sun_light_index (s : State) :
  let lights := _directLights (manager s) in
  let h := directLight s in
  (lights = [] -> _getSunLightIndex s = -1) /\
  ((forall r, r ∈ lights -> inTier h lights r = true ->
              JS.isNaN (brightness (h r)) = false) ->
   (exists r, r ∈ lights /\ inTier h lights r = true /\
              JS.lt JS.NEGATIVE_INFINITY (brightness (h r)) = true) ->
   exists (n : nat) (r : LightRef),
     _getSunLightIndex s = Z.of_nat n /\
     lights !! n = Some r /\
     inTier h lights r = true /\
     (anyShadow h lights = true -> shadowType (h r) <> ShadowType_None) /\
     (forall (j : nat) (r' : LightRef),
         lights !! j = Some r' -> inTier h lights r' = true ->
         JS.lt (brightness (h r)) (brightness (h r')) = false) /\
     (forall (j : nat) (r' : LightRef),
         lights !! j = Some r' -> inTier h lights r' = true -> (j < n)%nat ->
         JS.lt (brightness (h r')) (brightness (h r)) = true)).
Proof.
  intros lights h. split.
  - unfold _getSunLightIndex. fold lights. by intros ->.
  - subst lights h. intros Hnan (x & Hx & Htier & Hlt).
    destruct (sunLightLoop_tier s Hnan) as [m [[_ Hno] | Hch]].
    + apply list_elem_of_lookup in Hx as [j Hj].
      specialize (Hno _ _ Hj Htier). congruence.
    + destruct Hch as (n & r & Hk & Hn & HP & -> & Hmax & Hfirst).
      exists n, r. repeat split; try done.
      intros Hany. unfold inTier in HP. rewrite Hany in HP.
      by apply bool_decide_eq_true in HP.
Qed.

Lemma sun_light_index_witness :
  exists (n : nat) (r : LightRef),
    _getSunLightIndex (twoLights (JS.ofZ 1)) = Z.of_nat n /\
    [0; 1]%nat !! n = Some r /\
    shadowType (directLight (twoLights (JS.ofZ 1)) r) <> ShadowType_None.
Proof.
  destruct (proj2 (sun_light_index (twoLights (JS.ofZ 1))))
    as (n & r & Hres & Hn & _ & Hshadow & _).
  - intros r [-> | [-> | Hr]%elem_of_cons]%elem_of_cons; try reflexivity.
    by apply not_elem_of_nil in Hr.
  - exists 1%nat. split; [by apply (bool_decide_unpack _) | split; reflexivity].
  - exists n, r. split; [exact Hres | split; [exact Hn | by apply Hshadow]].
Defined.

(** C1 as stated fails when the product of the only shadow-casting light
    is NaN: the index of the light without shadows, met earlier, is
    returned. *)
Lemma sun_light_index_nan :
  let s := twoLights S754_nan in
  anyShadow (directLight s) (_directLights (manager s)) = true /\
  _getSunLightIndex s = 0 /\
  _directLights (manager s) !! 0%nat = Some 0%nat /\
  shadowType (directLight s 0%nat) = ShadowType_None.
Proof. repeat split. Qed.

End SunLightIndex.

(** ** The simple entity methods behave as the scene expects *)

Section SimpleEntityLaws.

Lemma update_same (r : EntityRef) (f : Entity.t -> Entity.t) (h : EntityStore) :
  update r f h r = f (h r).
Proof. unfold update. by rewrite decide_True. Qed.

Lemma update_other (r x : EntityRef) (f : Entity.t -> Entity.t) (h : EntityStore) :
  x <> r -> update r f h x = h x.
Proof. intros Hne. unfold update. by rewrite decide_False. Qed.

Lemma update_keeps {X : Type} (g : Entity.t -> X) (r x : EntityRef)
    (f : Entity.t -> Entity.t) (h : EntityStore) :
  (forall e, g (f e) = g e) -> g (update r f h x) = g (h x).
Proof. intros Hg. unfold update. case_decide; [by rewrite Hg | done]. Qed.

(** A property of stores that every single update by [f] preserves
    holds after a traversal as soon as it holds after the first update. *)
Lemma traverse_ind (Q : EntityStore -> Prop) (f : Entity.t -> Entity.t)
    (follow : Entity.t -> bool) :
  (forall c h, Q h -> Q (update c f h)) ->
  forall (depth : nat) (e : EntityRef) (h : EntityStore),
    Q (update e f h) -> Q (SimpleEntity.traverse depth f follow e h).
Proof.
  intros Hupd. induction depth as [| depth IH]; intros e h Hstart; cbn; [done |].
  generalize (Entity._children (update e f h e)).
  revert Hstart. generalize (update e f h). intros h0 Hh0 l. revert h0 Hh0.
  induction l as [| c l IHl]; intros h0 Hh0; cbn; [done |].
  apply IHl. destruct (_ && _); [| done]. by apply IH, Hupd.
Qed.

Lemma traverse_keeps {X : Type} (g : Entity.t -> X) (f : Entity.t -> Entity.t)
    (follow : Entity.t -> bool) :
  (forall e, g (f e) = g e) ->
  forall (depth : nat) (e : EntityRef) (h : EntityStore) (x : EntityRef),
    g (SimpleEntity.traverse depth f follow e h x) = g (h x).
Proof.
  intros Hg depth e h x.
  apply (traverse_ind (fun h' => g (h' x) = g (h x))).
  - intros c h' Hh'. by rewrite update_keeps.
  - by apply update_keeps.
Qed.

Lemma traverse_target {X : Type} (g : Entity.t -> X) (v : X)
    (f : Entity.t -> Entity.t) (follow : Entity.t -> bool) :
  (forall e, g (f e) = v) ->
  forall (depth : nat) (e : EntityRef) (h : EntityStore),
    g (SimpleEntity.traverse depth f follow e h e) = v.
Proof.
  intros Hg depth e h.
  apply (traverse_ind (fun h' => g (h' e) = v)).
  - intros c h' Hh'. unfold update. case_decide; [by subst | done].
  - by rewrite update_same.
Qed.

Lemma traverse_frame (f : Entity.t -> Entity.t) (follow : Entity.t -> bool) :
  forall (depth : nat) (e : EntityRef) (h : EntityStore) (x : EntityRef),
    x <> e -> Entity._parent (h x) = None ->
    SimpleEntity.traverse depth f follow e h x = h x.
Proof.
  induction depth as [| depth IH]; intros e h x Hne Hx; cbn.
  - by apply update_other.
  - generalize (Entity._children (update e f h e)).
    assert (update e f h x = h x) as Hstart by by apply update_other.
    revert Hstart. generalize (update e f h). intros h0 Hh0 l. revert h0 Hh0.
    induction l as [| c l IHl]; intros h0 Hh0; cbn; [done |].
    apply IHl. destruct (bool_decide _) eqn:Hc; cbn; [| done].
    apply bool_decide_eq_true in Hc.
    destruct (follow (h0 c)); [| done].
    rewrite IH; [done | | by rewrite Hh0].
    intros ->. rewrite Hh0 in Hc. congruence.
Qed.

Lemma simple_removeFromParent_keeps (e : EntityRef) (h : EntityStore) (x : EntityRef) :
  Entity.name (SimpleEntity._removeFromParent e h x) = Entity.name (h x) /\
  Entity._isRoot (SimpleEntity._removeFromParent e h x) = Entity._isRoot (h x) /\
  Entity._scene (SimpleEntity._removeFromParent e h x) = Entity._scene (h x).
Proof.
  unfold SimpleEntity._removeFromParent. destruct (Entity._parent (h e)); [| done].
  repeat split; by rewrite !update_keeps.
Qed.

Lemma simple_removeFromParent_frame (e : EntityRef) (h : EntityStore) (x : EntityRef) :
  Entity._parent (h x) = None ->
  Entity._parent (SimpleEntity._removeFromParent e h x) = None /\
  Entity._siblingIndex (SimpleEntity._removeFromParent e h x)
    = Entity._siblingIndex (h x).
Proof.
  intros Hx. unfold SimpleEntity._removeFromParent.
  destruct (Entity._parent (h e)) as [p |] eqn:He; [| done].
  assert (x <> e) by congruence.
  rewrite update_other by done. by rewrite !update_keeps.
Qed.

Lemma simple_removeFromParent_detaches (e : EntityRef) (h : EntityStore) :
  Entity._parent (SimpleEntity._removeFromParent e h e) = None.
Proof.
  unfold SimpleEntity._removeFromParent.
  destruct (Entity._parent (h e)) as [p |] eqn:He; [| done].
  by rewrite update_same.
Qed.

Lemma simple_removeFromParent_index (e : EntityRef) (h : EntityStore) (x : EntityRef) :
  Entity._parent (h x) <> None ->
  Entity._parent (SimpleEntity._removeFromParent e h x) = None ->
  Entity._siblingIndex (SimpleEntity._removeFromParent e h x) = Index.int (-1).
Proof.
  unfold SimpleEntity._removeFromParent.
  destruct (Entity._parent (h e)) as [p |] eqn:He; [| done].
  destruct (decide (x = e)) as [-> | Hne]; [by rewrite update_same |].
  rewrite update_other by done. by rewrite update_keeps.
Qed.

(** The simple entities, over hierarchies of depth at most [depth]. *)
Definition simpleEntities (depth : nat) : EntityMethods.
Proof.
  refine {|
    _removeFromParent := SimpleEntity._removeFromParent;
    _traverseSetOwnerScene := SimpleEntity._traverseSetOwnerScene depth;
    _processActive := SimpleEntity._processActive depth;
    _processInActive := SimpleEntity._processInActive depth;
    _findChildByName := SimpleEntity._findChildByName;
    removeFromParent_keeps := simple_removeFromParent_keeps;
    removeFromParent_frame := simple_removeFromParent_frame;
    removeFromParent_detaches := simple_removeFromParent_detaches;
    removeFromParent_index := simple_removeFromParent_index
  |}.
  - intros e s h x. repeat split; by apply traverse_keeps.
  - intros e s h. by apply (traverse_target Entity._scene).
  - intros e s h x Hne Hx. unfold SimpleEntity._traverseSetOwnerScene.
    by rewrite traverse_frame.
  - intros e h x. repeat split; by apply traverse_keeps.
  - intros e h x. repeat split; by apply traverse_keeps.
Defined.

End SimpleEntityLaws.

(** ** Root lists: arrays and loops *)

Section SceneLists.
Import Scene.

Implicit Types (l : list EntityRef) (h : EntityStore) (w : World).

Lemma splice_delete l (index : Z) :
  0 <= index -> JSArray.splice index 1 [] l = delete (Z.to_nat index) l.
Proof.
  intros Hpos. unfold JSArray.splice, JSArray.length.
  rewrite decide_False by lia. rewrite delete_take_drop. cbn [app].
  destruct (decide (index < Z.of_nat (List.length l))) as [Hlt | Hge].
  - do 2 f_equal; lia.
  - rewrite !take_ge, !drop_ge by lia. done.
Qed.

Lemma splice_last l : JSArray.splice (-1) 1 [] l = take (Nat.pred (List.length l)) l.
Proof.
  unfold JSArray.splice, JSArray.length. rewrite decide_True by lia. cbn [app].
  destruct l as [| x l]; [done |].
  rewrite (drop_ge (x :: l)); [| cbn [List.length]; lia].
  rewrite app_nil_r. f_equal. cbn [List.length]. lia.
Qed.

Lemma splice_insert l (index : Z) (x : EntityRef) :
  0 <= index <= JSArray.length l ->
  JSArray.splice index 0 [x] l
  = take (Z.to_nat index) l ++ x :: drop (Z.to_nat index) l.
Proof.
  unfold JSArray.splice, JSArray.length. intros Hrange.
  rewrite decide_False by lia. cbn [app]. do 3 f_equal; lia.
Qed.

Lemma fold_update_notin (f : Entity.t -> Entity.t) l h (x : EntityRef) :
  x ∉ l -> fold_left (fun h r => update r f h) l h x = h x.
Proof.
  revert h. induction l as [| r l IH]; intros h Hx; cbn; [done |].
  apply not_elem_of_cons in Hx as [Hne Hx].
  rewrite IH by done. by apply update_other.
Qed.

Lemma fold_update_in (f : Entity.t -> Entity.t) l h (x : EntityRef) :
  NoDup l -> x ∈ l -> fold_left (fun h r => update r f h) l h x = f (h x).
Proof.
  revert h. induction l as [| r l IH]; intros h Hnd Hx; cbn.
  - by apply not_elem_of_nil in Hx.
  - apply NoDup_cons in Hnd as [Hr Hnd].
    apply elem_of_cons in Hx as [-> | Hx].
    + rewrite fold_update_notin by done. apply update_same.
    + rewrite IH by done. rewrite update_other; [done |]. by intros ->.
Qed.

(** The loop over the tail of a root list, from a slot on, shifts the
    sibling index of each entity of the tail. *)
Lemma for_loop_shift l (d : Z) (fuel : nat) (i : Z) w :
  0 <= i ->
  (List.length (drop (Z.to_nat i) l) <= fuel)%nat ->
  for_loop fuel (Index.int i) (JSArray.length l) (shiftSiblingIndex l d) w
  = (mkWorld
       (fold_left (fun h r => update r (shift d) h) (drop (Z.to_nat i) l) (entities w))
       (scenes w),
     Return tt).
Proof.
  revert i w. induction fuel as [| fuel IH]; intros i w Hpos Hlen.
  - destruct (drop (Z.to_nat i) l); [by destruct w | cbn in Hlen; lia].
  - cbn [for_loop]. unfold Index.lt. cbn [Index.toInteger].
    unfold JSArray.length. case_bool_decide as Hlt.
    + unfold bind, shiftSiblingIndex, Index.get, JSArray.get. cbn [Index.toInteger].
      rewrite decide_True by done.
      destruct (l !! Z.to_nat i) as [r |] eqn:Hr.
      2:{ apply lookup_ge_None in Hr. lia. }
      cbn. rewrite (drop_S _ _ _ Hr) in Hlen |- *. cbn [List.length] in Hlen.
      fold (JSArray.length l). rewrite IH; [| lia |].
      * cbn. replace (Z.to_nat (i + 1)) with (S (Z.to_nat i)) by lia. done.
      * replace (Z.to_nat (i + 1)) with (S (Z.to_nat i)) by lia. lia.
    + rewrite drop_ge by lia. by destruct w.
Qed.

Lemma for_loop_undefined l (d : Z) (fuel : nat) (i : Z) w :
  i < 0 ->
  for_loop (S fuel) (Index.int i) (JSArray.length l) (shiftSiblingIndex l d) w
  = (w, Throw TypeError).
Proof.
  intros Hneg. cbn [for_loop]. unfold Index.lt. cbn [Index.toInteger].
  rewrite bool_decide_eq_true_2 by (unfold JSArray.length; lia).
  unfold bind, shiftSiblingIndex, Index.get, JSArray.get. cbn [Index.toInteger].
  by rewrite decide_False by lia.
Qed.

(** The fuel of the loops is never used up: from an integer on, the
    loop takes one round for each integer below [n], and once more fuel
    than that changes nothing. *)
Lemma for_loop_rounds l (d : Z) (n : Z) (fuel : nat) (i : Z) w :
  (Z.to_nat (n - i) <= fuel)%nat ->
  for_loop fuel (Index.int i) n (shiftSiblingIndex l d) w
  = for_loop (Z.to_nat (n - i)) (Index.int i) n (shiftSiblingIndex l d) w.
Proof.
  revert i w. induction fuel as [| fuel IH]; intros i w Hfuel.
  - by replace (Z.to_nat (n - i)) with 0%nat by lia.
  - cbn [for_loop]. unfold Index.lt. cbn [Index.toInteger].
    case_bool_decide as Hlt.
    + replace (Z.to_nat (n - i)) with (S (Z.to_nat (n - (i + 1)))) by lia.
      cbn [for_loop]. unfold Index.lt. cbn [Index.toInteger].
      rewrite bool_decide_eq_true_2 by done.
      unfold bind. destruct (shiftSiblingIndex l d (Index.int i) w) as [w' [[] | err]];
        [| done].
      cbn [Index.add Index.toInteger]. apply IH. lia.
    + by replace (Z.to_nat (n - i)) with 0%nat by lia.
Qed.

(** From any number on, a round that does not throw is at a slot of the
    array, and the loop goes on from the next integer: the fuel that the
    code is given, one more than the array has slots, is as good as any
    greater fuel. *)
Lemma for_loop_fuel l (d : Z) (n : Z) (more : nat) (i : Index.t) w :
  n <= JSArray.length l ->
  for_loop (S (List.length l) + more) i n (shiftSiblingIndex l d) w
  = for_loop (S (List.length l)) i n (shiftSiblingIndex l d) w.
Proof.
  intros Hn. cbn [Nat.add for_loop].
  destruct (Index.lt i (Index.int n)); [| done].
  unfold bind. unfold shiftSiblingIndex at 1 3. unfold Index.get, Index.add.
  destruct (Index.toInteger i) as [z |]; [| done].
  unfold JSArray.get. case_decide as Hz; [| done].
  destruct (l !! Z.to_nat z) as [r |] eqn:Hr; [| done].
  apply lookup_lt_Some in Hr. unfold JSArray.length in Hn.
  cbn [modify_entity modify].
  rewrite for_loop_rounds by lia. symmetry. apply for_loop_rounds. lia.
Qed.

Context `{EntityMethods}.

(** [_removeFromEntityList] on an entity whose sibling index is a
    position (or beyond the array): the slot is removed and the entities
    behind it move down. *)
Lemma removeFromEntityList_returns (this : SceneRef) (e : EntityRef) (index : Z) w :
  let l' := delete (Z.to_nat index) (rootEntities this w) in
  Entity._siblingIndex (entity e w) = Index.int index ->
  0 <= index ->
  _removeFromEntityList this e w
  = (mkWorld
       (update e (Entity.set_siblingIndex (Index.int (-1)))
          (fold_left (fun h r => update r (shift (-1)) h)
                     (drop (Z.to_nat index) l') (entities w)))
       (with_rootEntities this l' w),
     Return tt).
Proof.
  intros l' Hindex Hpos.
  unfold _removeFromEntityList, bind, gets, modify_rootEntities, modify,
    modify_entity.
  rewrite Hindex. cbn -[JSArray.splice for_loop].
  unfold rootEntities at 1 2 3. cbn -[JSArray.splice for_loop].
  rewrite decide_True by done. cbn -[JSArray.splice for_loop].
  rewrite !splice_delete by done. fold (rootEntities this w). fold l'.
  rewrite for_loop_shift; [done | done |].
  rewrite length_drop. lia.
Qed.

(** On an entity whose sibling index is [-1], the last slot is removed
    and reading slot [-1] throws. *)
Lemma removeFromEntityList_throws (this : SceneRef) (e : EntityRef) w :
  Entity._siblingIndex (entity e w) = Index.int (-1) ->
  _removeFromEntityList this e w
  = (mkWorld (entities w)
       (with_rootEntities this
          (take (Nat.pred (List.length (rootEntities this w))) (rootEntities this w)) w),
     Throw TypeError).
Proof.
  intros Hidx.
  unfold _removeFromEntityList, bind, gets, modify_rootEntities, modify,
    modify_entity.
  rewrite Hidx. cbn -[JSArray.splice for_loop].
  unfold rootEntities at 1 2 3. cbn -[JSArray.splice for_loop].
  rewrite decide_True by done. cbn -[JSArray.splice for_loop].
  rewrite !splice_last. fold (rootEntities this w).
  by rewrite for_loop_undefined.
Qed.

End SceneLists.

(** ** Removing from a root list keeps the world well formed *)

Section SceneRemove.
Import Scene.
Context `{EntityMethods}.

Implicit Types (l : list EntityRef) (h : EntityStore) (w : World).

(** Two integers that are one sibling index are equal. *)
Ltac same_index :=
  unfold entity in *;
  repeat match goal with
    | H : Index.int _ = Index.int _ |- _ => injection H as H
    | H1 : ?a = Index.int _, H2 : ?a = Index.int _ |- _ => rewrite H1 in H2
    end.

Lemma fold_update_keeps {X : Type} (g : Entity.t -> X) (f : Entity.t -> Entity.t)
    l h (x : EntityRef) :
  (forall e, g (f e) = g e) ->
  g (fold_left (fun h r => update r f h) l h x) = g (h x).
Proof.
  intros Hg. revert h. induction l as [| r l IH]; intros h; cbn; [done |].
  rewrite IH. by apply update_keeps.
Qed.

Lemma rootEntities_with (this sc : SceneRef) l h w :
  rootEntities sc (mkWorld h (with_rootEntities this l w))
  = if decide (sc = this) then l else rootEntities sc w.
Proof.
  unfold rootEntities, with_rootEntities. cbn. by case_decide; subst.
Qed.

Lemma indexed_roots_NoDup w (sc : SceneRef) :
  indexed_roots w -> NoDup (rootEntities sc w).
Proof.
  intros Hidx. apply NoDup_alt. intros i j x Hi Hj.
  apply Hidx in Hi as [Hi _], Hj as [Hj _]. same_index. lia.
Qed.

Lemma removeFromEntityList_well_formed (this : SceneRef) (e : EntityRef) w :
  well_formed w ->
  Entity._scene (entity e w) = Some this ->
  Entity._isRoot (entity e w) = true ->
  let r := _removeFromEntityList this e w in
  well_formed r.1 /\
  (forall x, same_fields w r.1 x) /\
  (forall sc, sc <> this -> rootEntities sc r.1 = rootEntities sc w) /\
  (forall sc, _isActiveInEngine (scenes r.1 sc) = _isActiveInEngine (scenes w sc)) /\
  (r.2 = Return tt -> forall sc, e ∉ rootEntities sc r.1).
Proof.
  intros (Hidx & Hown & Hroot & Hlow) Hscene HisRoot.
  pose proof (Hlow e (Hroot e HisRoot)) as (index & Hindex & Hge).
  destruct (decide (index = -1)) as [Hm1 | Hm1].
  { (* the entity is in no list: the last slot goes and the call throws *)
    cbn zeta. rewrite removeFromEntityList_throws by by subst. cbn [fst snd].
    set (l' := take _ _).
    assert (forall sc i x,
               rootEntities sc (mkWorld (entities w) (with_rootEntities this l' w)) !! i
               = Some x -> rootEntities sc w !! i = Some x) as Hsub.
    { intros sc i x. rewrite rootEntities_with. case_decide; [subst sc | done].
      unfold l'. by intros [? _]%lookup_take_Some. }
    split; [split; [| split] |].
    - intros sc i x Hx. by apply (Hidx sc i), Hsub.
    - intros sc i x Hx. by apply (Hown sc i), Hsub.
    - done.
    - split; [done |]. split; [| split; [| done]].
      + intros sc Hne. rewrite rootEntities_with. by rewrite decide_False.
      + intros sc. unfold with_rootEntities. cbn. by case_decide; subst. }
  assert (0 <= index) as Hpos by lia.
  cbn zeta. rewrite (removeFromEntityList_returns this e index w Hindex Hpos).
  cbn [fst snd].
  set (k := Z.to_nat index).
  set (l := rootEntities this w).
  set (l' := delete k l).
  set (h' := update e _ _).
  assert (NoDup l) as Hnd by by apply indexed_roots_NoDup.
  assert (NoDup l') as Hnd'.
  { apply (sublist_NoDup l' l); [done | apply sublist_delete]. }
  assert (NoDup (drop k l')) as Hndd.
  { apply (sublist_NoDup _ l'); [done | apply sublist_drop]. }
  (* where the entities of the new list come from *)
  assert (forall i x, l' !! i = Some x ->
            x <> e /\
            ((i < k)%nat /\ l !! i = Some x /\ x ∉ drop k l' \/
             (k <= i)%nat /\ l !! S i = Some x /\ x ∈ drop k l')) as Hl'.
  { intros i x Hx. split.
    - intros ->. unfold l' in Hx.
      destruct (decide (i < k)%nat).
      + rewrite list_lookup_delete_lt in Hx by done.
        apply Hidx in Hx as [Hx _]. same_index. lia.
      + rewrite list_lookup_delete_ge in Hx by lia.
        apply Hidx in Hx as [Hx _]. same_index. lia.
    - destruct (decide (i < k)%nat).
      + left. split; [done |]. split.
        * unfold l' in Hx. by rewrite list_lookup_delete_lt in Hx.
        * intros [j Hj]%list_elem_of_lookup. rewrite lookup_drop in Hj.
          pose proof (NoDup_lookup _ _ _ _ Hnd' Hx Hj). lia.
      + right. split; [lia |]. split.
        * unfold l' in Hx. by rewrite list_lookup_delete_ge in Hx by lia.
        * apply list_elem_of_lookup. exists (i - k)%nat. rewrite lookup_drop.
          by replace (k + (i - k))%nat with i by lia. }
  assert (forall x, x ∈ drop k l' -> x ∈ l) as Hdrop.
  { intros x [j Hj]%list_elem_of_lookup. rewrite lookup_drop in Hj.
    apply Hl' in Hj as [_ [(_ & Hj & _) | (_ & Hj & _)]];
      by eapply list_elem_of_lookup_2. }
  assert (forall {X} (g : Entity.t -> X) x,
            (forall i e0, g (Entity.set_siblingIndex i e0) = g e0) ->
            g (h' x) = g (entities w x)) as Hkeep.
  { intros X g x Hg. unfold h'. rewrite update_keeps by apply Hg.
    apply fold_update_keeps. intros e0. apply Hg. }
  assert (forall x, x <> e -> x ∉ l -> h' x = entities w x) as Hout.
  { intros x Hne Hx. unfold h'. rewrite update_other by done.
    apply fold_update_notin. intros Hin. by apply Hx, Hdrop. }
  assert (forall x, same_fields w (mkWorld h' (with_rootEntities this l' w)) x) as Hsame.
  { intros x. unfold same_fields, entity. cbn. repeat split; by apply Hkeep. }
  set (w' := mkWorld h' (with_rootEntities this l' w)) in *.
  assert (indexed_roots w') as Hidx'.
  { intros sc i x Hx. destruct (Hsame x) as (_ & -> & _ & ->).
    unfold w' in Hx. rewrite rootEntities_with in Hx.
    case_decide as Hsc.
    - subst sc. apply Hl' in Hx as [Hne [(Hlt & Hx & Hnot) | (Hge' & Hx & Hin)]].
      + split; [| by eapply Hidx]. unfold entity, w', h'. cbn.
        rewrite update_other by done.
        rewrite fold_update_notin by done. by apply (Hidx this i).
      + split; [| by eapply Hidx]. unfold entity, w', h'. cbn.
        rewrite update_other by done.
        rewrite fold_update_in by done. cbn.
        apply Hidx in Hx as [Hx _]. unfold entity in Hx. rewrite Hx. cbn.
        f_equal. lia.
    - split; [| by eapply Hidx]. unfold entity, w'. cbn.
      rewrite Hout; [by apply (Hidx sc i) | |].
      + intros ->. apply Hown in Hx. congruence.
      + intros [j Hj]%list_elem_of_lookup. apply Hown in Hx, Hj. congruence. }
  assert (owned_roots w') as Hown'.
  { intros sc i x Hx. destruct (Hsame x) as (_ & _ & -> & _).
    unfold w' in Hx. rewrite rootEntities_with in Hx.
    case_decide; [subst sc | by apply (Hown sc i)].
    apply Hl' in Hx as [_ [(_ & Hx & _) | (_ & Hx & _)]]; by eapply Hown. }
  assert (links_ok w') as Hlinks'.
  { split.
    - intros x. destruct (Hsame x) as (_ & -> & _ & ->). apply Hroot.
    - intros x. destruct (Hsame x) as (_ & _ & _ & ->). intros Hx.
      unfold entity, w', h'. cbn.
      destruct (decide (x = e)) as [-> | Hne].
      { rewrite update_same. by exists (-1). }
      rewrite update_other by done.
      destruct (decide (x ∈ drop k l')) as [Hin | Hnin].
      + rewrite fold_update_in by done. cbn.
        apply list_elem_of_lookup in Hin as [j Hj]. rewrite lookup_drop in Hj.
        apply Hl' in Hj as [_ [(? & _) | (_ & Hj & _)]]; [lia |].
        apply Hidx in Hj as [Hj _]. unfold entity in Hj. rewrite Hj. cbn.
        eexists. split; [done | lia].
      + rewrite fold_update_notin by done. by apply Hlow. }
  split; [done |]. split; [done |]. split; [| split].
  - intros sc Hne. unfold w'. rewrite rootEntities_with. by rewrite decide_False.
  - intros sc. unfold w', with_rootEntities. cbn. by case_decide; subst.
  - intros _ sc. unfold w'. rewrite rootEntities_with.
    case_decide.
    + intros [j Hj]%list_elem_of_lookup. by apply Hl' in Hj as [? _].
    + intros [j Hj]%list_elem_of_lookup. apply Hown in Hj. congruence.
Qed.

End SceneRemove.

(** ** Inserting into a root list *)

Section SceneInsert.
Import Scene.
Context `{EntityMethods}.

Implicit Types (l : list EntityRef) (h : EntityStore) (w : World).

Lemma addToRootEntityList_push (this : SceneRef) (e : EntityRef) w :
  _addToRootEntityList this None e w
  = (inserted this (List.length (rootEntities this w)) e w, Return tt).
Proof.
  unfold _addToRootEntityList, inserted, bind, gets, modify_entity,
    modify_rootEntities, modify, JSArray.push, JSArray.length.
  cbn. rewrite take_ge, drop_ge by done. done.
Qed.

Lemma addToRootEntityList_outside (this : SceneRef) (index : Index.t)
    (e : EntityRef) w :
  Index.lt index (Index.int 0) = true \/
  Index.lt (Index.int (JSArray.length (rootEntities this w))) index = true ->
  _addToRootEntityList this (Some index) e w
  = (w, Throw (OutOfBounds index (JSArray.length (rootEntities this w)))).
Proof.
  intros Hout. unfold _addToRootEntityList, bind, gets. cbn -[Index.lt].
  by destruct Hout as [-> | ->]; rewrite ?orb_true_r.
Qed.

Lemma addToRootEntityList_insert (this : SceneRef) (index : Z) (e : EntityRef) w :
  0 <= index <= JSArray.length (rootEntities this w) ->
  _addToRootEntityList this (Some (Index.int index)) e w
  = (inserted this (Z.to_nat index) e w, Return tt).
Proof.
  intros Hin.
  unfold _addToRootEntityList, inserted, bind, gets, modify_entity,
    modify_rootEntities, modify.
  cbn -[JSArray.splice for_loop].
  rewrite !bool_decide_eq_false_2 by lia.
  cbn -[JSArray.splice for_loop].
  unfold rootEntities at 1 3. cbn -[JSArray.splice for_loop].
  rewrite decide_True by done. cbn -[JSArray.splice for_loop].
  fold (rootEntities this w). rewrite !splice_insert by done.
  set (l := rootEntities this w) in *. set (k := Z.to_nat index).
  assert (drop (Z.to_nat (index + 1)) (take k l ++ e :: drop k l) = drop k l) as Hdrop.
  { replace (Z.to_nat (index + 1)) with (List.length (take k l) + 1)%nat.
    - by rewrite drop_app_add.
    - rewrite length_take. unfold JSArray.length in Hin. lia. }
  assert (JSArray.length l + 1 = JSArray.length (take k l ++ e :: drop k l)) as ->.
  { unfold JSArray.length. rewrite length_app, length_take. cbn [List.length].
    rewrite length_drop. unfold JSArray.length in Hin. lia. }
  rewrite for_loop_shift; [| lia |].
  - cbn. rewrite Hdrop. by replace (Z.of_nat k) with index by lia.
  - rewrite Hdrop, length_app. cbn [List.length]. lia.
Qed.

Lemma inserted_well_formed (this : SceneRef) (k : nat) (e : EntityRef) w :
  well_formed w ->
  (k <= List.length (rootEntities this w))%nat ->
  (forall sc, e ∉ rootEntities sc w) ->
  Entity._isRoot (entity e w) = true ->
  Entity._parent (entity e w) = None ->
  let w' := inserted this k e w in
  indexed_roots w' /\
  links_ok w' /\
  (forall sc i x, rootEntities sc w' !! i = Some x -> x <> e ->
                  Entity._scene (entity x w') = Some sc) /\
  (forall sc, e ∈ rootEntities sc w' -> sc = this) /\
  (forall x, same_fields w w' x) /\
  (forall sc, sc <> this -> rootEntities sc w' = rootEntities sc w) /\
  (forall sc, _isActiveInEngine (scenes w' sc) = _isActiveInEngine (scenes w sc)).
Proof.
  intros (Hidx & Hown & Hroot & Hlow) Hk Hfresh HisRoot Hparent w'.
  set (l := rootEntities this w) in *.
  assert (NoDup l) as Hnd by by apply indexed_roots_NoDup.
  assert (NoDup (drop k l)) as Hndd.
  { apply (sublist_NoDup _ l); [done | apply sublist_drop]. }
  assert (forall x, x ∈ drop k l -> x ∈ l) as Hdrop.
  { intros x [j Hj]%list_elem_of_lookup. rewrite lookup_drop in Hj.
    by eapply list_elem_of_lookup_2. }
  assert (forall x, same_fields w w' x) as Hsame.
  { intros x. unfold same_fields, entity, w', inserted. cbn.
    repeat split; (rewrite fold_update_keeps by done); by rewrite update_keeps. }
  assert (Entity._siblingIndex (entity e w') = Index.int (Z.of_nat k)) as He.
  { unfold entity, w', inserted. cbn. rewrite fold_update_notin.
    - by rewrite update_same.
    - intros Hin. by apply (Hfresh this), Hdrop. }
  assert (forall x, x ∈ drop k l ->
            Entity._siblingIndex (entity x w')
            = Index.add (Entity._siblingIndex (entity x w)) 1) as Hshift.
  { intros x Hx. unfold entity, w', inserted. cbn.
    rewrite fold_update_in by done. cbn. rewrite update_other; [done |].
    intros ->. by apply (Hfresh this), Hdrop. }
  assert (forall x, x <> e -> x ∉ drop k l ->
            Entity._siblingIndex (entity x w')
            = Entity._siblingIndex (entity x w)) as Hstay.
  { intros x Hne Hx. unfold entity, w', inserted. cbn.
    rewrite fold_update_notin by done. by rewrite update_other. }
  (* where the entities of the new list come from *)
  assert (forall i x, (take k l ++ e :: drop k l) !! i = Some x ->
            (i < k)%nat /\ l !! i = Some x /\ x <> e /\ x ∉ drop k l \/
            i = k /\ x = e \/
            (k < i)%nat /\ l !! Nat.pred i = Some x /\ x <> e /\ x ∈ drop k l) as Hl'.
  { intros i x Hx. apply lookup_app_Some in Hx as [Hx | [Hge Hx]].
    - apply lookup_take_Some in Hx as [Hx Hlt]. left. repeat split; try done.
      + intros ->. by apply (Hfresh this), (list_elem_of_lookup_2 _ i).
      + intros [j Hj]%list_elem_of_lookup. rewrite lookup_drop in Hj.
        pose proof (NoDup_lookup _ _ _ _ Hnd Hx Hj). lia.
    - rewrite length_take in Hge, Hx.
      replace (k `min` List.length l)%nat with k in * by lia.
      apply lookup_cons_Some in Hx as [[Hi ->] | [Hlt Hx]].
      + right. left. split; [lia | done].
      + right. right. rewrite lookup_drop in Hx.
        replace (k + (i - k - 1))%nat with (Nat.pred i) in Hx by lia.
        repeat split; try done; [lia | |].
        * intros ->. by apply (Hfresh this), (list_elem_of_lookup_2 _ (Nat.pred i)).
        * apply list_elem_of_lookup. exists (i - k - 1)%nat. rewrite lookup_drop.
          by replace (k + (i - k - 1))%nat with (Nat.pred i) by lia. }
  assert (forall sc, sc <> this -> rootEntities sc w' = rootEntities sc w) as Hother.
  { intros sc Hne. unfold w', inserted. rewrite rootEntities_with.
    by rewrite decide_False. }
  assert (rootEntities this w' = take k l ++ e :: drop k l) as Hthis.
  { unfold w', inserted. rewrite rootEntities_with. by rewrite decide_True. }
  split; [| split; [| split; [| split; [| split; [done | split; [done |]]]]]].
  - (* positions *)
    intros sc i x Hx. destruct (Hsame x) as (_ & -> & _ & ->).
    destruct (decide (sc = this)) as [-> | Hsc].
    + rewrite Hthis in Hx.
      apply Hl' in Hx as [(Hlt & Hx & Hne & Hnot) | [[-> ->] | (Hlt & Hx & Hne & Hin)]].
      * rewrite Hstay by done. by apply (Hidx this i).
      * done.
      * rewrite Hshift by done. apply Hidx in Hx as (Hx & ? & ?).
        rewrite Hx. cbn. split; [f_equal; lia | done].
    + rewrite Hother in Hx by done.
      rewrite Hstay; [by apply (Hidx sc i) | |].
      * intros ->. by apply (Hfresh sc), (list_elem_of_lookup_2 _ i).
      * intros [j Hj]%Hdrop%list_elem_of_lookup. apply Hown in Hx, Hj. congruence.
  - (* links *)
    split.
    + intros x. destruct (Hsame x) as (_ & -> & _ & ->). apply Hroot.
    + intros x. destruct (Hsame x) as (_ & _ & _ & ->). intros Hx.
      destruct (decide (x = e)) as [-> | Hne].
      { rewrite He. eexists. split; [done | lia]. }
      destruct (decide (x ∈ drop k l)) as [Hin | Hnin].
      * rewrite Hshift by done. destruct (Hlow x Hx) as (z & -> & Hz). cbn.
        eexists. split; [done | lia].
      * rewrite Hstay by done. by apply Hlow.
  - (* owners *)
    intros sc i x Hx Hne. destruct (Hsame x) as (_ & _ & -> & _).
    destruct (decide (sc = this)) as [-> | Hsc].
    + rewrite Hthis in Hx.
      apply Hl' in Hx as [(_ & Hx & _) | [[_ ->] | (_ & Hx & _)]];
        [by eapply Hown | done | by eapply Hown].
    + rewrite Hother in Hx by done. by eapply Hown.
  - intros sc He'. destruct (decide (sc = this)) as [-> | Hsc]; [done |].
    rewrite Hother in He' by done. by apply Hfresh in He'.
  - intros sc. unfold w', inserted, with_rootEntities. cbn. by case_decide; subst.
Qed.

End SceneInsert.

(** ** The calls keep the world well formed *)

Section SceneCalls.
Import Scene.
Context `{EntityMethods}.

Implicit Types (l : list EntityRef) (h : EntityStore) (w : World).

Lemma post_bind {A B : Type} (m : M A) (k : A -> M B) w
    (Q : World -> Completion B -> Prop) :
  post m w (fun w' c =>
              match c with
              | Return a => post (k a) w' Q
              | Throw e => Q w' (Throw e)
              end) ->
  post (bind m k) w Q.
Proof. unfold post, bind. by destruct (m w) as [w' [a | e]]. Qed.

Lemma post_gets {A : Type} (f : World -> A) w (Q : World -> Completion A -> Prop) :
  Q w (Return (f w)) -> post (gets f) w Q.
Proof. done. Qed.

Lemma post_conseq {A : Type} (m : M A) w (Q Q' : World -> Completion A -> Prop) :
  post m w Q -> (forall w' c, Q w' c -> Q' w' c) -> post m w Q'.
Proof. unfold post. auto. Qed.

(** Worlds that differ only in what the invariant does not read. *)
Lemma well_formed_same w w' :
  well_formed w ->
  (forall x, same_fields w w' x /\
             Entity._siblingIndex (entity x w') = Entity._siblingIndex (entity x w)) ->
  (forall sc, rootEntities sc w' = rootEntities sc w) ->
  well_formed w'.
Proof.
  intros (Hidx & Hown & Hroot & Hlow) Hsame Hroots.
  split; [| split; [| split]].
  - intros sc i x Hx. rewrite Hroots in Hx.
    destruct (Hsame x) as ((_ & -> & _ & ->) & ->). by apply (Hidx sc i).
  - intros sc i x Hx. rewrite Hroots in Hx.
    destruct (Hsame x) as ((_ & _ & -> & _) & _). by apply (Hown sc i).
  - intros x. destruct (Hsame x) as ((_ & -> & _ & ->) & _). apply Hroot.
  - intros x. destruct (Hsame x) as ((_ & _ & _ & ->) & ->). apply Hlow.
Qed.

Lemma processActive_well_formed (e : EntityRef) w :
  well_formed w ->
  well_formed (mkWorld (_processActive e (entities w)) (scenes w)).
Proof.
  intros Hwf. apply (well_formed_same w); [done | | done].
  intros x. unfold same_fields, entity. cbn.
  destruct (processActive_keeps e (entities w) x) as (? & ? & ? & ? & ?). done.
Qed.

Lemma processInActive_well_formed (e : EntityRef) w :
  well_formed w ->
  well_formed (mkWorld (_processInActive e (entities w)) (scenes w)).
Proof.
  intros Hwf. apply (well_formed_same w); [done | | done].
  intros x. unfold same_fields, entity. cbn.
  destruct (processInActive_keeps e (entities w) x) as (? & ? & ? & ? & ?). done.
Qed.

Lemma promoted_well_formed (e : EntityRef) w :
  well_formed w ->
  well_formed (promoted e w) /\
  Entity._isRoot (entity e (promoted e w)) = true /\
  Entity._parent (entity e (promoted e w)) = None /\
  (forall x, Entity._scene (entity x (promoted e w)) = Entity._scene (entity x w)) /\
  (forall sc, scenes (promoted e w) sc = scenes w sc) /\
  (Entity._isRoot (entity e w) = false -> forall sc, e ∉ rootEntities sc (promoted e w)).
Proof.
  intros Hwf. pose proof Hwf as (Hidx & Hown & Hroot & Hlow). unfold promoted.
  destruct (Entity._isRoot (entity e w)) eqn:HisRoot.
  { split; [done |]. split; [done |]. split; [by apply Hroot | done]. }
  set (h1 := update e (Entity.set_isRoot true) (entities w)).
  set (w' := mkWorld (_removeFromParent e h1) (scenes w)).
  assert (forall x, Entity._parent (h1 x) = Entity._parent (entities w x) /\
                    Entity._siblingIndex (h1 x) = Entity._siblingIndex (entities w x) /\
                    Entity._scene (h1 x) = Entity._scene (entities w x)) as Hh1.
  { intros x. unfold h1. by rewrite !update_keeps. }
  assert (forall x, x <> e -> h1 x = entities w x) as Hh1o.
  { intros x Hne. unfold h1. by rewrite update_other. }
  assert (forall sc i x, rootEntities sc w !! i = Some x -> x <> e) as Hfresh.
  { intros sc i x Hx ->. apply Hidx in Hx as (_ & Hx & _).
    unfold entity in *. congruence. }
  assert (forall x, Entity._scene (entity x w') = Entity._scene (entity x w)) as Hsc.
  { intros x. unfold entity, w'. cbn.
    destruct (removeFromParent_keeps e h1 x) as (_ & _ & ->). apply Hh1. }
  assert (forall x, Entity._isRoot (entity x w')
                    = if decide (x = e) then true else Entity._isRoot (entity x w)) as Hir.
  { intros x. unfold entity, w'. cbn.
    destruct (removeFromParent_keeps e h1 x) as (_ & -> & _). unfold h1, update.
    by case_decide. }
  assert (Entity._parent (entity e w') = None) as Hpe
    by apply removeFromParent_detaches.
  assert (forall x, Entity._parent (entity x w) = None ->
            Entity._parent (entity x w') = None /\
            Entity._siblingIndex (entity x w') = Entity._siblingIndex (entity x w)) as Hfr.
  { intros x Hx. unfold entity, w' in *. cbn.
    destruct (Hh1 x) as (Hp & Hi & _).
    destruct (removeFromParent_frame e h1 x) as [-> ->]; [congruence | done]. }
  split; [split; [| split; [| split]] |].
  - intros sc i x Hx. change (rootEntities sc w') with (rootEntities sc w) in Hx.
    pose proof (Hidx _ _ _ Hx) as (Hi & Hr & Hp).
    destruct (Hfr x Hp) as [-> ->]. rewrite Hir.
    by rewrite decide_False by by eapply Hfresh.
  - intros sc i x Hx. rewrite Hsc. by apply (Hown sc i).
  - intros x. rewrite Hir. case_decide; [by subst |].
    intros Hx. by apply Hfr, Hroot.
  - intros x Hx.
    destruct (Entity._parent (entity x w)) as [p |] eqn:Hp.
    + unfold entity, w' in *. cbn in *.
      rewrite removeFromParent_index; [by exists (-1) | | done].
      destruct (Hh1 x) as (-> & _). congruence.
    + destruct (Hfr x Hp) as [_ ->]. by apply Hlow.
  - repeat split; try done.
    + rewrite Hir. by rewrite decide_True.
    + intros _ sc [i Hi]%list_elem_of_lookup. by eapply Hfresh.
Qed.

Lemma promote_runs (e : EntityRef) w :
  when (negb (Entity._isRoot (entity e w)))
    (bind (modify_entity e (Entity.set_isRoot true))
          (fun _ => modify_entities (_removeFromParent e))) w
  = (promoted e w, Return tt).
Proof. unfold promoted. by destruct (Entity._isRoot (entity e w)). Qed.

(** The entity is put into the list of [this] and owned by it. *)
Lemma addToRootEntityList_well_formed (this : SceneRef) (index : option Z)
    (e : EntityRef) w (own : bool) :
  well_formed w ->
  (forall sc, e ∉ rootEntities sc w) ->
  Entity._isRoot (entity e w) = true ->
  Entity._parent (entity e w) = None ->
  (if own then True else Entity._scene (entity e w) = Some this) ->
  post (bind (_addToRootEntityList this (Index.int <$> index) e)
             (fun _ => when own (modify_entities (_traverseSetOwnerScene e (Some this)))))
       w (fun w' _ => well_formed w').
Proof.
  intros Hwf Hfresh HisRoot Hparent Hscene. apply post_bind. unfold post.
  assert (forall k, (k <= List.length (rootEntities this w))%nat ->
            well_formed
              (when own (modify_entities (_traverseSetOwnerScene e (Some this)))
                 (inserted this k e w)).1) as Hins.
  { intros k Hk.
    destruct (inserted_well_formed this k e w Hwf Hk Hfresh HisRoot Hparent)
      as (Hidx & Hlinks & Hown & Honly & Hsame & _).
    set (w' := inserted this k e w) in *. clearbody w'.
    destruct own; cbn.
    - set (h' := _traverseSetOwnerScene e (Some this) (entities w')).
      assert (forall x,
                Entity._isRoot (h' x) = Entity._isRoot (entity x w') /\
                Entity._siblingIndex (h' x) = Entity._siblingIndex (entity x w') /\
                Entity._parent (h' x) = Entity._parent (entity x w')) as Hk'.
      { intros x.
        destruct (traverseSetOwnerScene_keeps e (Some this) (entities w') x)
          as (_ & ? & ? & ?). done. }
      split; [| split; [| split]].
      + intros sc i x Hx. unfold entity. cbn.
        destruct (Hk' x) as (-> & -> & ->). by apply (Hidx sc i).
      + intros sc i x Hx. unfold entity. cbn.
        destruct (decide (x = e)) as [-> | Hne].
        * unfold h'. rewrite traverseSetOwnerScene_sets. f_equal. symmetry.
          apply Honly. by eapply list_elem_of_lookup_2.
        * unfold h'. rewrite traverseSetOwnerScene_frame; [by eapply Hown | done |].
          by eapply Hidx.
      + intros x. unfold entity. cbn. destruct (Hk' x) as (-> & _ & ->).
        apply Hlinks.
      + intros x. unfold entity. cbn. destruct (Hk' x) as (_ & -> & ->).
        apply Hlinks.
    - split; [done | split; [| done]].
      intros sc i x Hx. destruct (decide (x = e)) as [-> | Hne].
      + destruct (Hsame e) as (_ & _ & -> & _). rewrite Hscene. f_equal.
        symmetry. apply Honly. by eapply list_elem_of_lookup_2.
      + by eapply Hown. }
  destruct index as [index |]; cbn [fmap option_fmap option_map].
  - destruct (decide (index < 0 \/ index > JSArray.length (rootEntities this w)))
      as [Hout | Hin].
    + rewrite addToRootEntityList_outside; [done |].
      destruct Hout; [left | right]; apply bool_decide_eq_true_2; lia.
    + rewrite addToRootEntityList_insert by lia. cbn [fst snd]. unfold post.
      apply Hins. unfold JSArray.length in *. lia.
  - rewrite addToRootEntityList_push. cbn [fst snd]. unfold post. by apply Hins.
Qed.

Lemma addRootEntity_well_formed (this : SceneRef) (index : option Z)
    (e : EntityRef) w :
  well_formed w -> well_formed (addRootEntity this (Index.int <$> index) e w).1.
Proof.
  intros Hwf.
  change (post (addRootEntity this (Index.int <$> index) e) w
            (fun w' _ => well_formed w')).
  unfold addRootEntity. apply post_bind, post_gets.
  apply post_bind. unfold post at 1. fold (entity e w). rewrite promote_runs.
  cbn [fst snd].
  destruct (promoted_well_formed e w Hwf)
    as (Hwf1 & HisRoot1 & Hparent1 & Hscene1 & Hscenes1 & Hfresh1).
  set (w1 := promoted e w) in *.
  apply post_bind, post_gets. fold (entity e w1).
  (* the activity processing at the end keeps the links *)
  assert (forall w2, well_formed w2 ->
            post
              (bind (gets (fun w => _isActiveInEngine (scenes w this)))
                 (fun isActiveInEngine =>
                    bind (gets (entity e))
                      (fun e0 =>
                         if isActiveInEngine
                         then when (negb (Entity._isActiveInHierarchy e0)
                                    && Entity._isActive e0)
                                (modify_entities (_processActive e))
                         else when (Entity._isActiveInHierarchy e0)
                                (modify_entities (_processInActive e)))))
              w2 (fun w' _ => well_formed w')) as Hend.
  { intros w2 Hwf2. apply post_bind, post_gets, post_bind, post_gets.
    destruct (_isActiveInEngine _); unfold post, when.
    - destruct (_ && _); [by apply processActive_well_formed | done].
    - destruct (Entity._isActiveInHierarchy _);
        [by apply processInActive_well_formed | done]. }
  apply post_bind.
  eapply post_conseq with (Q := fun w' _ => well_formed w').
  2:{ intros w' [[] | err] Hw'; [by apply Hend | done]. }
  case_decide as Hold.
  - (* the entity comes from elsewhere *)
    apply post_bind.
    destruct (Entity._scene (entity e w1)) as [old |] eqn:Hscene.
    + destruct (Entity._isRoot (entity e w)) eqn:HisRoot; cbn [when].
      * pose proof (removeFromEntityList_well_formed old e w1 Hwf1 Hscene HisRoot1)
          as (Hwf2 & Hsame2 & _ & _ & Hfresh2).
        unfold post at 1.
        destruct (_removeFromEntityList old e w1) as [w2 [[] | err]]; cbn in *; [| done].
        apply addToRootEntityList_well_formed with (own := true); try done.
        -- by apply Hfresh2.
        -- destruct (Hsame2 e) as (_ & -> & _). done.
        -- destruct (Hsame2 e) as (_ & _ & _ & ->). done.
      * unfold post at 1. cbn.
        apply addToRootEntityList_well_formed with (own := true); try done.
        by apply Hfresh1.
    + unfold post at 1. cbn.
      apply addToRootEntityList_well_formed with (own := true); try done.
      intros sc [i Hi]%list_elem_of_lookup.
      destruct Hwf1 as (_ & Hown1 & _). apply Hown1 in Hi. congruence.
  - (* the entity already belongs to this scene *)
    destruct (Entity._isRoot (entity e w)) eqn:HisRoot; cbn [when negb]; [done |].
    pose proof (addToRootEntityList_well_formed this index e w1 false Hwf1
                  (Hfresh1 eq_refl) HisRoot1 Hparent1 Hold) as Hadd.
    revert Hadd. unfold post, bind, when.
    by destruct (_addToRootEntityList this (Index.int <$> index) e w1)
      as [w2 [[] | err]].
Qed.

Lemma removeRootEntity_well_formed (this : SceneRef) (e : EntityRef) w :
  well_formed w -> well_formed (removeRootEntity this e w).1.
Proof.
  intros Hwf.
  change (post (removeRootEntity this e) w (fun w' _ => well_formed w')).
  unfold removeRootEntity. apply post_bind, post_gets.
  destruct (Entity._isRoot (entity e w)) eqn:HisRoot; cbn [andb when]; [| done].
  case_bool_decide as Hscene; cbn [when]; [| done].
  apply post_bind.
  pose proof (removeFromEntityList_well_formed this e w Hwf Hscene HisRoot)
    as (Hwf2 & _ & _ & _ & Hfresh2).
  unfold post at 1.
  destruct (_removeFromEntityList this e w) as [w2 [[] | err]]; cbn in *; [| done].
  specialize (Hfresh2 eq_refl).
  apply post_bind. unfold post at 1. cbn.
  set (w3 := mkWorld (update e (Entity.set_isRoot false) (entities w2)) (scenes w2)).
  assert (well_formed w3 /\ forall sc, e ∉ rootEntities sc w3) as [Hwf3 Hfresh3].
  { destruct Hwf2 as (Hidx & Hown & Hroot & Hlow). split; [| done].
    assert (forall sc i x, rootEntities sc w3 !! i = Some x ->
              entity x w3 = entity x w2) as Hsame.
    { intros sc i x Hx. unfold entity, w3. cbn. apply update_other.
      intros ->. by apply (Hfresh2 sc), (list_elem_of_lookup_2 _ i). }
    split; [| split; [| split]].
    - intros sc i x Hx. rewrite (Hsame _ _ _ Hx). by apply (Hidx sc i).
    - intros sc i x Hx. rewrite (Hsame _ _ _ Hx). by apply (Hown sc i).
    - intros x. unfold entity, w3, update. cbn. case_decide; [done | apply Hroot].
    - intros x. unfold entity, w3. cbn. rewrite !update_keeps by done. apply Hlow. }
  clearbody w3.
  apply post_bind, post_gets, post_bind, post_gets, post_bind.
  eapply post_conseq with (Q := fun w' c => c = Return tt /\ well_formed w' /\
                                            forall sc, e ∉ rootEntities sc w').
  { unfold post, when. destruct (_ && _); cbn; [| done].
    split; [done |]. split; [by apply processInActive_well_formed | done]. }
  intros w4 c (-> & Hwf4 & Hfresh4). unfold post. cbn.
  destruct Hwf4 as (Hidx & Hown & Hroot & Hlow).
  set (h' := _traverseSetOwnerScene e None (entities w4)).
  assert (forall x,
            Entity._isRoot (h' x) = Entity._isRoot (entity x w4) /\
            Entity._siblingIndex (h' x) = Entity._siblingIndex (entity x w4) /\
            Entity._parent (h' x) = Entity._parent (entity x w4)) as Hk'.
  { intros x.
    destruct (traverseSetOwnerScene_keeps e None (entities w4) x)
      as (_ & ? & ? & ?). done. }
  split; [| split; [| split]].
  - intros sc i x Hx. unfold entity. cbn.
    destruct (Hk' x) as (-> & -> & ->). by apply (Hidx sc i).
  - intros sc i x Hx. unfold entity. cbn.
    unfold h'. rewrite traverseSetOwnerScene_frame; [by eapply Hown | |].
    + intros ->. by apply (Hfresh4 sc), (list_elem_of_lookup_2 _ i).
    + by eapply Hidx.
  - intros x. unfold entity. cbn. destruct (Hk' x) as (-> & _ & ->). apply Hroot.
  - intros x. unfold entity. cbn. destruct (Hk' x) as (_ & -> & ->). apply Hlow.
Qed.

Lemma calls_well_formed (cs : list Call) w :
  Forall integral cs -> well_formed w -> well_formed (calls cs w).
Proof.
  revert w. induction cs as [| c cs IH]; intros w Hcs Hwf; cbn; [done |].
  apply Forall_cons in Hcs as [Hc Hcs].
  apply IH; [done |]. destruct c as [this index e | this e]; cbn.
  - destruct index as [[index | x] |]; [| done |].
    + by apply (addRootEntity_well_formed this (Some index)).
    + by apply (addRootEntity_well_formed this None).
  - by apply removeRootEntity_well_formed.
Qed.



End SceneCalls.

(** ** Root entities: examples, errors and paths *)

Section SceneExamples.
Import Scene.

Lemma sample_well_formed : well_formed Sample.world.
Proof.
  split; [| split; [| split]].
  - intros sc i x Hx. cbn in Hx. by rewrite lookup_nil in Hx.
  - intros sc i x Hx. cbn in Hx. by rewrite lookup_nil in Hx.
  - intros x. by destruct x as [| [| [| [| [| x]]]]].
  - intros x Hx. destruct x as [| [| [| [| [| x]]]]]; try done; by exists (-1).
Qed.



(** C5 as stated fails.  Entity 1 is a child of entity 0 and no root
    entity; adding it at index 5 to the empty scene 0 throws the
    out-of-bounds error, but by then the entity has been flagged as a
    root and detached from its parent.  And once entity 0 is a root
    entity of scene 0, adding it again at index 5 throws nothing. *)
Lemma addRootEntity_out_of_range_changes_entity :
  let r := addRootEntity (H := simpleEntities 8) 0%nat (Some (Index.int 5)) 1%nat
             Sample.world in
  let w0 := calls (H := simpleEntities 8) [AddRootEntity 0%nat None 0%nat] Sample.world in
  (r.2 = Throw (OutOfBounds (Index.int 5) 0) /\
   Entity._isRoot (entity 1%nat Sample.world) = false /\
   Entity._isRoot (entity 1%nat r.1) = true /\
   Entity._parent (entity 1%nat Sample.world) = Some 0%nat /\
   Entity._parent (entity 1%nat r.1) = None) /\
  (rootEntities 0%nat w0 = [0%nat] /\
   (addRootEntity (H := simpleEntities 8) 0%nat (Some (Index.int 5)) 0%nat w0).2
   = Return tt).
Proof. vm_compute. repeat split. Qed.

End SceneExamples.

Section SceneErrors.
Import Scene.
Context `{EntityMethods}.

(** C5 (as amended).  In a well-formed world, let the entity not be a
    root entity of the scene already, and, if it is a root of another
    scene, let it be in that scene's root list.  Then [addRootEntity]
    with an index that is negative or greater than the root-entity count
    throws the out-of-bounds error; when it does, the root list of the
    scene and the owning scene of the entity are unchanged, while the
    entity has already been made a root: its root flag is set and it has
    no parent.  The index is any number, an integer or not, of which one
    of the two comparisons of the code holds. *)
Theorem addRootEntity_out_of_range (this : SceneRef) (index : Index.t)
    (e : EntityRef) (w : World) :
  well_formed w ->
  Index.lt index (Index.int 0) = true \/
  Index.lt (Index.int (JSArray.length (rootEntities this w))) index = true ->
  ~ (Entity._isRoot (entity e w) = true /\ Entity._scene (entity e w) = Some this) ->
  (forall old, Entity._isRoot (entity e w) = true ->
               Entity._scene (entity e w) = Some old -> e ∈ rootEntities old w) ->
  let r := addRootEntity this (Some index) e w in
  r.2 = Throw (OutOfBounds index (JSArray.length (rootEntities this w))) /\
  rootEntities this r.1 = rootEntities this w /\
  Entity._scene (entity e r.1) = Entity._scene (entity e w) /\
  Entity._isRoot (entity e r.1) = true /\
  Entity._parent (entity e r.1) = None.
Proof.
  intros Hwf Hout Hnot Hlisted.
  set (Q := fun (w' : World) (c : Completion unit) =>
              c = Throw (OutOfBounds index (JSArray.length (rootEntities this w))) /\
              rootEntities this w' = rootEntities this w /\
              Entity._scene (entity e w') = Entity._scene (entity e w) /\
              Entity._isRoot (entity e w') = true /\
              Entity._parent (entity e w') = None).
  change (post (addRootEntity this (Some index) e) w Q).
  (* where the list of [this] and the entity are as wanted, adding throws *)
  assert (forall w1 (k : unit -> M unit),
            rootEntities this w1 = rootEntities this w ->
            Entity._scene (entity e w1) = Entity._scene (entity e w) ->
            Entity._isRoot (entity e w1) = true ->
            Entity._parent (entity e w1) = None ->
            post (bind (_addToRootEntityList this (Some index) e) k) w1 Q) as Hadd.
  { intros w1 k Hroots Hscene HisRoot Hparent. apply post_bind. unfold post.
    rewrite addToRootEntityList_outside by by rewrite Hroots.
    cbn [fst snd]. unfold Q. by rewrite Hroots. }
  unfold addRootEntity. apply post_bind, post_gets.
  apply post_bind. unfold post at 1. fold (entity e w). rewrite promote_runs.
  cbn [fst snd].
  destruct (promoted_well_formed e w Hwf)
    as (Hwf1 & HisRoot1 & Hparent1 & Hscene1 & Hscenes1 & Hfresh1).
  assert (rootEntities this (promoted e w) = rootEntities this w) as Hroots1.
  { unfold rootEntities. by rewrite Hscenes1. }
  set (w1 := promoted e w) in *. clearbody w1.
  apply post_bind, post_gets. fold (entity e w1).
  apply post_bind.
  eapply post_conseq with (Q := fun w' c => Q w' (Throw (OutOfBounds index
                               (JSArray.length (rootEntities this w)))) /\
                             c = Throw (OutOfBounds index
                               (JSArray.length (rootEntities this w)))).
  2:{ by intros w' c [HQ ->]. }
  assert (forall w1 (k : unit -> M unit),
            rootEntities this w1 = rootEntities this w ->
            Entity._scene (entity e w1) = Entity._scene (entity e w) ->
            Entity._isRoot (entity e w1) = true ->
            Entity._parent (entity e w1) = None ->
            post (bind (_addToRootEntityList this (Some index) e) k) w1
              (fun w' c => Q w' (Throw (OutOfBounds index
                               (JSArray.length (rootEntities this w)))) /\
                           c = Throw (OutOfBounds index
                               (JSArray.length (rootEntities this w))))) as Hadd'.
  { intros w2 k Hroots Hscene HisRoot Hparent.
    specialize (Hadd w2 k Hroots Hscene HisRoot Hparent).
    revert Hadd. unfold post, Q. intros (Hc & ?). by rewrite Hc. }
  case_decide as Hold.
  - apply post_bind.
    destruct (Entity._scene (entity e w1)) as [old |] eqn:Hscene.
    + destruct (Entity._isRoot (entity e w)) eqn:HisRoot; cbn [when].
      * (* a root of another scene: it leaves that scene first *)
        assert (old <> this) as Hne by congruence.
        pose proof (removeFromEntityList_well_formed old e w1 Hwf1 Hscene HisRoot1)
          as (_ & Hsame2 & Hother2 & _ & _).
        assert (exists i : nat,
                  Entity._siblingIndex (entity e w1) = Index.int (Z.of_nat i))
          as [i Hpos].
        { rewrite Hscene1 in Hscene.
          pose proof (Hlisted old eq_refl Hscene) as [i Hi]%list_elem_of_lookup.
          assert (rootEntities old w1 !! i = Some e) as Hi1.
          { unfold rootEntities in *. by rewrite Hscenes1. }
          destruct Hwf1 as (Hidx1 & _). apply Hidx1 in Hi1 as [Hi1 _]. by exists i. }
        unfold post at 1. revert Hsame2 Hother2.
        rewrite (removeFromEntityList_returns old e (Z.of_nat i) w1 Hpos) by lia.
        cbn [fst snd].
        intros Hsame2 Hother2.
        destruct (Hsame2 e) as (_ & HR & HS & HP).
        apply Hadd'.
        -- rewrite Hother2 by done. done.
        -- rewrite HS, Hscene. by rewrite <- Hscene1.
        -- by rewrite HR.
        -- by rewrite HP.
      * unfold post at 1. cbn. by apply Hadd'.
    + unfold post at 1. cbn. by apply Hadd'.
  - destruct (Entity._isRoot (entity e w)) eqn:HisRoot; cbn [when negb].
    + exfalso. apply Hnot. split; [done |]. by rewrite <- Hscene1.
    + specialize (Hadd' w1 (fun _ => ret tt) Hroots1 (Hscene1 e) HisRoot1 Hparent1).
      revert Hadd'. unfold post, bind.
      by destruct (_addToRootEntityList this (Some index) e w1) as [w2 [[] | err]].
Qed.

End SceneErrors.

Section SceneErrorsWitness.
Import Scene.

Lemma addRootEntity_out_of_range_witness :
  (addRootEntity (H := simpleEntities 8) 0%nat (Some (Index.int 5)) 1%nat
     Sample.world).2
  = Throw (OutOfBounds (Index.int 5) 0).
Proof.
  apply (addRootEntity_out_of_range (H := simpleEntities 8) 0%nat (Index.int 5) 1%nat
           Sample.world).
  - exact sample_well_formed.
  - right. vm_compute. reflexivity.
  - intros [Hroot _]. vm_compute in Hroot. discriminate.
  - intros old Hroot. vm_compute in Hroot. discriminate.
Defined.

End SceneErrorsWitness.
(** ** Paths *)

Section Splitting.

Implicit Types (separator c : ascii) (s piece : string) (pieces : list string).

Local Abbreviation join separator pieces :=
  (String.concat (String separator EmptyString) pieces).

Lemma String_truthy_nonempty s : String_truthy s = bool_decide (s <> EmptyString).
Proof. by destruct s. Qed.

Lemma filter_String_truthy pieces :
  List.filter String_truthy pieces = Scene.discard_empty pieces.
Proof.
  unfold Scene.discard_empty. apply filter_ext. intros s.
  apply String_truthy_nonempty.
Qed.

Lemma join_cons separator c s pieces :
  join separator (String c s :: pieces) = String c (join separator (s :: pieces)).
Proof. by destruct pieces. Qed.

Lemma String_split_nonempty separator s : String_split separator s <> [].
Proof.
  destruct s as [| c s]; cbn; [done |].
  case_decide; [done |]. by destruct (String_split separator s).
Qed.

(** Joining the pieces of a string gives the string back. *)
Lemma join_String_split separator s :
  join separator (String_split separator s) = s.
Proof.
  induction s as [| c s IH]; cbn [String_split]; [done |].
  pose proof (String_split_nonempty separator s) as Hne.
  case_decide as Hc.
  - subst c. destruct (String_split separator s) as [| x xs]; [done |].
    cbn [String.concat]. cbn. by rewrite <- IH.
  - destruct (String_split separator s) as [| x xs]; [done |].
    by rewrite join_cons, IH.
Qed.

(** No piece holds the separator. *)
Lemma String_split_free separator s piece :
  piece ∈ String_split separator s ->
  separator ∉ String.list_ascii_of_string piece.
Proof.
  revert piece. induction s as [| c s IH]; intros piece; cbn [String_split].
  - intros ->%list_elem_of_singleton. apply not_elem_of_nil.
  - case_decide as Hc.
    + intros [-> | Hin]%elem_of_cons; [apply not_elem_of_nil | by apply IH].
    + pose proof (String_split_nonempty separator s) as Hne.
      destruct (String_split separator s) as [| x xs]; [done |].
      intros [-> | Hin]%elem_of_cons.
      * cbn. apply not_elem_of_cons. split; [congruence |].
        apply IH. by left.
      * apply IH. by right.
Qed.

(** The pieces are the only way to cut the string at its separators. *)
Lemma String_split_join separator piece pieces :
  (forall x, x ∈ piece :: pieces ->
             separator ∉ String.list_ascii_of_string x) ->
  String_split separator (join separator (piece :: pieces)) = piece :: pieces.
Proof.
  revert piece. induction pieces as [| next pieces IH]; intros piece Hfree.
  - assert (separator ∉ String.list_ascii_of_string piece) as Hpiece
      by (apply Hfree; left).
    clear Hfree. cbn [String.concat].
    induction piece as [| c s IHs]; [done |].
    cbn in Hpiece. apply not_elem_of_cons in Hpiece as [Hc Hs].
    cbn [String_split]. rewrite decide_False by congruence.
    by rewrite (IHs Hs).
  - assert (separator ∉ String.list_ascii_of_string piece) as Hpiece
      by (apply Hfree; left).
    assert (forall x, x ∈ next :: pieces ->
                      separator ∉ String.list_ascii_of_string x) as Hrest.
    { intros x Hx. apply Hfree. by right. }
    clear Hfree.
    induction piece as [| c s IHs].
    + change (String_split separator (String separator (join separator (next :: pieces)))
              = EmptyString :: next :: pieces).
      cbn [String_split]. rewrite decide_True by done. by rewrite (IH next Hrest).
    + cbn in Hpiece. apply not_elem_of_cons in Hpiece as [Hc Hs].
      rewrite join_cons. cbn [String_split]. rewrite decide_False by congruence.
      by rewrite (IHs Hs).
Qed.

(** [path.split("/")] is the splitting of the specification. *)
Lemma String_split_split_on separator s pieces :
  Scene.split_on separator s pieces <-> pieces = String_split separator s.
Proof.
  split.
  - intros (Hne & Hfree & <-). destruct pieces as [| piece pieces]; [done |].
    symmetry. by apply String_split_join.
  - intros ->. split; [apply String_split_nonempty |]. split.
    + intros piece. apply String_split_free.
    + apply join_String_split.
Qed.

End Splitting.

Section ScenePaths.
Import Scene.
Context `{EntityMethods}.

Implicit Types (h : EntityStore) (roots : list EntityRef) (splits : list string).

Let resolve h (found : option EntityRef) (segment : string) : option EntityRef :=
  match found with
  | Some parent => _findChildByName h parent segment
  | None => None
  end.

Lemma foldl_resolve_None h splits : foldl (resolve h) None splits = None.
Proof. by induction splits. Qed.

Lemma findEntityByPath_walk_foldl h (findEntity : EntityRef) splits :
  findEntityByPath_walk h findEntity splits = foldl (resolve h) (Some findEntity) splits.
Proof.
  revert findEntity. induction splits as [| split splits IH]; intros findEntity; cbn.
  - done.
  - destruct (_findChildByName h findEntity split) as [child |]; [apply IH |].
    by rewrite foldl_resolve_None.
Qed.

(** Without a segment, the loose comparison with [undefined] lets the
    first root entity without a name through. *)
Lemma findEntityByPath_roots_nil h roots :
  findEntityByPath_roots h roots []
  = snd <$> list_find (fun r => Entity.name (h r) = None) roots.
Proof.
  induction roots as [| r roots IH]; cbn; [done |].
  destruct (decide (Entity.name (h r) = None)) as [Hname | Hname].
  - by rewrite decide_False by (intros Hne; by apply Hne).
  - rewrite decide_True by done. rewrite IH.
    by destruct (list_find _ roots) as [[i root] |].
Qed.

Lemma findEntityByPath_roots_find h roots (first : string) (remaining : list string) :
  findEntityByPath_roots h roots (first :: remaining)
  = match list_find (fun r => Entity.name (h r) = Some first) roots with
    | None => None
    | Some (_, root) => findEntityByPath_walk h root remaining
    end.
Proof.
  induction roots as [| r roots IH]; cbn; [done |].
  destruct (decide (Entity.name (h r) = Some first)) as [Hname | Hname].
  - by rewrite decide_False by (intros Hne; by apply Hne).
  - rewrite decide_True by done. rewrite IH.
    by destruct (list_find _ roots) as [[i root] |].
Qed.

Lemma findEntityByPath_refines (this : SceneRef) (path : string) (w : World) :
  findEntityByPath this path w
  = match discard_empty (String_split "/" path) with
    | [] => snd <$> list_find (fun r => Entity.name (entity r w) = None)
                      (rootEntities this w)
    | first :: remaining => findEntityByPath_spec this (first :: remaining) w
    end.
Proof.
  unfold findEntityByPath, findEntityByPath_spec. rewrite filter_String_truthy.
  destruct (discard_empty _) as [| first remaining].
  - apply findEntityByPath_roots_nil.
  - rewrite findEntityByPath_roots_find. unfold entity.
    destruct (list_find _ _) as [[i root] |]; [| done].
    apply findEntityByPath_walk_foldl.
Qed.

(** C8 (as amended).  Let the path be split on [/] and the empty pieces
    be discarded.  If a segment is left, [findEntityByPath] matches the
    first segment against the names of the root entities in forward
    index order, resolves each remaining segment as the name of a child
    and returns none as soon as a segment fails to resolve.  If no
    segment is left, it returns the first root entity whose name is
    undefined, and none when every root entity has a name.  In
    particular, when [a] is the first root entity named "A", [b] its
    child found under the name "B" and [c] the child of [b] found under
    the name "C", the path "A/B/C" leads to [c]; and when no child of
    [a] is found under the name "X", the path "A/X" leads to none. *)
Theorem findEntityByPath_resolves (this : SceneRef) (w : World) :
  (forall (path : string) (pieces : list string),
      split_on "/" path pieces ->
      findEntityByPath this path w
      = match discard_empty pieces with
        | [] => snd <$> list_find (fun r => Entity.name (entity r w) = None)
                          (rootEntities this w)
        | first :: remaining => findEntityByPath_spec this (first :: remaining) w
        end) /\
  (forall (i : nat) (a b c : EntityRef),
      list_find (fun r => Entity.name (entity r w) = Some "A") (rootEntities this w)
      = Some (i, a) ->
      _findChildByName (entities w) a "B" = Some b ->
      _findChildByName (entities w) b "C" = Some c ->
      findEntityByPath this "A/B/C" w = Some c) /\
  (forall (i : nat) (a : EntityRef),
      list_find (fun r => Entity.name (entity r w) = Some "A") (rootEntities this w)
      = Some (i, a) ->
      _findChildByName (entities w) a "X" = None ->
      findEntityByPath this "A/X" w = None).
Proof.
  split; [| split].
  - intros path pieces ->%String_split_split_on. apply findEntityByPath_refines.
  - intros i a b c Ha Hb Hc. rewrite findEntityByPath_refines.
    assert (discard_empty (String_split "/" "A/B/C") = ["A"; "B"; "C"])
      as -> by reflexivity.
    unfold findEntityByPath_spec. rewrite Ha. cbn [foldl]. by rewrite Hb.
  - intros i a Ha Hx. rewrite findEntityByPath_refines.
    assert (discard_empty (String_split "/" "A/X") = ["A"; "X"])
      as -> by reflexivity.
    unfold findEntityByPath_spec. rewrite Ha. cbn [foldl]. by rewrite Hx.
Qed.

End ScenePaths.

Section ScenePathsWitness.
Import Scene.

Lemma findEntityByPath_resolves_witness :
  let w := calls (H := simpleEntities 8) [AddRootEntity 0%nat None 0%nat] Sample.world in
  findEntityByPath (H := simpleEntities 8) 0%nat "//A/B//C/" w
  = findEntityByPath_spec (H := simpleEntities 8) 0%nat ["A"; "B"; "C"] w /\
  findEntityByPath (H := simpleEntities 8) 0%nat "A/B/C" w = Some 2%nat /\
  findEntityByPath (H := simpleEntities 8) 0%nat "A/X" w = None.
Proof.
  intros w.
  destruct (findEntityByPath_resolves (H := simpleEntities 8) 0%nat w)
    as (Hpath & Habc & Hax).
  split; [| split].
  - apply (Hpath "//A/B//C/" [""; ""; "A"; "B"; ""; "C"; ""]).
    split; [done |]. split; [| reflexivity].
    intros piece Hpiece. apply (bool_decide_unpack _). revert piece Hpiece.
    apply Forall_forall. repeat constructor.
  - apply (Habc 0%nat 0%nat 1%nat 2%nat); reflexivity.
  - apply (Hax 0%nat 0%nat); reflexivity.
Defined.

(** C8 as stated fails for the paths without a segment.  Entity 5 has no
    name.  Once it is a root entity of scene 0, behind the root entity
    "A", the paths "" and "/" lead to it, although there is no segment
    that its name could match: the code compares the name with
    [splits[0]], which is [undefined], by the loose [!=]. *)
Lemma findEntityByPath_without_segment :
  let w := calls (H := simpleEntities 8)
             [AddRootEntity 0%nat None 0%nat; AddRootEntity 0%nat None 5%nat]
             Sample.world in
  rootEntities 0%nat w = [0; 5]%nat /\
  Entity.name (entity 5%nat w) = None /\
  discard_empty (String_split "/" "") = [] /\
  discard_empty (String_split "/" "/") = [] /\
  findEntityByPath (H := simpleEntities 8) 0%nat "" w = Some 5%nat /\
  findEntityByPath (H := simpleEntities 8) 0%nat "/" w = Some 5%nat /\
  findEntityByPath_spec (H := simpleEntities 8) 0%nat [] w = None.
Proof. vm_compute. repeat split. Qed.

End ScenePathsWitness.

(** ** The scene's shader data *)

Section SceneShaderData.

Lemma getSunLightIndex_none (lights : LightManager.State) :
  LightManager._directLights (LightManager.manager lights) = [] ->
  LightManager._getSunLightIndex lights = -1.
Proof. intros Hnone. unfold LightManager._getSunLightIndex. by rewrite Hnone. Qed.

Lemma enableMacro_same (name : string) (value : option string) (d : ShaderData.t) :
  ShaderData.enableMacro name value d !! name = Some (default EmptyString value).
Proof. apply (lookup_insert_eq (M := gmap string)). Qed.

Lemma enableMacro_other (name name' : string) (value : option string)
    (d : ShaderData.t) :
  name <> name' ->
  ShaderData.enableMacro name value d !! name' = d !! name'.
Proof. apply (lookup_insert_ne (M := gmap string)). Qed.

Lemma disableMacro_same (name : string) (d : ShaderData.t) :
  ShaderData.disableMacro name d !! name = None.
Proof. apply (lookup_delete_eq (M := gmap string)). Qed.

(** C10.  When the light manager holds no directional light,
    [Scene._updateShaderData] leaves the cached [_sunLight] as it was,
    and decides the macros against that cached light: if the scene casts
    shadows and the cached light exists with a shadow type other than
    [None], [CASCADED_SHADOW_MAP] is enabled and [SHADOW_MODE] is enabled
    with that shadow type; otherwise [CASCADED_SHADOW_MAP] is disabled. *)
Theorem updateShaderData_keeps_cached_sun_light (lights : LightManager.State)
    (engineMacros : ShaderData.t) (this : Scene.t) :
  LightManager._directLights (LightManager.manager lights) = [] ->
  let this' := Scene._updateShaderData lights engineMacros this in
  Scene._sunLight this' = Scene._sunLight this /\
  match Scene._sunLight this with
  | Some light =>
      let type := shadowType (LightManager.directLight lights light) in
      if Scene.castShadows this && bool_decide (type <> ShadowType_None) then
        Scene.shaderData this' !! "CASCADED_SHADOW_MAP" = Some EmptyString /\
        Scene.shaderData this' !! "SHADOW_MODE" = Some (ShadowType_toString type)
      else Scene.shaderData this' !! "CASCADED_SHADOW_MAP" = None
  | None => Scene.shaderData this' !! "CASCADED_SHADOW_MAP" = None
  end.
Proof.
  intros Hnone. unfold Scene._updateShaderData.
  rewrite (getSunLightIndex_none _ Hnone). rewrite decide_False by (intros Hne; by apply Hne).
  cbn [Scene._sunLight Scene.shaderData]. split; [done |].
  destruct (Scene._sunLight this) as [light |]; cbn [fmap option_fmap option_map].
  - destruct (Scene.castShadows this && _).
    + split; [| apply enableMacro_same].
      rewrite enableMacro_other by done. apply enableMacro_same.
    + apply disableMacro_same.
  - apply disableMacro_same.
Qed.

Lemma updateShaderData_keeps_cached_sun_light_witness :
  let this' := Scene._updateShaderData Sample.noDirectLights ∅ Sample.scene in
  Scene._sunLight this' = Some 1%nat /\
  Scene.shaderData this' !! "SHADOW_MODE" = Some "1".
Proof.
  destruct (updateShaderData_keeps_cached_sun_light Sample.noDirectLights ∅
              Sample.scene eq_refl) as [Hsun Hmacros].
  split; [exact Hsun |]. exact (proj2 Hmacros).
Defined.

End SceneShaderData.

(** ** Render passes *)

Section RenderPasses.
Import BasicRenderPipeline.

Lemma getRenderPass_loop_None (passes : PassStore) (name : string)
    (array : list PassRef) :
  (forall pass, pass ∈ array -> RenderPass.name (passes pass) <> name) ->
  getRenderPass_loop passes name array = None.
Proof.
  induction array as [| pass array IH]; intros Hnone; cbn; [done |].
  rewrite decide_False by apply Hnone, list_elem_of_here.
  apply IH. intros p Hp. by apply Hnone, list_elem_of_further.
Qed.

(** The half of C4 that holds: a name that matches no pass removes
    nothing. *)
Lemma removeRenderPass_unknown_name (passes : PassStore) (name : string) (this : t) :
  (forall pass, pass ∈ _renderPassArray this -> RenderPass.name (passes pass) <> name) ->
  removeRenderPass passes (inl name) this = this.
Proof.
  intros Hnone. unfold removeRenderPass, getRenderPass.
  by rewrite getRenderPass_loop_None.
Qed.

Lemma indexOf_absent (pass : PassRef) (array : list PassRef) :
  pass ∉ array -> JSArray.indexOf pass array = -1.
Proof.
  intros Habsent. unfold JSArray.indexOf.
  destruct (list_find _ array) as [[i p] |] eqn:Hfind; [| done].
  apply list_find_Some in Hfind as (Hi & -> & _).
  exfalso. by apply Habsent, (list_elem_of_lookup_2 _ i).
Qed.

(** What [removeRenderPass] does with a pass object that is not in the
    array: [indexOf] answers [-1] and [splice(-1, 1)] removes the last
    pass. *)
Lemma removeRenderPass_absent_object (passes : PassStore) (pass : PassRef) (this : t) :
  pass ∉ _renderPassArray this ->
  _renderPassArray (removeRenderPass passes (inr pass) this)
  = take (Nat.pred (List.length (_renderPassArray this))) (_renderPassArray this).
Proof.
  intros Habsent. unfold removeRenderPass. cbn [_renderPassArray].
  rewrite indexOf_absent by done.
  unfold JSArray.splice, JSArray.length. rewrite decide_True by lia. cbn [app].
  destruct (_renderPassArray this) as [| p array]; [done |].
  rewrite (drop_ge (p :: array)); [| cbn [List.length]; lia].
  rewrite app_nil_r. f_equal. cbn [List.length]. lia.
Qed.

(** C4 fails on the code: in the pipeline with the passes 0, 1 and 2,
    removing the pass object 3, which is not in the array, removes
    pass 2. *)
Theorem removeRenderPass_absent_object_removes_last :
  (3%nat ∉ _renderPassArray SamplePipeline.pipeline) /\
  _renderPassArray
    (removeRenderPass SamplePipeline.passes (inr 3%nat) SamplePipeline.pipeline)
  = [0; 1]%nat.
Proof.
  split; [by apply (bool_decide_unpack _) |].
  rewrite removeRenderPass_absent_object; [done |].
  by apply (bool_decide_unpack _).
Qed.

(** C3 as stated fails: the camera renders into target 1 and pass 1 has
    its own target 2; the target bound for the pass is the camera's. *)
Lemma drawRenderPass_binds_camera_target :
  let camera := SamplePipeline.camera true false in
  RenderPass.enabled (SamplePipeline.passes 1%nat) = true /\
  RenderPass.renderTarget (SamplePipeline.passes 1%nat) = Some 2%nat /\
  List.filter isBinding
    (_drawRenderPass SamplePipeline.passes 1%nat camera None None)
  = [activeRenderTarget (Some 1%nat) (Camera.viewport camera) None].
Proof. repeat split. Qed.

(** C3 (as amended).  For a pass executed with [enabled = true], one
    render target is bound: the camera's render target, and the pass's
    own render target only when the camera has none.  The clear flags
    are the pass's override if present and the camera's otherwise, the
    clear color is the pass's override if present and the solid color of
    the background otherwise, and the target is cleared, once, with
    these, exactly when the clear flags are not [None]. *)
Theorem drawRenderPass_target_and_clear (passes : PassStore) (pass : PassRef)
    (camera : Camera.t) (cubeFace mipLevel : option Z) :
  RenderPass.enabled (passes pass) = true ->
  let trace := _drawRenderPass passes pass camera cubeFace mipLevel in
  let clearFlags :=
    match RenderPass.clearFlags (passes pass) with
    | Some flags => flags
    | None => Camera.clearFlags camera
    end in
  let color :=
    match RenderPass.clearColor (passes pass) with
    | Some color => color
    | None => solidColor (Camera.scene_background camera)
    end in
  List.filter isBinding trace
  = [activeRenderTarget
       match Camera.renderTarget camera with
       | Some target => Some target
       | None => RenderPass.renderTarget (passes pass)
       end
       (Camera.viewport camera) mipLevel] /\
  List.filter isClearing trace
  = if decide (clearFlags = CameraClearFlags_None) then []
    else [clearRenderTarget clearFlags color].
Proof.
  intros Henabled. unfold _drawRenderPass. rewrite Henabled.
  destruct (passes pass) as [name priority target material mask enabled
                               flags clearColor override].
  destruct camera as [cameraTarget viewport cameraFlags cullingMask culling
                        frustum orthographic position forward [mode solid texture]].
  cbn -[List.filter app]. unfold nullish, or_else, optionally.
  split.
  - destruct cameraTarget, target, override, mode, texture;
      repeat case_decide; reflexivity.
  - destruct cameraTarget, target, override, mode, texture, flags, clearColor;
      repeat case_decide; try reflexivity; congruence.
Qed.

Lemma drawRenderPass_target_and_clear_witness :
  List.filter isClearing
    (_drawRenderPass SamplePipeline.passes 1%nat (SamplePipeline.camera false false)
                     None None)
  = [clearRenderTarget 1 SamplePipeline.white].
Proof.
  apply (drawRenderPass_target_and_clear SamplePipeline.passes 1%nat
           (SamplePipeline.camera false false) None None).
  reflexivity.
Defined.

(** C9.  A pass with [enabled = false] has its [preRender] and its
    [postRender] invoked once each, with the camera and the three queues,
    and nothing else happens for it: no render target is bound, nothing
    is cleared, and neither the queues nor the background are drawn. *)
Theorem drawRenderPass_disabled (passes : PassStore) (pass : PassRef)
    (camera : Camera.t) (cubeFace mipLevel : option Z) :
  RenderPass.enabled (passes pass) = false ->
  _drawRenderPass passes pass camera cubeFace mipLevel
  = [preRender pass camera _opaqueQueue _alphaTestQueue _transparentQueue;
     postRender pass camera _opaqueQueue _alphaTestQueue _transparentQueue].
Proof. intros Hdisabled. unfold _drawRenderPass. by rewrite Hdisabled. Qed.

Lemma drawRenderPass_disabled_witness :
  List.length
    (_drawRenderPass SamplePipeline.passes 2%nat (SamplePipeline.camera true false)
                     None (Some 0))
  = 2%nat.
Proof.
  rewrite (drawRenderPass_disabled SamplePipeline.passes 2%nat); reflexivity.
Defined.

End RenderPasses.

(** ** Sort keys *)

Section SortKeys.
Import BasicRenderPipeline.

Lemma callRender_visit_kept (camera : Camera.t) (index : nat) (renderer : Renderer.t) :
  kept camera renderer ->
  Renderer._distanceForSort (_callRender_visit camera index renderer).1
  = if Camera.isOrthographic camera then orthographicKey camera renderer
    else perspectiveKey camera renderer.
Proof.
  intros [Hmask Hfrustum]. unfold _callRender_visit.
  rewrite decide_False by done.
  destruct (Camera.enableFrustumCulling camera) eqn:Hculling.
  - rewrite Hfrustum by done. cbn. by destruct (Camera.isOrthographic camera).
  - cbn. by destruct (Camera.isOrthographic camera).
Qed.

Lemma callRender_loop_lookup (camera : Camera.t) (elements : list Renderer.t)
    (index i : nat) (renderer : Renderer.t) :
  elements !! i = Some renderer ->
  (_callRender_loop camera index elements).1 !! i
  = Some (_callRender_visit camera (index + i) renderer).1.
Proof.
  revert index i. induction elements as [| r elements IH]; intros index i Hi.
  - by rewrite lookup_nil in Hi.
  - cbn [_callRender_loop].
    specialize (IH (S index)).
    destruct (_callRender_loop camera (S index) elements) as [elements' before].
    destruct (_callRender_visit camera index r) as [r' events] eqn:Hvisit.
    destruct i as [| i]; cbn in Hi |- *.
    + simplify_eq. by rewrite Nat.add_0_r, Hvisit.
    + replace (index + S i)%nat with (S index + i)%nat by lia. exact (IH i Hi).
Qed.

(** C7.  In [_callRender], every renderer that passes the culling-mask
    and frustum checks gets as sort key the dot product of (bounds center
    minus camera world position) with the camera's world forward vector
    when the camera is orthographic, and the squared distance from the
    bounds center to the camera world position when it is perspective.
    The two keys differ: for bounds centred 5 behind a camera at the
    origin that looks along [z], the first is -5 and the second 25. *)
Theorem callRender_sort_key :
  (forall (camera : Camera.t) (renderers : list Renderer.t) (i : nat)
          (renderer : Renderer.t),
      renderers !! i = Some renderer ->
      kept camera renderer ->
      exists renderer',
        (_callRender camera renderers).1 !! i = Some renderer' /\
        Renderer._distanceForSort renderer'
        = if Camera.isOrthographic camera
          then Vector3.dot
                 (Vector3.subtract (BoundingBox.getCenter (Renderer.bounds renderer))
                                   (Camera.entity_transform_worldPosition camera))
                 (Camera.entity_transform_getWorldForward camera)
          else Vector3.distanceSquared
                 (BoundingBox.getCenter (Renderer.bounds renderer))
                 (Camera.entity_transform_worldPosition camera)) /\
  orthographicKey (SamplePipeline.camera false true) SamplePipeline.behind
  = JS.ofZ (-5) /\
  perspectiveKey (SamplePipeline.camera false false) SamplePipeline.behind
  = JS.ofZ 25.
Proof.
  split; [| split; reflexivity].
  intros camera renderers i renderer Hi Hkept.
  eexists. split.
  - unfold _callRender. by apply callRender_loop_lookup.
  - by rewrite callRender_visit_kept.
Qed.

Lemma callRender_sort_key_witness :
  Renderer._distanceForSort <$>
    (_callRender (SamplePipeline.camera false true) [SamplePipeline.behind]).1
  = [JS.ofZ (-5)] /\
  Renderer._distanceForSort <$>
    (_callRender (SamplePipeline.camera false false) [SamplePipeline.behind]).1
  = [JS.ofZ 25].
Proof.
  destruct callRender_sort_key as (Hkey & _ & _).
  assert (forall orthographic,
            kept (SamplePipeline.camera false orthographic) SamplePipeline.behind)
    as Hkept.
  { intros orthographic. split; [by vm_compute | reflexivity]. }
  split.
  - destruct (Hkey (SamplePipeline.camera false true) [SamplePipeline.behind]
                0%nat SamplePipeline.behind eq_refl (Hkept true))
      as (renderer' & Hlookup & Hsort).
    vm_compute in Hlookup. injection Hlookup as <-. reflexivity.
  - destruct (Hkey (SamplePipeline.camera false false) [SamplePipeline.behind]
                0%nat SamplePipeline.behind eq_refl (Hkept false))
      as (renderer' & Hlookup & Hsort).
    vm_compute in Hlookup. injection Hlookup as <-. reflexivity.
Defined.

End SortKeys.

(* ================================================================== *)
(** * Part III: further properties of the code *)
(* ================================================================== *)

(** ** The light registry, continued *)

Section RegistryMore.
Import LightManager.

Lemma sunLightLoop_in_range (h : LightStore) (lights : list LightRef) (i k : Z)
    (m : JS.number) (hasShadowLight : bool) :
  -1 <= k < i ->
  -1 <= sunLightLoop h lights i k m hasShadowLight < i + Z.of_nat (List.length lights).
Proof.
  revert i k m hasShadowLight.
  induction lights as [| r lights IH]; intros i k m hasShadowLight Hk; cbn [sunLightLoop].
  - cbn. lia.
  - cbn [List.length].
    match goal with
    | |- context [sunLightLoop _ _ _ (if ?better then _ else _) _ _] =>
        destruct better
    end.
    + specialize (IH (i + 1) i). rewrite Nat2Z.inj_succ.
      match goal with
      | |- context [sunLightLoop _ _ _ _ ?m ?hs] => specialize (IH m hs)
      end. lia.
    + specialize (IH (i + 1) k). rewrite Nat2Z.inj_succ.
      match goal with
      | |- context [sunLightLoop _ _ _ _ ?m ?hs] => specialize (IH m hs)
      end. lia.
Qed.

(** X1.  Whatever the lights are (NaN intensities included),
    [_getSunLightIndex] returns [-1] or the index of a slot of the
    directional container, so that reading that slot never goes out of
    range. *)
Theorem getSunLightIndex_in_range (s : State) :
  -1 <= _getSunLightIndex s < DisorderedArray.length (_directLights (manager s)) /\
  (_getSunLightIndex s <> -1 ->
   exists light,
     DisorderedArray.get (_getSunLightIndex s) (_directLights (manager s)) = Some light /\
     light ∈ _directLights (manager s)).
Proof.
  assert (-1 <= _getSunLightIndex s
          < DisorderedArray.length (_directLights (manager s))) as Hrange.
  { unfold _getSunLightIndex, DisorderedArray.length.
    pose proof (sunLightLoop_in_range (directLight s) (_directLights (manager s))
                  0 (-1) JS.NEGATIVE_INFINITY false) as Hloop.
    lia. }
  split; [done |]. intros Hfound.
  unfold DisorderedArray.get, DisorderedArray.length in *.
  rewrite decide_True by lia.
  destruct (_directLights (manager s) !! Z.to_nat (_getSunLightIndex s))
    as [light |] eqn:Hlight.
  - exists light. split; [done |]. by eapply list_elem_of_lookup_2.
  - apply lookup_ge_None in Hlight. lia.
Qed.

(** Attaching a detached light and detaching it again. *)
Lemma detach_attach (light : LightRef) (lights : list LightRef) (h : LightStore) :
  _lightIndex (h light) = -1 ->
  (detach light (attach light (lights, h))).1 = lights /\
  forall r, (detach light (attach light (lights, h))).2 r = h r.
Proof.
  intros Hfresh. unfold attach, detach, DisorderedArray.deleteByIndex,
    DisorderedArray.add, DisorderedArray.length.
  rewrite store_lightIndex_same. rewrite decide_True by (rewrite length_app; cbn; lia).
  cbn [fst snd]. split.
  - rewrite length_app. cbn [List.length].
    replace (Nat.pred (List.length lights + 1)) with (List.length lights) by lia.
    by rewrite take_app_length.
  - intros r. unfold store_lightIndex. case_decide as Hr; [| done].
    subst r. destruct (h light). cbn in *. by subst.
Qed.

(** X2.  Attaching a light whose stored index is [-1] and detaching it
    right away gives back the registry: the same containers in the same
    order and the same light objects, for each of the three kinds. *)
Theorem detach_after_attach (light : LightRef) (s : State) :
  (_lightIndex (spotLight s light) = -1 ->
   sameRegistry s (_detachSpotLight light (_attachSpotLight light s))) /\
  (_lightIndex (pointLight s light) = -1 ->
   sameRegistry s (_detachPointLight light (_attachPointLight light s))) /\
  (_lightIndex (directLight s light) = -1 ->
   sameRegistry s (_detachDirectLight light (_attachDirectLight light s))).
Proof.
  destruct s as [[spots points directs] hs hp hd]. cbn [spotLight pointLight directLight].
  split; [| split]; intros Hfresh.
  - destruct (detach_attach light spots hs Hfresh) as [Hl Hh].
    unfold _detachSpotLight, _attachSpotLight. cbn -[attach detach].
    destruct (attach light (spots, hs)) as [c1 h1] eqn:Ha. cbn -[attach detach].
    destruct (detach light (c1, h1)) as [c2 h2] eqn:Hd. cbn in Hl, Hh.
    unfold sameRegistry. cbn. subst c2. done.
  - destruct (detach_attach light points hp Hfresh) as [Hl Hh].
    unfold _detachPointLight, _attachPointLight. cbn -[attach detach].
    destruct (attach light (points, hp)) as [c1 h1] eqn:Ha. cbn -[attach detach].
    destruct (detach light (c1, h1)) as [c2 h2] eqn:Hd. cbn in Hl, Hh.
    unfold sameRegistry. cbn. subst c2. done.
  - destruct (detach_attach light directs hd Hfresh) as [Hl Hh].
    unfold _detachDirectLight, _attachDirectLight. cbn -[attach detach].
    destruct (attach light (directs, hd)) as [c1 h1] eqn:Ha. cbn -[attach detach].
    destruct (detach light (c1, h1)) as [c2 h2] eqn:Hd. cbn in Hl, Hh.
    unfold sameRegistry. cbn. subst c2. done.
Qed.

Lemma detach_after_attach_witness :
  sameRegistry fresh (_detachDirectLight 3%nat (_attachDirectLight 3%nat fresh)).
Proof.
  apply (proj2 (proj2 (detach_after_attach 3%nat fresh))). reflexivity.
Defined.

Lemma detach_members (light : LightRef) (lights : list LightRef) (h : LightStore) :
  indexed lights h -> light ∈ lights ->
  (forall r, r ∈ (detach light (lights, h)).1 <-> r ∈ lights /\ r <> light) /\
  List.length (detach light (lights, h)).1 = Nat.pred (List.length lights).
Proof.
  intros Hidx Hin.
  pose proof (indexed_NoDup _ _ Hidx) as Hnd.
  apply list_elem_of_lookup in Hin as [k Hk].
  pose proof (Hidx _ _ Hk) as Hik.
  pose proof (lookup_lt_Some _ _ _ Hk) as Hlt.
  unfold detach, DisorderedArray.deleteByIndex, DisorderedArray.length.
  rewrite Hik. case_decide as Hlast.
  - cbn [fst]. split; [| rewrite length_take; lia].
    intros r. rewrite elem_of_take. split.
    + intros (i & Hi & Hilt). split; [by eapply list_elem_of_lookup_2 |].
      intros ->. pose proof (NoDup_lookup _ _ _ _ Hnd Hi Hk). lia.
    + intros [[i Hi]%list_elem_of_lookup Hne]. exists i. split; [done |].
      pose proof (lookup_lt_Some _ _ _ Hi).
      assert (i <> k) by (intros ->; congruence). lia.
  - rewrite last_lookup.
    destruct (lights !! Nat.pred (List.length lights)) as [e |] eqn:He;
      [| apply lookup_ge_None in He; lia].
    cbn [fst]. unfold DisorderedArray.set. rewrite decide_True by lia.
    rewrite Nat2Z.id.
    split; [| rewrite length_take, length_insert; lia].
    intros r. rewrite elem_of_take. split.
    + intros (i & Hi & Hilt).
      destruct (decide (i = k)) as [-> | Hne].
      * rewrite list_lookup_insert_eq in Hi by done. simplify_eq.
        split; [by eapply list_elem_of_lookup_2 |].
        intros ->. pose proof (NoDup_lookup _ _ _ _ Hnd He Hk). lia.
      * rewrite list_lookup_insert_ne in Hi by done.
        split; [by eapply list_elem_of_lookup_2 |].
        intros ->. by pose proof (NoDup_lookup _ _ _ _ Hnd Hi Hk).
    + intros [[i Hi]%list_elem_of_lookup Hne].
      pose proof (lookup_lt_Some _ _ _ Hi).
      assert (i <> k) by (intros ->; congruence).
      destruct (decide (i = Nat.pred (List.length lights))) as [-> | Hnl].
      * exists k. rewrite list_lookup_insert_eq by done.
        split; [congruence | lia].
      * exists i. rewrite list_lookup_insert_ne by done. split; [done | lia].
Qed.

(** X3.  In a container whose lights store their positions, detaching a
    light of the container removes that light and no other: the lights
    left are exactly the others, and there is one light less.  (Their
    order may change: the last light takes the freed slot.) *)
Theorem detach_removes_exactly (light : LightRef) (s : State) :
  (indexed (_spotLights (manager s)) (spotLight s) ->
   light ∈ _spotLights (manager s) ->
   let lights' := _spotLights (manager (_detachSpotLight light s)) in
   (forall r, r ∈ lights' <-> r ∈ _spotLights (manager s) /\ r <> light) /\
   List.length lights' = Nat.pred (List.length (_spotLights (manager s)))) /\
  (indexed (_pointLights (manager s)) (pointLight s) ->
   light ∈ _pointLights (manager s) ->
   let lights' := _pointLights (manager (_detachPointLight light s)) in
   (forall r, r ∈ lights' <-> r ∈ _pointLights (manager s) /\ r <> light) /\
   List.length lights' = Nat.pred (List.length (_pointLights (manager s)))) /\
  (indexed (_directLights (manager s)) (directLight s) ->
   light ∈ _directLights (manager s) ->
   let lights' := _directLights (manager (_detachDirectLight light s)) in
   (forall r, r ∈ lights' <-> r ∈ _directLights (manager s) /\ r <> light) /\
   List.length lights' = Nat.pred (List.length (_directLights (manager s)))).
Proof.
  split; [| split]; intros Hidx Hin.
  - pose proof (detach_members light _ _ Hidx Hin) as Hd.
    unfold _detachSpotLight. by destruct (detach light _).
  - pose proof (detach_members light _ _ Hidx Hin) as Hd.
    unfold _detachPointLight. by destruct (detach light _).
  - pose proof (detach_members light _ _ Hidx Hin) as Hd.
    unfold _detachDirectLight. by destruct (detach light _).
Qed.

Lemma detach_removes_exactly_witness :
  List.length (_directLights (manager (_detachDirectLight 0%nat (twoLights (JS.ofZ 1)))))
  = 1%nat.
Proof.
  apply (proj2 (proj2 (detach_removes_exactly 0%nat (twoLights (JS.ofZ 1))))).
  - intros [| [| i]] r Hr; cbn in Hr; by simplify_eq.
  - by apply (bool_decide_unpack _).
Defined.

Lemma disableMacro_other (name name' : string) (d : ShaderData.t) :
  name <> name' -> ShaderData.disableMacro name d !! name' = d !! name'.
Proof. apply (lookup_delete_ne (M := gmap string)). Qed.

(** The macro that carries a light count. *)
Lemma countMacro (count : Z) (name name' : string) (d : ShaderData.t) :
  (if decide (count <> 0)
   then ShaderData.enableMacro name (Some (Number_toString count)) d
   else ShaderData.disableMacro name d) !! name'
  = if decide (name = name')
    then (if decide (count = 0) then None else Some (Number_toString count))
    else d !! name'.
Proof.
  destruct (decide (name = name')) as [<- | Hne].
  - destruct (decide (count = 0)) as [-> | Hc].
    + rewrite decide_False by (intros Hne; by apply Hne). apply disableMacro_same.
    + rewrite decide_True by done. apply enableMacro_same.
  - case_decide; [by apply enableMacro_other | by apply disableMacro_other].
Qed.

(** X4.  After [LightManager._updateShaderData], each of the three count
    macros is enabled with the decimal count of its container when that
    container is not empty and disabled when it is empty, and no other
    macro of the shader data has changed. *)
Theorem updateShaderData_counts (s : State) (d : ShaderData.t) :
  let count (lights : list LightRef) : option string :=
    if decide (DisorderedArray.length lights = 0) then None
    else Some (Number_toString (DisorderedArray.length lights)) in
  let d' := _updateShaderData s d in
  d' !! "O3_DIRECT_LIGHT_COUNT" = count (_directLights (manager s)) /\
  d' !! "O3_POINT_LIGHT_COUNT" = count (_pointLights (manager s)) /\
  d' !! "O3_SPOT_LIGHT_COUNT" = count (_spotLights (manager s)) /\
  forall name : string,
    name <> "O3_DIRECT_LIGHT_COUNT" -> name <> "O3_POINT_LIGHT_COUNT" ->
    name <> "O3_SPOT_LIGHT_COUNT" ->
    d' !! name = d !! name.
Proof.
  intros count d'. unfold d', _updateShaderData, count.
  repeat split.
  - rewrite !countMacro. by repeat (rewrite decide_False by done || rewrite decide_True by done).
  - rewrite !countMacro. by repeat (rewrite decide_False by done || rewrite decide_True by done).
  - rewrite !countMacro. by rewrite decide_True by done.
  - intros name Hd Hp Hs. rewrite !countMacro.
    by rewrite !decide_False by done.
Qed.

End RegistryMore.

(** ** Root entities, continued *)

Section SceneMoreCalls.
Import Scene.
Context `{EntityMethods}.

Implicit Types (l : list EntityRef) (h : EntityStore) (w : World).

(** The end of [addRootEntity]: activation or deactivation of the entity. *)
Lemma addRootEntity_activity (this : SceneRef) (e : EntityRef) w :
  post
    (bind (gets (fun w => _isActiveInEngine (scenes w this)))
       (fun isActiveInEngine =>
          bind (gets (entity e))
            (fun e0 =>
               if isActiveInEngine
               then when (negb (Entity._isActiveInHierarchy e0) && Entity._isActive e0)
                      (modify_entities (_processActive e))
               else when (Entity._isActiveInHierarchy e0)
                      (modify_entities (_processInActive e)))))
    w (fun w' c => c = Return tt /\ scenes w' = scenes w /\ SceneMore.same_links w w').
Proof.
  apply post_bind, post_gets, post_bind, post_gets.
  assert (SceneMore.same_links w w) as Hrefl by (by intros x).
  destruct (_isActiveInEngine _); unfold post, when.
  - destruct (_ && _); cbn; [| done]. repeat split; try done.
    all: unfold entity; cbn;
      destruct (processActive_keeps e (entities w) x) as (? & ? & ? & ? & ?); done.
  - destruct (Entity._isActiveInHierarchy _); cbn; [| done]. repeat split; try done.
    all: unfold entity; cbn;
      destruct (processInActive_keeps e (entities w) x) as (? & ? & ? & ? & ?); done.
Qed.

(** [addRootEntity] on an entity that is not a root entity of the scene
    yet returns and puts the entity in the slot asked for. *)
Lemma addRootEntity_returns (this : SceneRef) (index : option Z) (e : EntityRef) w :
  let l := rootEntities this w in
  let k := Z.to_nat (default (JSArray.length l) index) in
  well_formed w ->
  0 <= default (JSArray.length l) index <= JSArray.length l ->
  ~ (Entity._isRoot (entity e w) = true /\ Entity._scene (entity e w) = Some this) ->
  (forall old, Entity._isRoot (entity e w) = true ->
               Entity._scene (entity e w) = Some old -> e ∈ rootEntities old w) ->
  (addRootEntity this (Index.int <$> index) e w).2 = Return tt /\
  rootEntities this (addRootEntity this (Index.int <$> index) e w).1
  = take k l ++ e :: drop k l.
Proof.
  intros l k Hwf Hin Hnot Hlisted.
  set (Q := fun (w' : World) (c : Completion unit) =>
              c = Return tt /\ rootEntities this w' = take k l ++ e :: drop k l).
  change (post (addRootEntity this (Index.int <$> index) e) w Q).
  (* adding to the list of [this], then whatever keeps the scene objects *)
  assert (forall w1 (m : M unit),
            rootEntities this w1 = l ->
            (forall w2, post m w2 (fun w' c => c = Return tt /\ scenes w' = scenes w2)) ->
            post (bind (_addToRootEntityList this (Index.int <$> index) e)
                    (fun _ => m)) w1
                 (fun w' c => c = Return tt /\
                              rootEntities this w' = take k l ++ e :: drop k l)) as Hadd.
  { intros w1 m Hl Hm. apply post_bind. unfold post at 1.
    assert (_addToRootEntityList this (Index.int <$> index) e w1
            = (inserted this k e w1, Return tt)) as ->.
    { destruct index as [index |]; cbn in Hin, k; cbn [fmap option_fmap option_map].
      - rewrite addToRootEntityList_insert by (rewrite Hl; lia). done.
      - rewrite addToRootEntityList_push. unfold k, JSArray.length.
        rewrite Nat2Z.id. by rewrite Hl. }
    cbn [fst snd]. eapply post_conseq; [apply Hm |].
    intros w' c [-> Hsc]. split; [done |].
    unfold rootEntities at 1. rewrite Hsc. fold (rootEntities this (inserted this k e w1)).
    unfold inserted. rewrite rootEntities_with, decide_True by done. by rewrite Hl. }
  unfold addRootEntity. apply post_bind, post_gets.
  apply post_bind. unfold post at 1. fold (entity e w). rewrite promote_runs.
  cbn [fst snd].
  destruct (promoted_well_formed e w Hwf)
    as (Hwf1 & HisRoot1 & Hparent1 & Hscene1 & Hscenes1 & Hfresh1).
  assert (rootEntities this (promoted e w) = l) as Hroots1.
  { unfold rootEntities, l. by rewrite Hscenes1. }
  set (w1 := promoted e w) in *. clearbody w1.
  apply post_bind, post_gets. fold (entity e w1).
  apply post_bind.
  eapply post_conseq with (Q := fun w' c => c = Return tt /\
                               rootEntities this w' = take k l ++ e :: drop k l).
  2:{ intros w' c [-> Hl']. eapply post_conseq; [apply addRootEntity_activity |].
      intros w'' c' (-> & Hsc & _). split; [done |].
      unfold rootEntities in *. by rewrite Hsc. }
  assert (forall w2, post (modify_entities (_traverseSetOwnerScene e (Some this))) w2
                       (fun w' c => c = Return tt /\ scenes w' = scenes w2)) as Htr.
  { by intros w2. }
  case_decide as Hold.
  - apply post_bind.
    destruct (Entity._scene (entity e w1)) as [old |] eqn:Hscene.
    + destruct (Entity._isRoot (entity e w)) eqn:HisRoot; cbn [when].
      * assert (old <> this) as Hne by congruence.
        pose proof (removeFromEntityList_well_formed old e w1 Hwf1 Hscene HisRoot1)
          as (_ & _ & Hother2 & _ & _).
        assert (exists i : nat,
                  Entity._siblingIndex (entity e w1) = Index.int (Z.of_nat i))
          as [i Hpos].
        { rewrite Hscene1 in Hscene.
          pose proof (Hlisted old eq_refl Hscene) as [i Hi]%list_elem_of_lookup.
          assert (rootEntities old w1 !! i = Some e) as Hi1.
          { unfold rootEntities in *. by rewrite Hscenes1. }
          destruct Hwf1 as (Hidx1 & _). apply Hidx1 in Hi1 as [Hi1 _]. by exists i. }
        unfold post at 1. revert Hother2.
        rewrite (removeFromEntityList_returns old e (Z.of_nat i) w1 Hpos) by lia.
        cbn [fst snd].
        intros Hother2. apply Hadd; [| done].
        by rewrite Hother2.
      * unfold post at 1. cbn. by apply Hadd.
    + unfold post at 1. cbn. by apply Hadd.
  - destruct (Entity._isRoot (entity e w)) eqn:HisRoot; cbn [when negb].
    + exfalso. apply Hnot. split; [done |]. by rewrite <- Hscene1.
    + specialize (Hadd w1 (ret tt) Hroots1). unfold post, bind in *.
      destruct (_addToRootEntityList this (Index.int <$> index) e w1)
        as [w2 [[] | err]]; cbn in *; by apply Hadd.
Qed.

(** X5.  In a well-formed world, let the entity not be flagged as a
    root entity owned by the scene already, and, if it is flagged as a
    root entity owned by another scene, let it be in the root list of
    that scene.  Then [addRootEntity] with no index, or with an index
    that is an integer between 0 and the root-entity count, returns
    normally; the entity then sits in the slot asked for (the last one
    without an index), between the former root entities, which keep
    their order; it is what [getRootEntity] answers for that slot, its
    sibling index is the slot, it is flagged as a root and owned by the
    scene, it is in no other scene's root list, and the count has grown
    by one. *)
Theorem addRootEntity_inserts (this : SceneRef) (index : option Z) (e : EntityRef)
    (w : World) :
  let l := rootEntities this w in
  let slot := default (JSArray.length l) index in
  let w' := (addRootEntity this (Index.int <$> index) e w).1 in
  well_formed w ->
  0 <= slot <= JSArray.length l ->
  ~ (Entity._isRoot (entity e w) = true /\ Entity._scene (entity e w) = Some this) ->
  (forall old, Entity._isRoot (entity e w) = true ->
               Entity._scene (entity e w) = Some old -> e ∈ rootEntities old w) ->
  (addRootEntity this (Index.int <$> index) e w).2 = Return tt /\
  rootEntities this w' = take (Z.to_nat slot) l ++ e :: drop (Z.to_nat slot) l /\
  getRootEntity this (Index.int slot) w' = Some e /\
  SceneMore.rootEntitiesCount this w' = SceneMore.rootEntitiesCount this w + 1 /\
  Entity._siblingIndex (entity e w') = Index.int slot /\
  Entity._isRoot (entity e w') = true /\
  Entity._scene (entity e w') = Some this /\
  (forall sc, sc <> this -> e ∉ rootEntities sc w').
Proof.
  intros l slot w' Hwf Hin Hnot Hlisted.
  destruct (addRootEntity_returns this index e w Hwf Hin Hnot Hlisted) as [Hret Hl'].
  fold l slot w' in Hl'.
  pose proof (addRootEntity_well_formed this index e w Hwf) as (Hidx' & Hown' & _).
  fold w' in Hidx', Hown'.
  assert (rootEntities this w' !! Z.to_nat slot = Some e) as He.
  { rewrite Hl'. rewrite list_lookup_middle; [done |].
    rewrite length_take. unfold JSArray.length in Hin. lia. }
  destruct (Hidx' _ _ _ He) as (Hi & Hr & _).
  split; [done |]. split; [done |]. split; [| split; [| split; [| split; [| split]]]].
  - unfold getRootEntity, Index.get, JSArray.get. cbn [Index.toInteger].
    by rewrite decide_True by lia.
  - unfold SceneMore.rootEntitiesCount, JSArray.length. fold l. rewrite Hl'.
    rewrite length_app, length_take. cbn [List.length]. rewrite length_drop.
    unfold JSArray.length in Hin. lia.
  - rewrite Hi. f_equal. lia.
  - done.
  - by apply (Hown' this (Z.to_nat slot)).
  - intros sc Hne [i Hi']%list_elem_of_lookup.
    apply Hown' in Hi', He. congruence.
Qed.

(** X6.  Adding to a scene an entity that is already one of its root
    entities changes nothing of the root lists, whatever the index, even
    an index out of range or one that is no integer: the call returns
    normally, every scene keeps its root list, and every entity keeps
    its name, root flag, owning scene, parent and sibling index. *)
Theorem addRootEntity_already_root (this : SceneRef) (index : option Index.t)
    (e : EntityRef) (w : World) :
  Entity._isRoot (entity e w) = true ->
  Entity._scene (entity e w) = Some this ->
  (addRootEntity this index e w).2 = Return tt /\
  scenes (addRootEntity this index e w).1 = scenes w /\
  SceneMore.same_links w (addRootEntity this index e w).1.
Proof.
  intros HisRoot Hscene.
  change (post (addRootEntity this index e) w
            (fun w' c => c = Return tt /\ scenes w' = scenes w /\ SceneMore.same_links w w')).
  unfold addRootEntity. apply post_bind, post_gets.
  apply post_bind. unfold post at 1. fold (entity e w). rewrite promote_runs.
  unfold promoted. rewrite HisRoot. cbn [fst snd].
  apply post_bind, post_gets. fold (entity e w). rewrite Hscene.
  apply post_bind. rewrite decide_False by (intros Hne; by apply Hne).
  unfold post at 1. cbn [when negb ret fst snd].
  apply addRootEntity_activity.
Qed.

(** [removeRootEntity] on the root entity of slot [k]. *)
Lemma removeRootEntity_returns (this : SceneRef) (e : EntityRef) (k : nat) w :
  well_formed w ->
  rootEntities this w !! k = Some e ->
  let r := removeRootEntity this e w in
  r.2 = Return tt /\
  rootEntities this r.1 = delete k (rootEntities this w) /\
  (forall sc, sc <> this -> rootEntities sc r.1 = rootEntities sc w) /\
  Entity._isRoot (entity e r.1) = false /\
  Entity._scene (entity e r.1) = None /\
  Entity._siblingIndex (entity e r.1) = Index.int (-1).
Proof.
  intros Hwf Hk. pose proof Hwf as (Hidx & Hown & _).
  destruct (Hidx _ _ _ Hk) as (Hi & HisRoot & _).
  pose proof (Hown _ _ _ Hk) as Hscene.
  set (Q := fun (w' : World) (c : Completion unit) =>
              c = Return tt /\
              rootEntities this w' = delete k (rootEntities this w) /\
              (forall sc, sc <> this -> rootEntities sc w' = rootEntities sc w) /\
              Entity._isRoot (entity e w') = false /\
              Entity._scene (entity e w') = None /\
              Entity._siblingIndex (entity e w') = Index.int (-1)).
  change (post (removeRootEntity this e) w Q).
  unfold removeRootEntity. apply post_bind, post_gets.
  rewrite HisRoot, Hscene, bool_decide_eq_true_2 by done. cbn [andb when].
  apply post_bind. unfold post at 1.
  rewrite (removeFromEntityList_returns this e (Z.of_nat k) w Hi) by lia.
  cbn [fst snd]. rewrite Nat2Z.id.
  set (h2 := update e (Entity.set_siblingIndex (Index.int (-1))) _).
  set (sc2 := with_rootEntities this (delete k (rootEntities this w)) w).
  apply post_bind. unfold post at 1. cbn [modify_entity modify fst snd entities scenes].
  set (h3 := update e (Entity.set_isRoot false) h2).
  assert (Entity._isRoot (h3 e) = false /\
          Entity._siblingIndex (h3 e) = Index.int (-1)) as [Hr3 Hi3].
  { unfold h3, h2. by rewrite !update_same. }
  clearbody h3.
  apply post_bind, post_gets, post_bind, post_gets, post_bind.
  eapply post_conseq with
    (Q := fun w' c => c = Return tt /\ scenes w' = sc2 /\
                      Entity._isRoot (entities w' e) = false /\
                      Entity._siblingIndex (entities w' e) = Index.int (-1)).
  { unfold post, when. destruct (_ && _); cbn; [| done].
    destruct (processInActive_keeps e h3 e) as (_ & -> & _ & -> & _). done. }
  intros w4 c (-> & Hsc4 & Hr4 & Hi4). unfold post, Q. cbn.
  destruct (traverseSetOwnerScene_keeps e None (entities w4) e) as (_ & Hr5 & Hi5 & _).
  split; [done |]. unfold rootEntities, entity. cbn. rewrite Hsc4.
  split; [| split; [| split; [| split]]].
  - unfold sc2, with_rootEntities. by rewrite decide_True.
  - intros sc Hne. unfold sc2, with_rootEntities. by rewrite decide_False.
  - by rewrite Hr5.
  - apply traverseSetOwnerScene_sets.
  - by rewrite Hi5.
Qed.

(** X7.  In a well-formed world, [removeRootEntity] on the root entity
    of slot [k] of the scene returns normally and removes exactly that
    slot: the other root entities keep their order, the root lists of
    the other scenes are untouched, and the entity ends with its root
    flag cleared, no owning scene and sibling index [-1]. *)
Theorem removeRootEntity_removes (this : SceneRef) (e : EntityRef) (k : nat)
    (w : World) :
  well_formed w ->
  rootEntities this w !! k = Some e ->
  let w' := (removeRootEntity this e w).1 in
  (removeRootEntity this e w).2 = Return tt /\
  rootEntities this w' = delete k (rootEntities this w) /\
  (e ∉ rootEntities this w') /\
  (forall sc, sc <> this -> rootEntities sc w' = rootEntities sc w) /\
  Entity._isRoot (entity e w') = false /\
  Entity._scene (entity e w') = None /\
  Entity._siblingIndex (entity e w') = Index.int (-1).
Proof.
  intros Hwf Hk w'.
  destruct (removeRootEntity_returns this e k w Hwf Hk)
    as (Hret & Hl & Hother & Hr & Hs & Hi).
  fold w' in Hl, Hother, Hr, Hs, Hi.
  repeat split; try done.
  intros [i Hi']%list_elem_of_lookup.
  pose proof (removeRootEntity_well_formed this e w Hwf) as (_ & Hown' & _).
  fold w' in Hown'. apply Hown' in Hi'. congruence.
Qed.

(** X8.  In a well-formed world, let the entity not be flagged as a
    root entity owned by the scene already, and, if it is flagged as a
    root entity owned by another scene, let it be in the root list of
    that scene.  Then adding it to the scene, with no index or with an
    index that is an integer between 0 and the root-entity count, and
    removing it again gives back the root list of the scene, with the
    sibling indices it had. *)
Theorem removeRootEntity_after_addRootEntity (this : SceneRef) (index : option Z)
    (e : EntityRef) (w : World) :
  let l := rootEntities this w in
  let slot := default (JSArray.length l) index in
  let w1 := (addRootEntity this (Index.int <$> index) e w).1 in
  let w2 := (removeRootEntity this e w1).1 in
  well_formed w ->
  0 <= slot <= JSArray.length l ->
  ~ (Entity._isRoot (entity e w) = true /\ Entity._scene (entity e w) = Some this) ->
  (forall old, Entity._isRoot (entity e w) = true ->
               Entity._scene (entity e w) = Some old -> e ∈ rootEntities old w) ->
  (removeRootEntity this e w1).2 = Return tt /\
  rootEntities this w2 = l /\
  forall x, x ∈ l ->
    Entity._siblingIndex (entity x w2) = Entity._siblingIndex (entity x w).
Proof.
  intros l slot w1 w2 Hwf Hin Hnot Hlisted.
  destruct (addRootEntity_returns this index e w Hwf Hin Hnot Hlisted) as [_ Hl1].
  fold l slot w1 in Hl1.
  pose proof (addRootEntity_well_formed this index e w Hwf) as Hwf1. fold w1 in Hwf1.
  assert (List.length (take (Z.to_nat slot) l) = Z.to_nat slot) as Hlen.
  { rewrite length_take. unfold JSArray.length in Hin. lia. }
  assert (rootEntities this w1 !! Z.to_nat slot = Some e) as He.
  { rewrite Hl1. by rewrite list_lookup_middle. }
  destruct (removeRootEntity_returns this e _ w1 Hwf1 He) as (Hret & Hl2 & _).
  fold w2 in Hl2.
  assert (rootEntities this w2 = l) as Hback.
  { rewrite Hl2, Hl1, delete_take_drop.
    rewrite take_app_length' by done.
    replace (S (Z.to_nat slot)) with (List.length (take (Z.to_nat slot) l) + 1)%nat
      by lia.
    rewrite drop_app_add. cbn [drop]. rewrite ?drop_0. apply take_drop. }
  split; [done |]. split; [done |].
  intros x [i Hi]%list_elem_of_lookup.
  pose proof (removeRootEntity_well_formed this e w1 Hwf1) as (Hidx2 & _).
  fold w2 in Hidx2. destruct Hwf as (Hidx & _).
  assert (rootEntities this w2 !! i = Some x) as Hi2 by by rewrite Hback.
  apply Hidx2 in Hi2 as [-> _]. apply Hidx in Hi as [-> _]. done.
Qed.

End SceneMoreCalls.

(** ** Searching the root entities by name *)

Section SceneSearch.
Import Scene.

Variable findByName : EntityStore -> EntityRef -> string -> option EntityRef.

Lemma elem_of_rev (x : EntityRef) (l : list EntityRef) : x ∈ rev l <-> x ∈ l.
Proof. rewrite !list_elem_of_In. symmetry. apply in_rev. Qed.

Lemma findEntityByName_named_last (h : EntityStore) (name : string)
    (before after : list EntityRef) (e : EntityRef) :
  Entity.name (h e) = Some name ->
  (forall x, x ∈ after -> Entity.name (h x) <> Some name) ->
  SceneMore.findEntityByName_named h name (rev (before ++ e :: after)) = Some e.
Proof.
  intros He Hafter. rewrite rev_app_distr. cbn [rev]. rewrite <- app_assoc. cbn [app].
  induction after as [| x after IH] using rev_ind; cbn.
  - by rewrite decide_True.
  - rewrite rev_app_distr. cbn. rewrite decide_False.
    + apply IH. intros y Hy. apply Hafter. set_solver.
    + apply Hafter. set_solver.
Qed.

Lemma findEntityByName_named_None (h : EntityStore) (name : string)
    (children : list EntityRef) :
  SceneMore.findEntityByName_named h name children = None <->
  forall x, x ∈ children -> Entity.name (h x) <> Some name.
Proof.
  induction children as [| c children IH]; cbn.
  - split; [| done]. intros _ x Hx. by apply not_elem_of_nil in Hx.
  - case_decide as Hc.
    + split; [done |]. intros Hall. exfalso. apply (Hall c); [left | done].
    + rewrite IH. split.
      * intros Hall x [-> | Hx]%elem_of_cons; [done | by apply Hall].
      * intros Hall x Hx. apply Hall. by right.
Qed.

Lemma findEntityByName_inside_None (h : EntityStore) (name : string)
    (children : list EntityRef) :
  SceneMore.findEntityByName_inside findByName h name children = None <->
  forall x, x ∈ children -> findByName h x name = None.
Proof.
  induction children as [| c children IH]; cbn.
  - split; [| done]. intros _ x Hx. by apply not_elem_of_nil in Hx.
  - destruct (findByName h c name) as [found |] eqn:Hc.
    + split; [done |]. intros Hall. specialize (Hall c). rewrite Hc in Hall.
      exfalso. by discriminate Hall; left.
    + rewrite IH. split.
      * intros Hall x [-> | Hx]%elem_of_cons; [done | by apply Hall].
      * intros Hall x Hx. apply Hall. by right.
Qed.

(** X9.  When root entities of the scene carry the name, the one in the
    highest slot is what [findEntityByName] returns, whatever the search
    inside the hierarchies would find: the descendants of the root
    entities are searched only when no root entity has the name. *)
Theorem findEntityByName_last_root (this : SceneRef) (name : string) (w : World)
    (k : nat) (e : EntityRef) :
  rootEntities this w !! k = Some e ->
  Entity.name (entity e w) = Some name ->
  (forall (j : nat) (x : EntityRef),
     (k < j)%nat -> rootEntities this w !! j = Some x -> Entity.name (entity x w) <> Some name) ->
  SceneMore.findEntityByName findByName this name w = Some e.
Proof.
  intros Hk He Hlast. unfold SceneMore.findEntityByName.
  rewrite <- (take_drop_middle _ _ _ Hk).
  rewrite findEntityByName_named_last; [done | done |].
  intros x [j Hj]%list_elem_of_lookup. rewrite lookup_drop in Hj.
  apply (Hlast (S k + j)%nat x); [lia | done].
Qed.

(** X10.  [findEntityByName] answers [null] exactly when no root entity
    of the scene has the name and the search by name inside each root
    entity finds nothing; in particular it does on a scene without root
    entities. *)
Theorem findEntityByName_null (this : SceneRef) (name : string) (w : World) :
  SceneMore.findEntityByName findByName this name w = None <->
  forall x, x ∈ rootEntities this w ->
            Entity.name (entity x w) <> Some name /\ findByName (entities w) x name = None.
Proof.
  unfold SceneMore.findEntityByName.
  destruct (SceneMore.findEntityByName_named _ _ _) as [found |] eqn:Hnamed.
  - split; [done |]. intros Hall. exfalso.
    assert (SceneMore.findEntityByName_named (entities w) name
              (rev (rootEntities this w)) = None) as Hnone; [| congruence].
    apply findEntityByName_named_None. intros x Hx. apply (proj1 (elem_of_rev _ _)) in Hx.
    by destruct (Hall x Hx).
  - rewrite findEntityByName_named_None in Hnamed.
    rewrite findEntityByName_inside_None. split.
    + intros Hall x Hx. split.
      * apply Hnamed. by apply (proj2 (elem_of_rev _ _)).
      * apply Hall. by apply (proj2 (elem_of_rev _ _)).
    + intros Hall x Hx. apply (proj1 (elem_of_rev _ _)) in Hx.
      by destruct (Hall x Hx).
Qed.

End SceneSearch.

(** ** The active cameras of a scene *)

Section SceneCameras.
Import SceneMore.

Implicit Types (cameras : list CameraRef) (camera : CameraRef).

Lemma indexOf_present camera cameras :
  camera ∈ cameras ->
  exists i : nat,
    JSArray.indexOf camera cameras = Z.of_nat i /\ cameras !! i = Some camera.
Proof.
  intros Hin. unfold JSArray.indexOf.
  destruct (list_find _ cameras) as [[i x] |] eqn:Hfind.
  - apply list_find_Some in Hfind as (Hi & -> & _). by exists i.
  - apply list_find_None in Hfind. exfalso.
    by apply (proj1 (Forall_forall _ _) Hfind camera).
Qed.

Lemma indexOf_minus_one camera cameras :
  JSArray.indexOf camera cameras = -1 <-> camera ∉ cameras.
Proof.
  split.
  - intros Hidx Hin. apply indexOf_present in Hin as (i & Hi & _). lia.
  - apply indexOf_absent.
Qed.

(** One call keeps the array free of duplicates. *)
Lemma cameraCall_step (c : CameraCall) cameras :
  NoDup cameras ->
  NoDup (cameraCall c cameras) /\
  forall x, x ∈ cameraCall c cameras <->
            match c with
            | AttachRenderCamera camera => x = camera \/ x ∈ cameras
            | DetachRenderCamera camera => x <> camera /\ x ∈ cameras
            end.
Proof.
  intros Hnodup. destruct c as [camera | camera]; cbn [cameraCall].
  - unfold _attachRenderCamera. case_decide as Hidx; cbn [fst].
    + apply indexOf_minus_one in Hidx. unfold JSArray.push. split.
      * apply NoDup_app. split; [done |]. split; [| apply NoDup_singleton].
        intros x Hx ->%list_elem_of_singleton. done.
      * intros x. rewrite elem_of_app, list_elem_of_singleton. tauto.
    + split; [done |]. intros x. split; [tauto |].
      intros [-> | Hx]; [| done].
      destruct (decide (camera ∈ cameras)) as [Hin | Hout]; [done |].
      by apply indexOf_minus_one in Hout.
  - unfold _detachRenderCamera. case_decide as Hidx.
    + destruct (decide (camera ∈ cameras)) as [Hin | Hout];
        [| by apply indexOf_minus_one in Hout].
      apply indexOf_present in Hin as (i & -> & Hi).
      rewrite splice_delete, Nat2Z.id by lia. split.
      * apply (sublist_NoDup (delete i cameras) cameras); [done | apply sublist_delete].
      * intros x. rewrite <- (take_drop_middle _ _ _ Hi) in Hnodup |- * at 2.
        rewrite delete_take_drop.
        apply NoDup_app in Hnodup as (_ & Hsep & [Hfresh _]%NoDup_cons).
        rewrite !elem_of_app, elem_of_cons. split.
        -- intros [Hx | Hx].
           ++ split; [| tauto]. intros ->. apply (Hsep camera Hx). by left.
           ++ split; [| tauto]. by intros ->.
        -- tauto.
    + assert (JSArray.indexOf camera cameras = -1) as Habsent%indexOf_minus_one
        by (destruct (decide (JSArray.indexOf camera cameras = -1)); tauto).
      split; [done |]. intros x. split; [| tauto].
      intros Hx. split; [| done]. by intros ->.
Qed.

Lemma cameraCalls_NoDup (cs : list CameraCall) cameras :
  NoDup cameras -> NoDup (cameraCalls cs cameras).
Proof.
  revert cameras. induction cs as [| c cs IH]; intros cameras Hnodup; cbn; [done |].
  by apply IH, cameraCall_step.
Qed.

(** X11.  The array of active cameras, empty at first and changed by
    [_attachRenderCamera] and [_detachRenderCamera] only, never holds a
    camera twice; after an attachment the camera is in the array and
    after a detachment it is not, and either call leaves the membership
    of every other camera as it was. *)
Theorem activeCameras_calls (cs : list CameraCall) (c : CameraCall) :
  let before := cameraCalls cs [] in
  let after := cameraCalls (cs ++ [c]) [] in
  NoDup after /\
  forall x, x ∈ after <->
            match c with
            | AttachRenderCamera camera => x = camera \/ x ∈ before
            | DetachRenderCamera camera => x <> camera /\ x ∈ before
            end.
Proof.
  intros before after. unfold after, cameraCalls. rewrite fold_left_app. cbn [fold_left].
  apply cameraCall_step, cameraCalls_NoDup, NoDup_nil_2.
Qed.

(** X12.  The calls that have nothing to do: attaching a camera that is
    already in the array leaves the array as it is and logs the warning
    once, and detaching a camera that is not in the array leaves the
    array as it is (the index [-1] never reaches [splice]). *)
Theorem camera_calls_without_effect camera cameras :
  (camera ∈ cameras ->
   _attachRenderCamera camera cameras = (cameras, ["Camera already attached."])) /\
  (camera ∉ cameras -> _detachRenderCamera camera cameras = cameras).
Proof.
  split.
  - intros (i & Hi & _)%indexOf_present. unfold _attachRenderCamera.
    rewrite Hi. by rewrite decide_False by lia.
  - intros Hout%indexOf_minus_one. unfold _detachRenderCamera.
    rewrite Hout. by rewrite decide_False by (intros Hne; by apply Hne).
Qed.

(** Removing the first occurrence of an element, as [indexOf] followed
    by [splice] does. *)
Lemma splice_indexOf_first camera (before after : list CameraRef) :
  camera ∉ before ->
  JSArray.indexOf camera (before ++ camera :: after) = Z.of_nat (List.length before) /\
  JSArray.splice (JSArray.indexOf camera (before ++ camera :: after)) 1 []
    (before ++ camera :: after)
  = before ++ after.
Proof.
  intros Hfresh. unfold JSArray.indexOf.
  assert (list_find (fun y => y = camera) (before ++ camera :: after)
          = Some (List.length before, camera)) as ->.
  { apply list_find_Some. split; [by apply list_lookup_middle |]. split; [done |].
    intros j y Hj Hlt ->. rewrite lookup_app_l in Hj by done.
    by apply Hfresh, (list_elem_of_lookup_2 _ j). }
  split; [done |].
  rewrite splice_delete, Nat2Z.id by lia.
  rewrite delete_take_drop, take_app_length.
  replace (S (List.length before)) with (List.length before + 1)%nat by lia.
  by rewrite drop_app_add.
Qed.

(** X13.  Detaching a camera removes its first occurrence and nothing
    else: the cameras before and after it keep their order. *)
Theorem detachRenderCamera_removes camera (before after : list CameraRef) :
  camera ∉ before ->
  _detachRenderCamera camera (before ++ camera :: after) = before ++ after.
Proof.
  intros Hfresh. unfold _detachRenderCamera.
  destruct (splice_indexOf_first camera before after Hfresh) as [Hidx Hsplice].
  rewrite decide_True by lia. exact Hsplice.
Qed.

End SceneCameras.

(** ** The shader data and the activity of a scene *)

Section SceneShaderDataMore.
Import Scene.

(** X14.  After [Scene._updateShaderData], the cached sun light is the
    light that the directional container holds in the slot that
    [_getSunLightIndex] names, or the former one when that index is
    [-1].
    [CASCADED_SHADOW_MAP] is enabled exactly when the scene casts shadows
    and that light exists with a shadow type other than [None], and
    [SHADOW_MODE] then carries the shadow type; otherwise
    [CASCADED_SHADOW_MAP] is disabled, while [SHADOW_MODE] keeps whatever
    it carried before the call: the code never disables it. *)
Theorem scene_updateShaderData_shadow_macros (lights : LightManager.State)
    (engineMacros : ShaderData.t) (this : t) :
  let this' := _updateShaderData lights engineMacros this in
  let index := LightManager._getSunLightIndex lights in
  let shadow : option ShadowType :=
    if castShadows this then
      match _sunLight this' with
      | Some light =>
          let type := shadowType (LightManager.directLight lights light) in
          if decide (type <> ShadowType_None) then Some type else None
      | None => None
      end
    else None in
  (if decide (index = -1) then _sunLight this' = _sunLight this
   else exists light,
       LightManager._directLights (LightManager.manager lights) !! Z.to_nat index
       = Some light /\
       0 <= index /\
       _sunLight this' = Some light) /\
  shaderData this' !! "CASCADED_SHADOW_MAP" = (fun _ => EmptyString) <$> shadow /\
  shaderData this' !! "SHADOW_MODE"
  = match shadow with
    | Some type => Some (ShadowType_toString type)
    | None => shaderData this !! "SHADOW_MODE"
    end.
Proof.
  intros this' index shadow.
  assert (forall d : ShaderData.t,
            LightManager._updateShaderData lights d !! "SHADOW_MODE"
            = d !! "SHADOW_MODE") as Hmode.
  { intros d. unfold LightManager._updateShaderData. rewrite !countMacro.
    by rewrite !decide_False by done. }
  split.
  - unfold this', _updateShaderData. cbn [_sunLight]. fold index.
    destruct (decide (index = -1)) as [Hnone | Hsome].
    + by rewrite decide_False by (intros Hne; by apply Hne).
    + rewrite decide_True by done.
      pose proof (sunLightLoop_in_range (LightManager.directLight lights)
                    (LightManager._directLights (LightManager.manager lights))
                    0 (-1) JS.NEGATIVE_INFINITY false) as Hrange.
      fold (LightManager._getSunLightIndex lights) in Hrange. fold index in Hrange.
      unfold DisorderedArray.get. rewrite decide_True by lia.
      destruct (LightManager._directLights (LightManager.manager lights)
                  !! Z.to_nat index) as [light |] eqn:Hlight.
      * exists light. split; [done |]. split; [lia | done].
      * apply lookup_ge_None in Hlight. lia.
  - unfold shadow, this', _updateShaderData. cbn [_sunLight shaderData].
    destruct (if decide (LightManager._getSunLightIndex lights <> -1) then _ else _)
      as [light |]; cbn [fmap option_fmap option_map].
    + destruct (castShadows this); cbn [andb].
      * destruct (decide (shadowType (LightManager.directLight lights light)
                          = ShadowType_None)) as [Htype | Htype].
        -- rewrite Htype.
           rewrite decide_False, bool_decide_eq_false_2
             by (intros Hne; by apply Hne).
           cbn [fmap option_fmap option_map].
           split; [apply disableMacro_same |].
           rewrite disableMacro_other by done. apply Hmode.
        -- rewrite decide_True, bool_decide_eq_true_2 by done.
           cbn [fmap option_fmap option_map].
           split; [| apply enableMacro_same].
           rewrite enableMacro_other by done. apply enableMacro_same.
      * cbn [fmap option_fmap option_map]. split; [apply disableMacro_same |].
        rewrite disableMacro_other by done. apply Hmode.
    + assert ((if castShadows this then @None ShadowType else None) = None) as ->
        by by destruct (castShadows this).
      cbn [fmap option_fmap option_map]. split; [apply disableMacro_same |].
      rewrite disableMacro_other by done. apply Hmode.
Qed.

(** X15.  The macro [CASCADED_COUNT] always carries the current cascade
    mode: after the constructor and any series of assignments to
    [shadowCascades], it is enabled with the decimal numeral of the value
    that the getter answers, which is the last value assigned, or the
    initial one when nothing was assigned. *)
Theorem shadowCascades_macro (initial : Z) (shaderData : ShaderData.t)
    (values : list Z) :
  let this := SceneMore.assigned values (SceneMore.constructed initial shaderData) in
  this.1 = List.last values initial /\
  this.2 !! "CASCADED_COUNT" = Some (Number_toString this.1).
Proof.
  cbv zeta. unfold SceneMore.assigned.
  set (step := fun (this : Z * ShaderData.t) value =>
                 SceneMore.set_shadowCascades value this).
  assert (forall (s : Z * ShaderData.t),
            s.2 !! "CASCADED_COUNT" = Some (Number_toString s.1) ->
            (fold_left step values s).1 = List.last values s.1 /\
            (fold_left step values s).2 !! "CASCADED_COUNT"
            = Some (Number_toString (fold_left step values s).1)) as Hinv.
  { induction values as [| value values IH]; intros s Hs; [done |].
    cbn [fold_left].
    assert ((step s value).1 = value /\
            (step s value).2 !! "CASCADED_COUNT" = Some (Number_toString value))
      as [Hvalue Hmacro].
    { unfold step, SceneMore.set_shadowCascades. destruct s as [current d].
      case_decide as Hchange; cbn [fst snd].
      - split; [done | apply enableMacro_same].
      - cbn [fst snd] in Hs. by subst. }
    destruct (IH (step s value)) as [Hlast Hcount].
    { by rewrite Hvalue. }
    split; [| done]. rewrite Hlast, Hvalue.
    destruct values as [| value' values]; [done |].
    clear. revert value'. cbn [List.last].
    induction values as [| value'' values IH]; intros value'; [done |].
    apply (IH value''). }
  apply (Hinv (SceneMore.constructed initial shaderData)). apply enableMacro_same.
Qed.

End SceneShaderDataMore.

Section SceneActivity.
Import Scene.
Context `{EntityMethods}.

Lemma processActive_loop_keeps (active : bool) (l : list EntityRef) (h : EntityStore)
    (x : EntityRef) :
  let h' := SceneMore._processActive_loop active l h in
  Entity.name (h' x) = Entity.name (h x) /\
  Entity._isRoot (h' x) = Entity._isRoot (h x) /\
  Entity._scene (h' x) = Entity._scene (h x) /\
  Entity._siblingIndex (h' x) = Entity._siblingIndex (h x) /\
  Entity._parent (h' x) = Entity._parent (h x).
Proof.
  revert h. induction l as [| e l IH]; intros h; cbn; [done |].
  match goal with
  | |- context [SceneMore._processActive_loop active l ?h1] =>
      destruct (IH h1) as (-> & -> & -> & -> & ->)
  end.
  destruct (Entity._isActive (h e)); [| done].
  destruct active.
  - apply processActive_keeps.
  - apply processInActive_keeps.
Qed.

(** Whatever the entity methods do, [Scene._processActive] keeps a
    well-formed world well formed. *)
Lemma scene_processActive_frame (this : SceneRef) (active : bool) (w : World) :
  well_formed w ->
  let w' := SceneMore._processActive this active w in
  well_formed w' /\
  _isActiveInEngine (scenes w' this) = active /\
  (forall sc, sc <> this -> scenes w' sc = scenes w sc) /\
  (forall sc, rootEntities sc w' = rootEntities sc w) /\
  SceneMore.same_links w w'.
Proof.
  intros Hwf w'.
  assert (forall sc, rootEntities sc w' = rootEntities sc w) as Hroots.
  { intros sc. unfold rootEntities, w', SceneMore._processActive. cbn.
    by case_decide; subst. }
  assert (SceneMore.same_links w w') as Hsame.
  { intros x. unfold same_fields, entity, w', SceneMore._processActive. cbn.
    destruct (processActive_loop_keeps active (rev (rootEntities this w))
                (entities w) x) as (? & ? & ? & ? & ?).
    done. }
  split; [| split; [| split; [| split]]]; [| | | done | done].
  - by apply (well_formed_same w).
  - unfold w', SceneMore._processActive. cbn. by rewrite decide_True.
  - intros sc Hne. unfold w', SceneMore._processActive. cbn. by rewrite decide_False.
Qed.

End SceneActivity.

Section SceneActivitySimple.
Import Scene.

(** The loop of [Scene._processActive] over simple entities without a
    parent: those of the list that are active get the flag, and the
    others keep theirs. *)
Lemma simple_processActive_loop (depth : nat) (active : bool) (l : list EntityRef)
    (h : EntityStore) (x : EntityRef) :
  NoDup l ->
  (forall e, e ∈ l -> Entity._parent (h e) = None) ->
  Entity._parent (h x) = None ->
  Entity._isActiveInHierarchy
    (SceneMore._processActive_loop (H := simpleEntities depth) active l h x)
  = if bool_decide (x ∈ l) && Entity._isActive (h x) then active
    else Entity._isActiveInHierarchy (h x).
Proof.
  revert h. induction l as [| e l IH]; intros h Hnd Hroots Hx; [done |].
  apply NoDup_cons in Hnd as [He Hnd].
  cbn [SceneMore._processActive_loop].
  set (h1 := if Entity._isActive (h e) then _ else h).
  assert (forall y, Entity._parent (h1 y) = Entity._parent (h y) /\
                    Entity._isActive (h1 y) = Entity._isActive (h y)) as Hkeep.
  { intros y. unfold h1. destruct (Entity._isActive (h e)); [| done].
    destruct active; cbn; split; by apply traverse_keeps. }
  rewrite (IH h1 Hnd).
  2:{ intros y Hy. destruct (Hkeep y) as [-> _]. apply Hroots. by right. }
  2:{ by destruct (Hkeep x) as [-> _]. }
  destruct (Hkeep x) as [_ ->].
  destruct (decide (x = e)) as [-> | Hne].
  - rewrite (bool_decide_eq_false_2 (e ∈ l)) by done.
    rewrite (bool_decide_eq_true_2 (e ∈ e :: l)) by left. cbn [andb].
    unfold h1. destruct (Entity._isActive (h e)); [| done].
    destruct active; cbn; by apply (traverse_target Entity._isActiveInHierarchy).
  - assert (bool_decide (x ∈ e :: l) = bool_decide (x ∈ l)) as ->.
    { apply bool_decide_ext. rewrite elem_of_cons. tauto. }
    assert (h1 x = h x) as ->; [| done].
    unfold h1. destruct (Entity._isActive (h e)); [| done].
    destruct active; cbn; by apply traverse_frame.
Qed.

(** X16.  [Scene._processActive] keeps a well-formed world well formed,
    whatever the entity methods do within their frame: it records the
    flag in the scene and in no other scene, leaves every root list as
    it is, and no entity changes its name, root flag, owning scene,
    sibling index or parent.  With the simple entities, each root entity
    of the scene whose [_isActive] flag is set ends active in the
    hierarchy or not as the scene is, and the others keep their state. *)
Theorem scene_processActive_well_formed (this : SceneRef) (active : bool) (w : World) :
  well_formed w ->
  (forall (H : EntityMethods),
      let w' := SceneMore._processActive this active w in
      well_formed w' /\
      _isActiveInEngine (scenes w' this) = active /\
      (forall sc, sc <> this -> scenes w' sc = scenes w sc) /\
      (forall sc, rootEntities sc w' = rootEntities sc w) /\
      SceneMore.same_links w w') /\
  (forall (depth : nat) (e : EntityRef),
      e ∈ rootEntities this w ->
      Entity._isActiveInHierarchy
        (entity e (SceneMore._processActive (H := simpleEntities depth) this active w))
      = if Entity._isActive (entity e w) then active
        else Entity._isActiveInHierarchy (entity e w)).
Proof.
  intros Hwf. split.
  - intros H. by apply scene_processActive_frame.
  - intros depth e He. pose proof Hwf as (Hidx & _).
    unfold entity, SceneMore._processActive. cbn [entities].
    rewrite simple_processActive_loop.
    + rewrite bool_decide_eq_true_2; [done |].
      by apply list_elem_of_In, in_rev; rewrite rev_involutive; apply list_elem_of_In.
    + apply NoDup_ListNoDup, NoDup_rev, NoDup_ListNoDup.
      by apply indexed_roots_NoDup.
    + intros y Hy. apply list_elem_of_In, in_rev, list_elem_of_In in Hy.
      apply list_elem_of_lookup in Hy as [i Hi]. by apply Hidx in Hi as (_ & _ & ?).
    + apply list_elem_of_lookup in He as [i Hi]. by apply Hidx in Hi as (_ & _ & ?).
Qed.

End SceneActivitySimple.

(** ** The pass array of the pipeline *)

Section PassArray.
Import BasicRenderPipeline PipelineMore.

Variable passes : PassStore.

Local Abbreviation priority pass := (RenderPass.priority (passes pass)).
Local Abbreviation insert := (Array_sort_insert (byPriority passes)).
Local Abbreviation sort := (Array_sort (byPriority passes)).

Implicit Types (array : list PassRef) (pass : PassRef).

Lemma ascending_cons pass array :
  ascending passes (pass :: array) <->
  (forall q, q ∈ array -> priority pass <= priority q) /\ ascending passes array.
Proof.
  split.
  - intros Hasc. split.
    + intros q [j Hj]%list_elem_of_lookup.
      apply (Hasc 0%nat (S j) pass q); [lia | done | done].
    + intros i j p q Hlt Hi Hj. apply (Hasc (S i) (S j) p q); [lia | done | done].
  - intros [Hhead Htail] i j p q Hlt Hi Hj.
    destruct j as [| j]; [lia |]. cbn in Hj.
    destruct i as [| i]; cbn in Hi.
    + simplify_eq. apply Hhead. by apply (list_elem_of_lookup_2 _ j).
    + apply (Htail i j p q); [lia | done | done].
Qed.

Lemma insert_Permutation pass array : insert pass array ≡ₚ pass :: array.
Proof.
  induction array as [| q array IH]; cbn; [done |].
  case_decide; [done |]. rewrite IH. apply Permutation_swap.
Qed.

Lemma insert_ascending pass array :
  ascending passes array -> ascending passes (insert pass array).
Proof.
  induction array as [| q array IH]; intros Hasc; cbn.
  - apply ascending_cons. split; [| done]. intros x Hx. by apply not_elem_of_nil in Hx.
  - apply ascending_cons in Hasc as [Hhead Htail]. unfold byPriority at 1.
    case_decide as Hle.
    + apply ascending_cons. split.
      * intros x [-> | Hx]%elem_of_cons; [lia |]. specialize (Hhead x Hx). lia.
      * by apply ascending_cons.
    + apply ascending_cons. split; [| by apply IH].
      intros x Hx. rewrite insert_Permutation in Hx.
      apply elem_of_cons in Hx as [-> | Hx]; [lia | by apply Hhead].
Qed.

Lemma sort_Permutation array : sort array ≡ₚ array.
Proof.
  induction array as [| q array IH]; cbn; [done |].
  unfold Array_sort in IH. by rewrite insert_Permutation, IH.
Qed.

Lemma sort_ascending array : ascending passes (sort array).
Proof.
  induction array as [| q array IH]; cbn.
  - intros i j p q _ Hi. by rewrite lookup_nil in Hi.
  - by apply insert_ascending.
Qed.

(** X17.  Whatever the pass array is, [addRenderPass] leaves it in
    ascending order of priority, holding the passes it held and the new
    pass, each as many times as before; the default pass is unchanged. *)
Theorem addRenderPass_sorts pass (this : t) :
  let this' := addRenderPass passes pass this in
  ascending passes (_renderPassArray this') /\
  _renderPassArray this' ≡ₚ pass :: _renderPassArray this /\
  _defaultPass this' = _defaultPass this.
Proof.
  cbn. split; [apply sort_ascending |]. split; [| done].
  rewrite sort_Permutation. unfold JSArray.push.
  by rewrite Permutation_app_comm.
Qed.

(** Sorting an ascending array to which one pass has been pushed. *)
Lemma sort_pushed pass array :
  ascending passes array ->
  sort (array ++ [pass])
  = List.filter (fun q => bool_decide (priority q <= priority pass)) array ++
    pass :: List.filter (fun q => bool_decide (priority pass < priority q)) array.
Proof.
  induction array as [| q array IH]; intros Hasc; [done |].
  apply ascending_cons in Hasc as [Hhead Htail].
  cbn [app Array_sort foldr List.filter]. fold (sort (array ++ [pass])).
  rewrite (IH Htail).
  destruct (decide (priority q <= priority pass)) as [Hle | Hgt].
  - rewrite bool_decide_eq_true_2, (bool_decide_eq_false_2 (priority pass < priority q))
      by lia.
    cbn [app].
    destruct (List.filter _ array ++ pass :: List.filter _ array) as [| x rest] eqn:Hrest.
    { by destruct (List.filter _ array). }
    cbn [Array_sort_insert]. unfold byPriority at 1.
    destruct (decide (priority q - priority x <= 0)) as [_ | Hlt]; [done |].
    exfalso. apply Hlt.
    assert (x ∈ pass :: array) as [-> | Hx]%elem_of_cons.
    { assert (x ∈ x :: rest) as Hx by left. rewrite <- Hrest in Hx.
      apply elem_of_app in Hx as [Hx | Hx].
      - right. apply list_elem_of_In, filter_In in Hx as [Hx _].
        by apply list_elem_of_In.
      - apply elem_of_cons in Hx as [-> | Hx]; [by left |].
        right. apply list_elem_of_In, filter_In in Hx as [Hx _].
        by apply list_elem_of_In. }
    + lia.
    + specialize (Hhead x Hx). lia.
  - rewrite (bool_decide_eq_false_2 (priority q <= priority pass)),
      (bool_decide_eq_true_2 (priority pass < priority q)) by lia.
    assert (List.filter (fun q => bool_decide (priority q <= priority pass)) array = [])
      as ->.
    { clear IH Htail. induction array as [| x array IHa]; [done |]. cbn.
      rewrite bool_decide_eq_false_2.
      - apply IHa. intros y Hy. apply Hhead. by right.
      - specialize (Hhead x ltac:(left)). lia. }
    assert (List.filter (fun q => bool_decide (priority pass < priority q)) array = array)
      as ->.
    { clear IH Htail. induction array as [| x array IHa]; [done |]. cbn.
      rewrite bool_decide_eq_true_2.
      - f_equal. apply IHa. intros y Hy. apply Hhead. by right.
      - specialize (Hhead x ltac:(left)). lia. }
    cbn [app Array_sort_insert]. unfold byPriority at 1.
    destruct (decide (priority q - priority pass <= 0)) as [Hle | _]; [lia |].
    f_equal.
    destruct array as [| x array]; [done |]. cbn [Array_sort_insert].
    unfold byPriority at 1. specialize (Hhead x ltac:(left)).
    destruct (decide (priority q - priority x <= 0)) as [_ | Hlt]; [done | lia].
Qed.

(** X18.  On a pass array in ascending order of priority,
    [addRenderPass] puts the new pass after the passes whose priority is
    lower than or equal to its own and before the passes of higher
    priority, and the other passes keep their order: among passes of one
    priority, the pass added last is drawn last. *)
Theorem addRenderPass_position pass (this : t) :
  ascending passes (_renderPassArray this) ->
  _renderPassArray (addRenderPass passes pass this)
  = List.filter (fun q => bool_decide (priority q <= priority pass))
      (_renderPassArray this) ++
    pass ::
    List.filter (fun q => bool_decide (priority pass < priority q))
      (_renderPassArray this).
Proof. intros Hasc. by apply sort_pushed. Qed.

Lemma getRenderPass_loop_first (name : string) (before after : list PassRef) pass :
  (forall q, q ∈ before -> RenderPass.name (passes q) <> name) ->
  RenderPass.name (passes pass) = name ->
  getRenderPass_loop passes name (before ++ pass :: after) = Some pass.
Proof.
  intros Hbefore Hname. induction before as [| q before IH]; cbn.
  - by rewrite decide_True.
  - rewrite decide_False by (apply Hbefore; left).
    apply IH. intros x Hx. apply Hbefore. by right.
Qed.

(** X19.  [getRenderPass] answers the first pass of the array that has
    the name, and [null] exactly when no pass of the array has it. *)
Theorem getRenderPass_first (name : string) (this : t) :
  match getRenderPass passes name this with
  | Some pass =>
      exists before after,
        _renderPassArray this = before ++ pass :: after /\
        RenderPass.name (passes pass) = name /\
        forall q, q ∈ before -> RenderPass.name (passes q) <> name
  | None =>
      forall q, q ∈ _renderPassArray this -> RenderPass.name (passes q) <> name
  end.
Proof.
  unfold getRenderPass.
  induction (_renderPassArray this) as [| q array IH]; cbn.
  - intros q Hq. by apply not_elem_of_nil in Hq.
  - case_decide as Hq.
    + exists [], array. split; [done |]. split; [done |].
      intros x Hx. by apply not_elem_of_nil in Hx.
    + destruct (getRenderPass_loop passes name array) as [pass |].
      * destruct IH as (before & after & -> & Hname & Hbefore).
        exists (q :: before), after. split; [done |]. split; [done |].
        intros x [-> | Hx]%elem_of_cons; [done | by apply Hbefore].
      * intros x [-> | Hx]%elem_of_cons; [done | by apply IH].
Qed.

(** X20.  [removeRenderPass] with a pass object of the array removes the
    first occurrence of that object, and with a name it removes the first
    pass of the array that has the name; the other passes keep their
    order, and the default pass is not protected. *)
Theorem removeRenderPass_removes_first (before after : list PassRef) pass
    (defaultPass : PassRef) :
  let this := mk defaultPass (before ++ pass :: after) in
  (pass ∉ before ->
   removeRenderPass passes (inr pass) this = mk defaultPass (before ++ after)) /\
  ((forall q, q ∈ before ->
              RenderPass.name (passes q) <> RenderPass.name (passes pass)) ->
   removeRenderPass passes (inl (RenderPass.name (passes pass))) this
   = mk defaultPass (before ++ after)).
Proof.
  intros this. split.
  - intros Hfresh. unfold removeRenderPass, this. cbn [_renderPassArray _defaultPass].
    f_equal. exact (proj2 (splice_indexOf_first pass before after Hfresh)).
  - intros Hnames. unfold removeRenderPass, getRenderPass, this.
    cbn [_renderPassArray _defaultPass].
    rewrite getRenderPass_loop_first by done.
    assert (pass ∉ before) as Hfresh.
    { intros Hin. by apply (Hnames pass Hin). }
    f_equal. exact (proj2 (splice_indexOf_first pass before after Hfresh)).
Qed.

End PassArray.

(** ** A frame of the pipeline *)

Section Frame.
Import BasicRenderPipeline PipelineMore.

Lemma callRender_visit_events (camera : Camera.t) (index : nat) (renderer : Renderer.t) :
  (_callRender_visit camera index renderer).2
  = if keptb camera renderer
    then [renderer_updateShaderData index; renderer_render index;
          renderer_unionMacros index]
    else [].
Proof.
  unfold _callRender_visit, keptb.
  case_decide as Hmask.
  - by rewrite bool_decide_eq_false_2 by (intros Hne; by apply Hne).
  - rewrite bool_decide_eq_true_2 by done.
    destruct (Camera.enableFrustumCulling camera); cbn; [| done].
    by destruct (Camera._frustum_intersectsBox camera _).
Qed.

Lemma callRender_loop_events (camera : Camera.t) (elements : list Renderer.t)
    (index : nat) :
  (_callRender_loop camera index elements).2
  = flat_map
      (fun i => [renderer_updateShaderData i; renderer_render i; renderer_unionMacros i])
      (rev (List.filter
              (fun i => match elements !! (i - index)%nat with
                        | Some renderer => keptb camera renderer
                        | None => false
                        end)
              (seq index (List.length elements)))).
Proof.
  revert index. induction elements as [| r elements IH]; intros index; [done |].
  cbn [_callRender_loop List.length seq List.filter].
  specialize (IH (S index)).
  destruct (_callRender_loop camera (S index) elements) as [elements' before].
  pose proof (callRender_visit_events camera index r) as Hvisit.
  destruct (_callRender_visit camera index r) as [r' events].
  cbn [fst snd] in *. subst before events.
  replace (index - index)%nat with 0%nat by lia. cbn [lookup list_lookup].
  assert (List.filter
            (fun i => match (r :: elements) !! (i - index)%nat with
                      | Some renderer => keptb camera renderer
                      | None => false
                      end) (seq (S index) (List.length elements))
          = List.filter
              (fun i => match elements !! (i - S index)%nat with
                        | Some renderer => keptb camera renderer
                        | None => false
                        end) (seq (S index) (List.length elements))) as ->.
  { apply filter_ext_in. intros i [Hi _]%in_seq.
    replace (i - index)%nat with (S (i - S index)) by lia. done. }
  destruct (keptb camera r); cbn [rev].
  - by rewrite flat_map_app.
  - by rewrite app_nil_r.
Qed.

(** X21.  [_callRender] visits the renderers from the last slot down to
    slot 0, and asks exactly those that pass the culling-mask and frustum
    checks, in that order and each one once, to update their shader
    data, to render and to merge their macros. *)
Theorem callRender_order (camera : Camera.t) (renderers : list Renderer.t) :
  (_callRender camera renderers).2
  = flat_map
      (fun i => [renderer_updateShaderData i; renderer_render i; renderer_unionMacros i])
      (rev (List.filter
              (fun i => match renderers !! i with
                        | Some renderer => keptb camera renderer
                        | None => false
                        end)
              (seq 0 (List.length renderers)))).
Proof.
  unfold _callRender. rewrite callRender_loop_events. do 2 f_equal.
  apply filter_ext. intros i. by rewrite Nat.sub_0_r.
Qed.

(** X22.  [_callRender] leaves every renderer in its slot, with its layer
    and bounds.  A renderer that fails the culling mask is not touched
    at all, its culled flag included; one that passes the mask under
    frustum culling gets as culled flag whether its bounds miss the
    frustum; and a renderer that is not rendered keeps its sort key. *)
Theorem callRender_slots (camera : Camera.t) (renderers : list Renderer.t) (i : nat)
    (renderer : Renderer.t) :
  renderers !! i = Some renderer ->
  exists renderer',
    (_callRender camera renderers).1 !! i = Some renderer' /\
    Renderer._entity_layer renderer' = Renderer._entity_layer renderer /\
    Renderer.bounds renderer' = Renderer.bounds renderer /\
    (Z.land (Camera.cullingMask camera) (Renderer._entity_layer renderer) = 0 ->
     renderer' = renderer) /\
    (Z.land (Camera.cullingMask camera) (Renderer._entity_layer renderer) <> 0 ->
     Renderer.isCulled renderer'
     = if Camera.enableFrustumCulling camera
       then negb (Camera._frustum_intersectsBox camera (Renderer.bounds renderer))
       else Renderer.isCulled renderer) /\
    (keptb camera renderer = false ->
     Renderer._distanceForSort renderer' = Renderer._distanceForSort renderer).
Proof.
  intros Hi. eexists. split.
  { unfold _callRender. by apply callRender_loop_lookup. }
  unfold _callRender_visit, keptb. cbn [Nat.add].
  case_decide as Hmask.
  - by rewrite bool_decide_eq_false_2 by (intros Hne; by apply Hne).
  - rewrite bool_decide_eq_true_2 by done.
    destruct (Camera.enableFrustumCulling camera); cbn.
    + destruct (Camera._frustum_intersectsBox camera _); cbn; by repeat split.
    + by repeat split.
Qed.

Lemma filter_isHook_during_callRender (events : list Event) :
  (forall e, e ∈ events ->
             match e with
             | preRender _ _ _ _ _ | postRender _ _ _ _ _ => False
             | _ => True
             end) ->
  List.filter isHook (during <$> events) = [].
Proof.
  induction events as [| e events IH]; intros Hnone; [done |].
  cbn. specialize (Hnone e ltac:(left)) as He.
  destruct e; try done; cbn; apply IH; intros x Hx; apply Hnone; by right.
Qed.



(** X24.  In a frame the cascaded shadow caster is rendered, once, exactly
    when the scene casts shadows and its sun light, if it has one, has a
    shadow type other than [None]; a scene that casts shadows and has no
    sun light at all has the shadow caster rendered. *)
Theorem render_shadow_caster (passes : PassStore) (lights : LightStore)
    (scene : Scene.t) (_camera context_camera : Camera.t)
    (renderers : list Renderer.t) (cubeFace mipLevel : option Z) (this : t) :
  List.filter (fun e => match e with cascadedShadowCaster_render => true | _ => false end)
    (render passes lights scene _camera context_camera renderers cubeFace mipLevel
       this).2
  = if Scene.castShadows scene &&
       match Scene._sunLight scene with
       | Some light => bool_decide (shadowType (lights light) <> ShadowType_None)
       | None => true
       end
    then [cascadedShadowCaster_render] else [].
Proof.
  unfold render. cbn [snd]. rewrite !List.filter_app.
  assert (forall events : list Event,
            List.filter
              (fun e => match e with cascadedShadowCaster_render => true | _ => false end)
              (during <$> events) = []) as Hduring.
  { intros events. induction events as [| e events IH]; [done |]. exact IH. }
  rewrite Hduring.
  assert (List.filter
            (fun e => match e with cascadedShadowCaster_render => true | _ => false end)
            (flat_map
               (fun pass =>
                  during <$> _drawRenderPass passes pass _camera cubeFace mipLevel)
               (_renderPassArray this)) = []) as ->.
  { induction (_renderPassArray this) as [| pass array IH]; [done |].
    cbn [flat_map]. by rewrite List.filter_app, Hduring, IH. }
  unfold castsShadows. cbn [List.filter app].
  rewrite !app_nil_r.
  by destruct (Scene.castShadows scene && _).
Qed.

(** X25.  What an enabled pass draws, in this order: with an override,
    its own [render] and nothing else; without, the opaque queue, the
    alpha-test queue, the background (the sky, or the background texture
    when there is one) if the clear flags of the camera include the
    color bit, and then the transparent queue, each queue with the
    replacement material and the mask of the pass. *)
Theorem drawRenderPass_draws (passes : PassStore) (pass : PassRef) (camera : Camera.t)
    (cubeFace mipLevel : option Z) :
  RenderPass.enabled (passes pass) = true ->
  let p := passes pass in
  let queue q :=
    queue_render q camera (RenderPass.replaceMaterial p) (RenderPass.mask p) in
  List.filter
    (fun e => match e with
              | BasicRenderPipeline.render _ _ _ _ _ | queue_render _ _ _ _ | sky_render
              | BasicRenderPipeline._drawBackgroundTexture => true
              | _ => false
              end)
    (_drawRenderPass passes pass camera cubeFace mipLevel)
  = if RenderPass.renderOverride p
    then [BasicRenderPipeline.render pass camera _opaqueQueue _alphaTestQueue
            _transparentQueue]
    else [queue _opaqueQueue; queue _alphaTestQueue] ++
         (if decide (Z.land (Camera.clearFlags camera) CameraClearFlags_Color = 0)
          then []
          else match mode (Camera.scene_background camera),
                     texture (Camera.scene_background camera) with
               | BackgroundMode_Sky, _ => [sky_render]
               | BackgroundMode_Texture, Some _ =>
                   [BasicRenderPipeline._drawBackgroundTexture]
               | _, _ => []
               end) ++
         [queue _transparentQueue].
Proof.
  intros Henabled p queue. unfold queue, p, _drawRenderPass, optionally, or_else, nullish.
  rewrite Henabled.
  destruct (Camera.renderTarget camera), (RenderPass.renderTarget (passes pass)),
    (RenderPass.renderOverride (passes pass));
    repeat case_decide; try done;
    destruct (mode (Camera.scene_background camera)); try done;
    by destruct (texture (Camera.scene_background camera)).
Qed.

End Frame.

(** ** The background texture *)

Section BackgroundTexture.
Import PipelineMore.

Lemma strictEquals_refl (x : JS.number) :
  JS.isNaN x = false -> strictEquals x x = true.
Proof.
  intros Hx. unfold strictEquals, SFeqb.
  destruct x as [s | s | | s m e]; try done.
  - by destruct s.
  - cbn. rewrite Z.compare_refl, Pos.compare_cont_refl. by destruct s.
Qed.

(** X26.  Once [_drawBackgroundTexture] has run for a canvas whose width
    and height are numbers, running it again for the same canvas draws
    again but resizes nothing and leaves the recorded canvas size as it
    is, whatever the fill mode and the size recorded before. *)
Theorem drawBackgroundTexture_resizes_once (canvas : JS.number * JS.number)
    (_textureFillMode : BackgroundTextureFillMode)
    (_lastCanvasSize : JS.number * JS.number) :
  JS.isNaN canvas.1 = false ->
  JS.isNaN canvas.2 = false ->
  let first := _drawBackgroundTexture canvas _textureFillMode _lastCanvasSize in
  _drawBackgroundTexture canvas _textureFillMode first.1
  = (first.1, [program_bind; program_uploadAll; program_uploadUnGroupTextures;
               renderState_apply; drawPrimitive]).
Proof.
  intros Hwidth Hheight first. unfold first, _drawBackgroundTexture.
  destruct (decide (_textureFillMode = Fill)) as [-> | Hmode].
  - cbn. by rewrite !andb_false_r.
  - rewrite (bool_decide_eq_true_2 _ Hmode), !andb_true_r.
    destruct (negb (strictEquals _lastCanvasSize.1 canvas.1)
              || negb (strictEquals _lastCanvasSize.2 canvas.2)) eqn:Hresize;
      cbn [fst snd].
    + by rewrite !strictEquals_refl.
    + by rewrite Hresize.
Qed.

End BackgroundTexture.

(** ** Float curves *)

Section FloatCurve.
Import AnimationFloatCurve PipelineMore.

Lemma mul_zero (d : JS.number) (negative : bool) :
  Number_isFinite d = true ->
  exists s, JS.mul d (S754_zero negative) = S754_zero s.
Proof. intros Hd. destruct d as [s | s | | s m e]; try done; by eexists. Qed.

Lemma add_zero (x : JS.number) (negative : bool) :
  JS.isNaN x = false -> strictEquals (JS.add x (S754_zero negative)) x = true.
Proof.
  intros Hx. destruct x as [s | s | | s m e]; try done.
  - by destruct s, negative.
  - by destruct s.
  - apply (strictEquals_refl (S754_finite s m e)). done.
Qed.

(** X27.  With a cross weight of zero, [_lerpValue] answers the source
    value, provided that the source is a number and that the difference
    [destValue - srcValue] is finite.  That proviso is needed even for
    finite values: from [-Number.MAX_VALUE] to [Number.MAX_VALUE] the
    difference overflows, and the answer for weight zero is [NaN]. *)
Theorem lerpValue_weight_zero :
  (forall (srcValue destValue : JS.number) (negative : bool),
      JS.isNaN srcValue = false ->
      Number_isFinite (JS.sub destValue srcValue) = true ->
      strictEquals (_lerpValue srcValue destValue (S754_zero negative)) srcValue
      = true) /\
  _lerpValue (S754_finite true (2 ^ 53 - 1) 971) MAX_VALUE (JS.ofZ 0) = S754_nan.
Proof.
  split; [| reflexivity].
  intros srcValue destValue negative Hsrc Hfinite. unfold _lerpValue.
  destruct (mul_zero _ negative Hfinite) as [s ->].
  by apply add_zero.
Qed.

(** X28.  With a weight of zero, [_additiveValue] answers the value it
    adds to, provided that this one is a number and that the added value
    is finite. *)
Theorem additiveValue_weight_zero (value scource : JS.number) (negative : bool) :
  JS.isNaN scource = false ->
  Number_isFinite value = true ->
  strictEquals (_additiveValue value (S754_zero negative) scource) scource = true.
Proof.
  intros Hsource Hvalue. unfold _additiveValue.
  destruct (mul_zero _ negative Hvalue) as [s ->].
  by apply add_zero.
Qed.

Lemma sub_self (x : JS.number) :
  Number_isFinite x = true -> exists s, JS.sub x x = S754_zero s.
Proof.
  intros Hx. destruct x as [s | s | | s m e]; try done.
  - destruct s; by eexists.
  - exists false. unfold JS.sub, SFsub. by rewrite Z.sub_diag.
Qed.

Lemma zero_mul (w : JS.number) (negative : bool) :
  Number_isFinite w = true ->
  exists s, JS.mul (S754_zero negative) w = S754_zero s.
Proof. intros Hw. destruct w as [s | s | | s m e]; try done; by eexists. Qed.

(** X29.  [_subtractValue] of a finite value from itself is zero.  Of an
    infinite value from itself it is [NaN]. *)
Theorem subtractValue_self :
  (forall src : JS.number,
      Number_isFinite src = true ->
      strictEquals (_subtractValue src src) _getZeroValue = true) /\
  _subtractValue (S754_infinity false) (S754_infinity false) = S754_nan.
Proof.
  split; [| reflexivity].
  intros src Hsrc. unfold _subtractValue.
  destruct (sub_self src Hsrc) as [s ->]. by destruct s.
Qed.

(** X30.  Between two equal finite values, [_lerpValue] answers that
    value for every finite cross weight. *)
Theorem lerpValue_constant (value crossWeight : JS.number) :
  Number_isFinite value = true ->
  Number_isFinite crossWeight = true ->
  strictEquals (_lerpValue value value crossWeight) value = true.
Proof.
  intros Hvalue Hweight. unfold _lerpValue.
  destruct (sub_self value Hvalue) as [s ->].
  destruct (zero_mul crossWeight s Hweight) as [s' ->].
  apply add_zero. by destruct value.
Qed.

End FloatCurve.

(** ** Examples *)

Section LightExamples.
Import LightManager.

Lemma getSunLightIndex_in_range_witness :
  exists light,
    DisorderedArray.get (_getSunLightIndex (twoLights (JS.ofZ 1)))
      (_directLights (manager (twoLights (JS.ofZ 1)))) = Some light /\
    light ∈ _directLights (manager (twoLights (JS.ofZ 1))).
Proof.
  apply (proj2 (getSunLightIndex_in_range (twoLights (JS.ofZ 1)))).
  vm_compute. intros Hnone. discriminate Hnone.
Defined.

Lemma updateShaderData_counts_witness :
  _updateShaderData (twoLights (JS.ofZ 1)) (ShaderData.enableMacro "FOG" None ∅)
    !! "FOG"
  = ShaderData.enableMacro "FOG" None ∅ !! "FOG".
Proof.
  pose proof (updateShaderData_counts (twoLights (JS.ofZ 1))
                (ShaderData.enableMacro "FOG" None ∅)) as Hcounts.
  cbv zeta in Hcounts. destruct Hcounts as (_ & _ & _ & Hother).
  apply Hother; intros Hname; discriminate Hname.
Defined.

End LightExamples.

Section SceneExamplesMore.
Import Scene.

(** Scene 0 with the root entities 3 and 4. *)
Local Abbreviation two_roots :=
  (calls (H := simpleEntities 8)
     [AddRootEntity 0%nat None 3%nat; AddRootEntity 0%nat None 4%nat] Sample.world).

Lemma two_roots_well_formed : well_formed two_roots.
Proof.
  apply (calls_well_formed (H := simpleEntities 8)); [| exact sample_well_formed].
  repeat constructor.
Qed.

Lemma two_roots_list : rootEntities 0%nat two_roots = [3; 4]%nat.
Proof. vm_compute. reflexivity. Qed.

Lemma addRootEntity_inserts_witness :
  rootEntities 0%nat
    (addRootEntity (H := simpleEntities 8) 0%nat (Some (Index.int 1)) 0%nat
       two_roots).1
  = [3; 0; 4]%nat.
Proof.
  pose proof (addRootEntity_inserts (H := simpleEntities 8) 0%nat (Some 1) 0%nat
                two_roots) as Hinserts.
  cbv zeta in Hinserts.
  destruct Hinserts as (_ & Hlist & _).
  - exact two_roots_well_formed.
  - vm_compute. split; intros Hgt; discriminate Hgt.
  - intros [Hroot _]. vm_compute in Hroot. discriminate Hroot.
  - intros old Hroot. vm_compute in Hroot. discriminate Hroot.
  - exact Hlist.
Defined.

Lemma addRootEntity_already_root_witness :
  (addRootEntity (H := simpleEntities 8) 0%nat (Some (Index.float S754_nan)) 4%nat
     two_roots).2
  = Return tt.
Proof.
  apply (addRootEntity_already_root (H := simpleEntities 8) 0%nat
           (Some (Index.float S754_nan)) 4%nat two_roots); vm_compute; reflexivity.
Defined.

Lemma removeRootEntity_removes_witness :
  rootEntities 0%nat (removeRootEntity (H := simpleEntities 8) 0%nat 3%nat two_roots).1
  = [4]%nat.
Proof.
  pose proof (removeRootEntity_removes (H := simpleEntities 8) 0%nat 3%nat 0%nat
                two_roots two_roots_well_formed) as Hremoves.
  cbv zeta in Hremoves.
  destruct Hremoves as (_ & Hlist & _).
  - vm_compute. reflexivity.
  - exact Hlist.
Defined.

Lemma removeRootEntity_after_addRootEntity_witness :
  rootEntities 0%nat
    (removeRootEntity (H := simpleEntities 8) 0%nat 0%nat
       (addRootEntity (H := simpleEntities 8) 0%nat (Some (Index.int 1)) 0%nat
          two_roots).1).1
  = [3; 4]%nat.
Proof.
  pose proof (removeRootEntity_after_addRootEntity (H := simpleEntities 8) 0%nat
                (Some 1) 0%nat two_roots) as Hback.
  cbv zeta in Hback.
  destruct Hback as (_ & Hlist & _).
  - exact two_roots_well_formed.
  - vm_compute. split; intros Hgt; discriminate Hgt.
  - intros [Hroot _]. vm_compute in Hroot. discriminate Hroot.
  - intros old Hroot. vm_compute in Hroot. discriminate Hroot.
  - exact Hlist.
Defined.

Lemma findEntityByName_last_root_witness :
  SceneMore.findEntityByName (fun _ _ _ => None) 0%nat "E" two_roots = Some 4%nat.
Proof.
  apply (findEntityByName_last_root (fun _ _ _ => None) 0%nat "E" two_roots 1%nat).
  - vm_compute. reflexivity.
  - vm_compute. reflexivity.
  - intros j x Hlt Hj. rewrite two_roots_list in Hj.
    destruct j as [| [| j]]; [lia | lia | discriminate Hj].
Defined.

Lemma findEntityByName_null_witness :
  SceneMore.findEntityByName (fun _ _ _ => None) 0%nat "F" two_roots = None.
Proof.
  apply (proj2 (findEntityByName_null (fun _ _ _ => None) 0%nat "F" two_roots)).
  intros x Hx. rewrite two_roots_list in Hx. split; [| reflexivity].
  apply elem_of_cons in Hx as [-> | Hx].
  - vm_compute. intros Hname. discriminate Hname.
  - apply list_elem_of_singleton in Hx as ->.
    vm_compute. intros Hname. discriminate Hname.
Defined.

Lemma scene_processActive_well_formed_witness :
  _isActiveInEngine
    (scenes (SceneMore._processActive (H := simpleEntities 8) 0%nat true two_roots)
       0%nat)
  = true /\
  Entity._isActiveInHierarchy
    (entity 3%nat (SceneMore._processActive (H := simpleEntities 8) 0%nat true two_roots))
  = true.
Proof.
  destruct (scene_processActive_well_formed 0%nat true two_roots
              two_roots_well_formed) as [Hframe Hroots].
  split.
  - destruct (Hframe (simpleEntities 8)) as (_ & Hflag & _). exact Hflag.
  - apply (Hroots 8%nat 3%nat). rewrite two_roots_list.
    by apply (bool_decide_unpack _).
Defined.

End SceneExamplesMore.

Section CameraExamples.
Import SceneMore.

Lemma camera_calls_without_effect_witness :
  _attachRenderCamera 1%nat [1; 2]%nat = ([1; 2]%nat, ["Camera already attached."]) /\
  _detachRenderCamera 3%nat [1; 2]%nat = [1; 2]%nat.
Proof.
  split.
  - apply (proj1 (camera_calls_without_effect 1%nat [1; 2]%nat)).
    by apply (bool_decide_unpack _).
  - apply (proj2 (camera_calls_without_effect 3%nat [1; 2]%nat)).
    by apply (bool_decide_unpack _).
Defined.

Lemma detachRenderCamera_removes_witness :
  _detachRenderCamera 2%nat ([1] ++ 2 :: [3; 2])%nat = ([1] ++ [3; 2])%nat.
Proof.
  apply (detachRenderCamera_removes 2%nat [1]%nat [3; 2]%nat).
  by apply (bool_decide_unpack _).
Defined.

End CameraExamples.

Section PipelineExamples.
Import BasicRenderPipeline PipelineMore.

Lemma addRenderPass_position_witness :
  _renderPassArray (addRenderPass SamplePipeline.passes 3%nat SamplePipeline.pipeline)
  = [0; 3; 1; 2]%nat.
Proof.
  apply (addRenderPass_position SamplePipeline.passes 3%nat SamplePipeline.pipeline).
  intros i j p q Hlt Hi Hj.
  destruct i as [| [| [| i]]]; destruct j as [| [| [| j]]];
    cbn in Hi, Hj; simplify_eq; cbn; lia.
Defined.

Lemma getRenderPass_first_witness :
  exists before after,
    [0; 1; 2]%nat = before ++ 1%nat :: after /\
    RenderPass.name (SamplePipeline.passes 1%nat) = "offscreen" /\
    forall q, q ∈ before -> RenderPass.name (SamplePipeline.passes q) <> "offscreen".
Proof.
  exact (getRenderPass_first SamplePipeline.passes "offscreen" SamplePipeline.pipeline).
Defined.

Lemma removeRenderPass_removes_first_witness :
  removeRenderPass SamplePipeline.passes (inl "offscreen") (mk 0%nat ([0] ++ 1 :: [2])%nat)
  = mk 0%nat ([0] ++ [2])%nat.
Proof.
  apply (proj2 (removeRenderPass_removes_first SamplePipeline.passes [0]%nat [2]%nat
                  1%nat 0%nat)).
  intros q Hq. apply list_elem_of_singleton in Hq as ->.
  cbn. intros Hname. discriminate Hname.
Defined.

Lemma callRender_slots_witness :
  exists renderer',
    (_callRender (SamplePipeline.camera false true) [SamplePipeline.behind]).1 !! 0%nat
    = Some renderer' /\
    Renderer.bounds renderer' = Renderer.bounds SamplePipeline.behind.
Proof.
  destruct (callRender_slots (SamplePipeline.camera false true) [SamplePipeline.behind]
              0%nat SamplePipeline.behind eq_refl)
    as (renderer' & Hslot & _ & Hbounds & _).
  exists renderer'. split; [exact Hslot | exact Hbounds].
Defined.

Lemma drawRenderPass_draws_witness :
  List.filter
    (fun e => match e with
              | BasicRenderPipeline.render _ _ _ _ _ | queue_render _ _ _ _ | sky_render
              | BasicRenderPipeline._drawBackgroundTexture => true
              | _ => false
              end)
    (_drawRenderPass SamplePipeline.passes 1%nat (SamplePipeline.camera true false)
       None None)
  = [queue_render _opaqueQueue (SamplePipeline.camera true false) None None;
     queue_render _alphaTestQueue (SamplePipeline.camera true false) None None;
     queue_render _transparentQueue (SamplePipeline.camera true false) None None].
Proof.
  apply (drawRenderPass_draws SamplePipeline.passes 1%nat
           (SamplePipeline.camera true false) None None).
  reflexivity.
Defined.

Lemma drawBackgroundTexture_resizes_once_witness :
  let first :=
    _drawBackgroundTexture (JS.ofZ 800, JS.ofZ 600) AspectFitWidth (JS.ofZ 0, JS.ofZ 0) in
  first.2 = [_resizeBackgroundTexture; program_bind; program_uploadAll;
             program_uploadUnGroupTextures; renderState_apply; drawPrimitive] /\
  _drawBackgroundTexture (JS.ofZ 800, JS.ofZ 600) AspectFitWidth first.1
  = (first.1, [program_bind; program_uploadAll; program_uploadUnGroupTextures;
               renderState_apply; drawPrimitive]).
Proof.
  split; [reflexivity |].
  apply (drawBackgroundTexture_resizes_once (JS.ofZ 800, JS.ofZ 600) AspectFitWidth
           (JS.ofZ 0, JS.ofZ 0)); reflexivity.
Defined.

End PipelineExamples.

Section FloatCurveExamples.
Import AnimationFloatCurve PipelineMore.

Lemma lerpValue_weight_zero_witness :
  strictEquals (_lerpValue (JS.ofZ 1) (JS.ofZ 3) (S754_zero false)) (JS.ofZ 1) = true.
Proof.
  apply (proj1 lerpValue_weight_zero (JS.ofZ 1) (JS.ofZ 3) false); reflexivity.
Defined.

Lemma additiveValue_weight_zero_witness :
  strictEquals (_additiveValue (JS.ofZ 5) (S754_zero false) (S754_infinity false))
    (S754_infinity false)
  = true.
Proof.
  apply (additiveValue_weight_zero (JS.ofZ 5) (S754_infinity false) false); reflexivity.
Defined.

Lemma subtractValue_self_witness :
  strictEquals (_subtractValue (JS.ofZ 7) (JS.ofZ 7)) _getZeroValue = true.
Proof. apply (proj1 subtractValue_self (JS.ofZ 7)). reflexivity. Defined.

Lemma lerpValue_constant_witness :
  strictEquals (_lerpValue (JS.ofZ 7) (JS.ofZ 7) (JS.div (JS.ofZ 1) (JS.ofZ 3)))
    (JS.ofZ 7)
  = true.
Proof.
  apply (lerpValue_constant (JS.ofZ 7) (JS.div (JS.ofZ 1) (JS.ofZ 3))); reflexivity.
Defined.

End FloatCurveExamples.
